(** * Diffusion posterior sampling: respacing, losses, samplers

    A shallow embedding of [diffusion/respace.py] and of the noise process
    and the box-inpainting, blur and grayscale operators of
    [measurement_models/measurement_models.py].

    Conventions.
    - Python [int] is [Z]; Python [//] and [%] with a positive divisor are
      [Z.div] and [Z.modulo].
    - The Python floats of [space_timesteps] are binary64 numbers: a
      finite float is the rational it denotes, and every operation rounds
      its exact result to the nearest float, ties to even ([Float]).
    - The schedule arithmetic of [SpacedDiffusion.__init__] is read in
      exact arithmetic, in [Q], apart from its divisions by zero, which
      give the IEEE special values; tensor entries need [sqrt] and [exp],
      so they are real numbers, and statements about them hold in exact
      arithmetic.
    - A Python exception is a value of [exn]; a computation that may raise
      returns [result]. *)

From Stdlib Require Import ZArith QArith Qround Qpower Qabs Reals Lra Lqa Lia Bool List Ascii String.
From stdpp Require Import base numbers option list strings gmap sets sorting.

Set Default Proof Using "Type".

(** Linear arithmetic over the rationals and over the reals. *)
Ltac qlra := Lqa.lra.
Ltac rlra := Lra.lra.

(** ** Exceptions and the error monad *)

Inductive exn : Set :=
| ValueError
| AssertionError
| TypeError
| NotImplementedError
| ZeroDivisionError
| RuntimeError
| IndexError
| OverflowError.

Inductive result (A : Type) : Type :=
| Ok (a : A)
| Raise (e : exn).
Arguments Ok {A} a.
Arguments Raise {A} e.

#[global] Instance result_ret : MRet result := fun A a => Ok a.
#[global] Instance result_bind : MBind result := fun A B f m =>
  match m with
  | Ok a => f a
  | Raise e => Raise e
  end.
#[global] Instance result_fmap : FMap result := fun A B f m =>
  match m with
  | Ok a => Ok (f a)
  | Raise e => Raise e
  end.

Definition is_Ok {A} (r : result A) : Prop := ∃ a, r = Ok a.

(** [for x in xs: ... f x ...] where the body may raise. *)
Fixpoint mapM_result {A B} (f : A → result B) (xs : list A) : result (list B) :=
  match xs with
  | [] => Ok []
  | x :: xs' => y ← f x; ys ← mapM_result f xs'; Ok (y :: ys)
  end.

(** ** Floating-point numbers *)

Module Float.
Local Open Scope Q_scope.

(** An IEEE 754 binary float: a finite one is the rational it denotes.
    The sign of zero is not kept. *)
Inductive t :=
| Fin (q : Q)
| Inf (negative : bool)
| NaN.

(** A binary format: [prec] significant bits, the exponent [emin] of the
    smallest positive number, and [emax] with [2^emax] the first power of
    two out of range. *)
Record format := mk_format { prec : Z; emin : Z; emax : Z }.

Definition binary64 : format := mk_format 53 (-1074) 1024.
Definition binary32 : format := mk_format 24 (-149) 128.

(** The nearest integer, ties to the even one. *)
Definition round_half_even (x : Q) : Z :=
  let f := Qfloor x in
  match (x - inject_Z f ?= 1 # 2)%Q with
  | Lt => f
  | Gt => (f + 1)%Z
  | Eq => if Z.even f then f else (f + 1)%Z
  end.

(** The exponent [e] with [2^e <= x < 2^(e+1)], for a positive [x]. *)
Definition ilog2 (x : Q) : Z :=
  if Qle_bool 1 x then Z.log2 (Qfloor x) else (- Z.log2_up (Qceiling (/ x)))%Z.

(** Rounding to nearest, ties to even: the significand is rounded on the
    grid of the binade of [x], or on the subnormal grid; what rounds to
    [2^emax] or beyond overflows. *)
Definition round (f : format) (x : Q) : t :=
  if Qeq_bool x 0 then Fin 0
  else
    let a := Qabs x in
    let e := Z.max (ilog2 a - (prec f - 1)) (emin f) in
    let y := inject_Z (round_half_even (a / 2 ^ e)) * 2 ^ e in
    if Qle_bool (2 ^ emax f) y then Inf (negb (Qle_bool 0 x))
    else Fin (if Qle_bool 0 x then y else - y).

Definition add (f : format) (x y : t) : t :=
  match x, y with
  | Fin a, Fin b => round f (a + b)
  | NaN, _ | _, NaN => NaN
  | Inf s, Inf s' => if Bool.eqb s s' then Inf s else NaN
  | Inf s, Fin _ | Fin _, Inf s => Inf s
  end.

Definition mul (f : format) (x y : t) : t :=
  match x, y with
  | Fin a, Fin b => round f (a * b)
  | NaN, _ | _, NaN => NaN
  | Inf s, Inf s' => Inf (xorb s s')
  | Inf s, Fin b | Fin b, Inf s =>
      if Qeq_bool b 0 then NaN else Inf (xorb s (negb (Qle_bool 0 b)))
  end.

(** The unit roundoff of binary64, [2^-53]. *)
Definition u64 : Q := 1 # 9007199254740992.
End Float.

(** ** Python built-ins used by [space_timesteps] *)

Module Py.
Local Open Scope Z_scope.

(** [len(range(start, stop, step))] for a positive [step]; the source only
    strides forward. *)
Definition range_len (start stop step : Z) : Z :=
  if (0 <? step) && (start <? stop) then (stop - start - 1) `div` step + 1 else 0.

(** [list(range(start, stop, step))] for a positive [step]. *)
Definition range (start stop step : Z) : list Z :=
  (λ k : nat, start + Z.of_nat k * step) <$> seq 0 (Z.to_nat (range_len start stop step)).

Definition digit_of_ascii (c : ascii) : option Z :=
  let n := Z.of_N (Ascii.N_of_ascii c) in
  if (48 <=? n) && (n <=? 57) then Some (n - 48) else None.

(** Decimal digits, with single [_] allowed between two digits;
    [after_digit] tells whether the character before was a digit. *)
Fixpoint digits_value (acc : Z) (after_digit : bool) (s : string) : option Z :=
  match s with
  | EmptyString => if after_digit then Some acc else None
  | String c s' =>
      match digit_of_ascii c with
      | Some d => digits_value (10 * acc + d) true s'
      | None =>
          if Ascii.eqb c "_" && after_digit then digits_value acc false s' else None
      end
  end.

Definition is_space (c : ascii) : bool :=
  let n := Ascii.N_of_ascii c in
  ((9 <=? n) && (n <=? 13) || (n =? 32))%N.

Fixpoint lstrip (s : string) : string :=
  match s with
  | String c s' => if is_space c then lstrip s' else s
  | EmptyString => EmptyString
  end.

(** [s.rstrip()]: the string without its trailing blanks. *)
Fixpoint rstrip (s : string) : string :=
  match s with
  | EmptyString => EmptyString
  | String c s' =>
      match rstrip s' with
      | EmptyString => if is_space c then EmptyString else String c EmptyString
      | r => String c r
      end
  end.

(** [int(s)] on a string: surrounding ASCII blanks are dropped, then an
    optional sign and a decimal literal are read; anything else is a
    [ValueError].  (Digits outside ASCII are not modelled.) *)
Definition int (s : string) : result Z :=
  let body :=
    match lstrip (rstrip s) with
    | String "-" s' => Z.opp <$> digits_value 0 false s'
    | String "+" s' => digits_value 0 false s'
    | s' => digits_value 0 false s'
    end in
  match body with
  | Some n => Ok n
  | None => Raise ValueError
  end.

(** [s.split(sep)] for a one-character separator. *)
Fixpoint split (sep : ascii) (s : string) : list string :=
  match s with
  | EmptyString => [EmptyString]
  | String c s' =>
      if Ascii.eqb c sep then EmptyString :: split sep s'
      else match split sep s' with
           | [] => [String c EmptyString]
           | w :: ws => String c w :: ws
           end
  end.

(** [s[n:]] *)
Fixpoint drop_string (n : nat) (s : string) : string :=
  match n, s with
  | O, _ => s
  | S n', String _ s' => drop_string n' s'
  | S _, EmptyString => EmptyString
  end.

(** [sum(l)] on a list of integers. *)
Definition sum (l : list Z) : Z := foldr Z.add 0 l.

(** [a / b] on two integers: the binary64 number nearest to the quotient. *)
Definition true_div (a b : Z) : result Float.t :=
  if b =? 0 then Raise ZeroDivisionError
  else
    match Float.round Float.binary64 (inject_Z a / inject_Z b) with
    | Float.Inf _ => Raise OverflowError
    | x => Ok x
    end.

(** [round(x)] on a float: the nearest integer, ties to the even one. *)
Definition round (x : Float.t) : result Z :=
  match x with
  | Float.Fin q => Ok (Float.round_half_even q)
  | Float.Inf _ => Raise OverflowError
  | Float.NaN => Raise ValueError
  end.
End Py.

(** ** [space_timesteps] *)

Module Respace.
Local Open Scope Z_scope.

(** The second argument of [space_timesteps]: a string or a list of
    integers. *)
Inductive section_spec :=
| SpecStr (s : string)
| SpecList (l : list Z).

(** [for i in range(1, num_timesteps): if len(range(0, num_timesteps, i))
    == desired_count: return set(range(0, num_timesteps, i))], then
    [raise ValueError]. *)
Fixpoint ddim_search (num_timesteps desired_count : Z) (strides : list Z)
  : result (gset Z) :=
  match strides with
  | [] => Raise ValueError
  | i :: rest =>
      if Py.range_len 0 num_timesteps i =? desired_count
      then Ok (list_to_set (Py.range 0 num_timesteps i))
      else ddim_search num_timesteps desired_count rest
  end.

(** The inner loop: [for _ in range(section_count):
    taken_steps.append(start_idx + round(cur_idx)); cur_idx += frac_stride],
    on binary64 floats. *)
Fixpoint take_steps (n : nat) (start_idx : Z) (cur_idx frac_stride : Float.t)
  : result (list Z) :=
  match n with
  | O => Ok []
  | S n' =>
      r ← Py.round cur_idx;
      rest ← take_steps n' start_idx
                (Float.add Float.binary64 cur_idx frac_stride) frac_stride;
      Ok ((start_idx + r) :: rest)
  end.

(** [size = size_per + (1 if i < extra else 0)] *)
Definition section_size (size_per extra i : Z) : Z :=
  size_per + (if i <? extra then 1 else 0).

(** [frac_stride]: the integer 1, which the addition to the float
    [cur_idx] converts to [1.0], or the float [(size - 1) / (section_count -
    1)]. *)
Definition frac_stride_of (size section_count : Z) : result Float.t :=
  if section_count <=? 1 then Ok (Float.Fin 1)
  else Py.true_div (size - 1) (section_count - 1).

(** The outer loop over [enumerate(section_counts)], with the loop state
    [(i, start_idx, all_steps)]. *)
Fixpoint sections_loop (size_per extra : Z) (i start_idx : Z) (all_steps : list Z)
    (section_counts : list Z) : result (list Z) :=
  match section_counts with
  | [] => Ok all_steps
  | section_count :: rest =>
      let size := section_size size_per extra i in
      if size <? section_count then Raise ValueError
      else
        frac_stride ← frac_stride_of size section_count;
        taken_steps ←
          take_steps (Z.to_nat section_count) start_idx (Float.Fin 0) frac_stride;
        sections_loop size_per extra (i + 1) (start_idx + size)
          (all_steps ++ taken_steps) rest
  end.

(** Lines 49-70: the section mode on a list of integers. *)
Definition space_sections (num_timesteps : Z) (section_counts : list Z)
  : result (gset Z) :=
  let n := Z.of_nat (length section_counts) in
  if n =? 0 then Raise ZeroDivisionError
  else
    let size_per := num_timesteps `div` n in
    let extra := num_timesteps `mod` n in
    all_steps ← sections_loop size_per extra 0 0 [] section_counts;
    Ok (list_to_set all_steps).

(** Lines 39-70. *)
Definition space_timesteps (num_timesteps : Z) (section_counts : section_spec)
  : result (gset Z) :=
  match section_counts with
  | SpecStr s =>
      if String.prefix "ddim" s then
        desired_count ← Py.int (Py.drop_string 4 s);
        ddim_search num_timesteps desired_count (Py.range 1 num_timesteps 1)
      else
        counts ← mapM_result Py.int (Py.split "," s);
        space_sections num_timesteps counts
  | SpecList l => space_sections num_timesteps l
  end.
End Respace.

(** ** The base diffusion process *)

Module GaussianDiffusion.
Local Open Scope Q_scope.

(** [np.cumprod]: the running product. *)
Fixpoint cumprod_from (acc : Q) (xs : list Q) : list Q :=
  match xs with
  | [] => []
  | x :: xs' => let acc' := acc * x in acc' :: cumprod_from acc' xs'
  end.

(** Modelled from the spec: [gaussian_diffusion.py] is not among the
    sources.  The base diffusion process is "constructed from a per-step
    noise-increment sequence" and "exposes a cumulative signal-retention
    sequence aligned with that input": the running product of the retained
    signal fractions [1 - beta]. *)
Definition alphas_cumprod (betas : list Q) : list Q :=
  cumprod_from 1 ((λ beta, 1 - beta) <$> betas).

(** Modelled from the spec: the length of the schedule the process was
    constructed from. *)
Definition num_timesteps {A} (betas : list A) : nat := length betas.
End GaussianDiffusion.

(** ** [SpacedDiffusion.__init__] *)

Module SpacedDiffusion.
Local Open Scope Z_scope.

Record t := mk {
  use_timesteps : gset Z;
  timestep_map : list Z;
  original_num_steps : Z;
  rescale_timesteps : bool;
  (** the [betas] handed to the base constructor *)
  betas : list Float.t;
}.

(** [1 - alpha_cumprod / last_alpha_cumprod] on numpy floats, read in exact
    arithmetic: a zero divisor does not raise, it gives [nan] for [0 / 0]
    and otherwise an infinity, which the subtraction from one negates. *)
Definition new_beta (alpha_cumprod last_alpha_cumprod : Q) : Float.t :=
  if Qeq_bool last_alpha_cumprod 0 then
    if Qeq_bool alpha_cumprod 0 then Float.NaN
    else Float.Inf (Qle_bool 0 alpha_cumprod)
  else Float.Fin (1 - alpha_cumprod / last_alpha_cumprod).

(** The loop over [enumerate(base_diffusion.alphas_cumprod)], with the loop
    state [(last_alpha_cumprod, new_betas, timestep_map)]. *)
Fixpoint respace_loop (use_timesteps : gset Z) (i : Z) (alphas_cumprod : list Q)
    (last_alpha_cumprod : Q) (new_betas : list Float.t) (timestep_map : list Z)
  : list Float.t * list Z :=
  match alphas_cumprod with
  | [] => (new_betas, timestep_map)
  | alpha_cumprod :: rest =>
      if decide (i ∈ use_timesteps) then
        respace_loop use_timesteps (i + 1) rest alpha_cumprod
          (new_betas ++ [new_beta alpha_cumprod last_alpha_cumprod])
          (timestep_map ++ [i])
      else
        respace_loop use_timesteps (i + 1) rest last_alpha_cumprod new_betas timestep_map
  end.

(** Lines 88-94: the loop from [last_alpha_cumprod = 1.0] and empty lists. *)
Definition respace (use_timesteps : gset Z) (alphas_cumprod : list Q)
  : list Float.t * list Z :=
  respace_loop use_timesteps 0 alphas_cumprod 1%Q [] [].

(** [__init__(self, use_timesteps, **kwargs)], where [kwargs] carries
    [betas] and [rescale_timesteps]. *)
Definition init (use : list Z) (kw_betas : list Q) (kw_rescale_timesteps : bool) : t :=
  let use_timesteps : gset Z := list_to_set use in
  let original_num_steps := Z.of_nat (length kw_betas) in
  let '(new_betas, timestep_map) :=
    respace use_timesteps (GaussianDiffusion.alphas_cumprod kw_betas) in
  mk use_timesteps timestep_map original_num_steps kw_rescale_timesteps new_betas.
End SpacedDiffusion.

(** ** [_WrappedModel] and [SpacedDiffusion._wrap_model] *)

Module WrappedModel.
Local Open Scope Z_scope.

(** A batch of timesteps: an integer tensor, or a float tensor once
    rescaled. *)
Inductive timesteps :=
| IntTs (ts : list Z)
| FloatTs (ts : list Q).

Section model.
(** Samples and model outputs. *)
Context {X Y : Type}.

(** A callable model: a denoiser, or a [_WrappedModel] instance with its
    four attributes. *)
Inductive model :=
| Raw (f : X → timesteps → result Y)
| Wrapped (inner : model) (timestep_map : list Z) (rescale_timesteps : bool)
    (original_num_steps : Z).

(** [map_tensor[ts]] for one index: negative indices count from the
    end, an index out of range raises. *)
Definition index1 (map_tensor : list Z) (i : Z) : result Z :=
  let n := Z.of_nat (length map_tensor) in
  if (- n <=? i) && (i <? n) then
    match map_tensor !! Z.to_nat (i `mod` n) with
    | Some v => Ok v
    | None => Raise IndexError
    end
  else Raise IndexError.

(** [new_ts = map_tensor[ts]], then the optional
    [new_ts.float() * (1000.0 / self.original_num_steps)].  A float
    tensor cannot be used as an index. *)
Definition translate (timestep_map : list Z) (rescale_timesteps : bool)
    (original_num_steps : Z) (ts : timesteps) : result timesteps :=
  match ts with
  | FloatTs _ => Raise IndexError
  | IntTs ts =>
      new_ts ← mapM_result (index1 timestep_map) ts;
      if rescale_timesteps then
        if original_num_steps =? 0 then Raise ZeroDivisionError
        else Ok (FloatTs ((λ v, inject_Z v * (1000 / inject_Z original_num_steps))%Q
                            <$> new_ts))
      else Ok (IntTs new_ts)
  end.

(** [model(x, ts)]; for a [_WrappedModel] this is [__call__]. *)
Fixpoint call (m : model) (x : X) (ts : timesteps) : result Y :=
  match m with
  | Raw f => f x ts
  | Wrapped inner timestep_map rescale_timesteps original_num_steps =>
      new_ts ← translate timestep_map rescale_timesteps original_num_steps ts;
      call inner x new_ts
  end.

(** [SpacedDiffusion._wrap_model] *)
Definition _wrap_model (self : SpacedDiffusion.t) (m : model) : model :=
  match m with
  | Wrapped _ _ _ _ => m
  | Raw _ =>
      Wrapped m (SpacedDiffusion.timestep_map self)
        (SpacedDiffusion.rescale_timesteps self)
        (SpacedDiffusion.original_num_steps self)
  end.
End model.
Arguments model : clear implicits.
End WrappedModel.

(** ** Tensors *)

Module Tensor.
Local Open Scope R_scope.

(** A dense tensor: its shape and its entries in row-major order. *)
Record tensor := mk { shape : list nat; data : list R }.

Definition numel (s : list nat) : nat := foldr Nat.mul 1%nat s.

(** Well-formed: as many entries as the shape announces. *)
Definition wf (t : tensor) : Prop := length (data t) = numel (shape t).

(** [t.unsqueeze(0)] *)
Definition unsqueeze0 (t : tensor) : tensor := mk (1%nat :: shape t) (data t).

(** Broadcasting of two shapes, given innermost dimension first: equal
    extents agree, an extent of one stretches, a missing dimension counts
    as one, anything else is incompatible. *)
Fixpoint broadcast_rev (a b : list nat) : option (list nat) :=
  match a, b with
  | [], _ => Some b
  | _, [] => Some a
  | x :: a', y :: b' =>
      if (x =? y)%nat then cons x <$> broadcast_rev a' b'
      else if (x =? 1)%nat then cons y <$> broadcast_rev a' b'
      else if (y =? 1)%nat then cons x <$> broadcast_rev a' b'
      else None
  end.

Definition broadcast_shapes (a b : list nat) : option (list nat) :=
  @rev nat <$> broadcast_rev (rev a) (rev b).

(** The row-major position in a tensor of shape [src] that supplies
    position [k] of its expansion to shape [tgt]; both shapes innermost
    dimension first. *)
Fixpoint src_index_rev (src tgt : list nat) (k : nat) : nat :=
  match src, tgt with
  | a :: src', b :: tgt' =>
      ((if (a =? 1)%nat then 0 else k mod b) + a * src_index_rev src' tgt' (k / b))%nat
  | _, _ => 0%nat
  end.

(** [t.expand(tgt)] on the entries. *)
Definition expand (src tgt : list nat) (d : list R) : list R :=
  (λ k, nth (src_index_rev (rev src) (rev tgt) k) d 0) <$> seq 0 (numel tgt).

(** An element-wise binary operator with broadcasting; incompatible shapes
    raise [RuntimeError]. *)
Definition binop (f : R → R → R) (a b : tensor) : result tensor :=
  match broadcast_shapes (shape a) (shape b) with
  | None => Raise RuntimeError
  | Some s =>
      Ok (mk s (zip_with f (expand (shape a) s (data a)) (expand (shape b) s (data b))))
  end.

Definition add : tensor → tensor → result tensor := binop Rplus.
Definition sub : tensor → tensor → result tensor := binop Rminus.
Definition mul : tensor → tensor → result tensor := binop Rmult.

(** An element-wise unary operator. *)
Definition map (f : R → R) (t : tensor) : tensor := mk (shape t) (f <$> data t).

(** [c * t] for a Python scalar or a zero-dimensional tensor [c]. *)
Definition scale (c : R) (t : tensor) : tensor := map (Rmult c) t.
Definition exp (t : tensor) : tensor := map Rtrigo_def.exp t.
Definition abs (t : tensor) : tensor := map Rabs t.

(** [t.sum()] *)
Definition sum_list (l : list R) : R := foldr Rplus 0 l.
Definition sum (t : tensor) : R := sum_list (data t).

(** [th.linalg.norm(t)] with its default arguments: the 2-norm of the
    flattened tensor. *)
Definition norm (t : tensor) : R := sqrt (sum_list ((λ v, v * v) <$> data t)).

(** [t[:, lo:hi]] for [hi] within the second dimension; fewer than two
    dimensions raise [IndexError]. *)
Definition narrow1 (lo hi : nat) (t : tensor) : result tensor :=
  match shape t with
  | d0 :: d1 :: rest =>
      let inner := numel rest in
      let hi' := Nat.min hi d1 in
      let lo' := Nat.min lo hi' in
      let keep (k : nat) := let c := ((k / inner) mod d1)%nat in
                            bool_decide (lo' ≤ c < hi')%nat in
      Ok (mk (d0 :: (hi' - lo')%nat :: rest)
            ((zip (seq 0 (length (data t))) (data t)) ≫= λ '(k, v), if keep k then [v] else []))
  | _ => Raise IndexError
  end.
End Tensor.

Abbreviation tensor := Tensor.tensor.

(** ** Measurement losses *)

Module Loss.
Local Open Scope R_scope.

(** [th.nn.MSELoss(reduction="sum")], a torch module: the two arguments are
    broadcast against each other and the squared differences summed. *)
Definition MSELoss_sum (input target : tensor) : result R :=
  diff ← Tensor.sub input target;
  Ok (Tensor.sum (Tensor.map (λ d, d * d) diff)).

(** [PoissonMseLoss.forward] *)
Definition PoissonMseLoss_forward (x y : tensor) : result R :=
  if decide (Tensor.shape x = Tensor.shape y) then
    let weights := Tensor.map (λ v, 1 / (2 * Rmax (Rabs v) (1 / 100))) y in
    diff ← Tensor.sub x y;
    wd ← Tensor.mul weights diff;
    wdd ← Tensor.mul wd diff;
    Ok (Tensor.sum wdd)
  else Raise AssertionError.

(** The object stored in [self.measurement_loss]. *)
Inductive measurement_loss := MSELoss | PoissonMseLoss.

Definition call (l : measurement_loss) : tensor → tensor → result R :=
  match l with
  | MSELoss => MSELoss_sum
  | PoissonMseLoss => PoissonMseLoss_forward
  end.
End Loss.

(** ** Instance creation *)

Module Instance.
(** What an [__init__] hands back: [None], leaving the initialised instance,
    or some other object (here always an exception class). *)
Inductive init_return (A : Type) :=
| ReturnNone (self : A)
| ReturnObject (cls : exn).
Arguments ReturnNone {A} self.
Arguments ReturnObject {A} cls.

(** [Cls(...)]: Python's instance creation raises [TypeError] when
    [__init__] returns anything but [None]; an exception raised by
    [__init__] propagates. *)
Definition create {A} (init : result (init_return A)) : result A :=
  match init with
  | Ok (ReturnNone self) => Ok self
  | Ok (ReturnObject _) => Raise TypeError
  | Raise e => Raise e
  end.
End Instance.

(** ** The ancestral posterior sampler *)

Module DiffusionPosteriorSampling.
Local Open Scope R_scope.

(** The attributes set by [__init__]; [diffusion] is the part initialised
    by [SpacedDiffusion.__init__]. *)
Record t := mk {
  diffusion : SpacedDiffusion.t;
  measurement_model : tensor → result tensor;
  measurement : tensor;
  noise_model : string;
  step_size : R;
  measurement_loss : Loss.measurement_loss;
}.

(** [__init__].  Moving the measurement to a device does not change its
    entries; the [print] of the last branch is not modelled. *)
Definition __init__ (use_timesteps : list Z) (measurement_model : tensor → result tensor)
    (measurement : tensor) (noise_model : string) (step_size : R)
    (kw_betas : list Q) (kw_rescale_timesteps : bool)
  : result (Instance.init_return t) :=
  let diffusion := SpacedDiffusion.init use_timesteps kw_betas kw_rescale_timesteps in
  let self := mk diffusion measurement_model measurement noise_model step_size in
  if String.eqb noise_model "gaussian" then Ok (Instance.ReturnNone (self Loss.MSELoss))
  else if String.eqb noise_model "poisson" then Ok (Instance.ReturnNone (self Loss.PoissonMseLoss))
  else Ok (Instance.ReturnObject NotImplementedError).

(** [DiffusionPosteriorSampling(...)] *)
Definition new use_timesteps measurement_model measurement noise_model step_size
    kw_betas kw_rescale_timesteps : result t :=
  Instance.create (__init__ use_timesteps measurement_model measurement noise_model
                     step_size kw_betas kw_rescale_timesteps).

(** [self.num_timesteps], set by the base constructor from the derived
    schedule. *)
Definition num_timesteps (self : t) : nat :=
  GaussianDiffusion.num_timesteps (SpacedDiffusion.betas (diffusion self)).

(** The entries of [p_mean_variance]'s result that [p_sample] reads. *)
Record moments := mk_moments {
  mean : tensor;
  log_variance : tensor;
  pred_xstart : tensor;
}.

(** The dictionary returned by [p_sample]. *)
Record step_record := mk_step {
  step_sample : tensor;
  step_pred_xstart : tensor;
  step_mean : tensor;
}.

(** [if len(m.shape) != 4: m = m.unsqueeze(0)] *)
Definition to_4d (m : tensor) : tensor :=
  if decide (length (Tensor.shape m) ≠ 4%nat) then Tensor.unsqueeze0 m else m.

Section collaborators.
(** [GaussianDiffusion.p_mean_variance], applied to the wrapped model. *)
Context (p_mean_variance :
           WrappedModel.model tensor tensor → tensor → list Z → result moments).
(** [th.autograd.grad(loss, x)[0]]: the gradient of the measurement loss
    with respect to the noisy sample [x], through the graph that produced
    the clean-signal estimate [x0] from [x] at timesteps [t]. *)
Context (autograd_grad : tensor → list Z → tensor → result tensor).
(** [th.randn] and [th.randn_like]: the [k]-th draw, of the given shape. *)
Context (randn : nat → list nat → tensor).

Definition dps_update (self : t) (x : tensor) (t : list Z) (x0 x_old : tensor)
  : result tensor :=
  let measurement4 := to_4d (measurement self) in
  y_pred ← measurement_model self x0;
  let y_pred := to_4d y_pred in
  loss ← Loss.call (measurement_loss self) y_pred measurement4;
  grad ← autograd_grad x t x0;
  zeta_i ← (if Rlt_dec 0 loss then
              residual ← Tensor.sub y_pred (measurement self);
              Ok (step_size self / Tensor.norm (Tensor.abs residual))
            else Ok (step_size self));
  x_new ← Tensor.sub x_old (Tensor.scale zeta_i grad);
  Ok x_new.

(** [(t != 0).float().view(-1, *([1] * (len(x.shape) - 1)))] *)
Definition nonzero_mask (x : tensor) (t : list Z) : tensor :=
  Tensor.mk (length t :: replicate (length (Tensor.shape x) - 1) 1%nat)
    ((λ ti : Z, if decide (ti ≠ 0%Z) then 1 else 0) <$> t).

(** [out["mean"] + nonzero_mask * th.exp(0.5 * out["log_variance"]) * noise] *)
Definition ancestral_proposal (out : moments) (nonzero_mask noise : tensor)
  : result tensor :=
  scaled ← Tensor.mul nonzero_mask (Tensor.exp (Tensor.scale (1 / 2) (log_variance out)));
  injected ← Tensor.mul scaled noise;
  Tensor.add (mean out) injected.

(** [p_sample]; [draw] counts the random tensors drawn so far. *)
Definition p_sample (self : t) (model : WrappedModel.model tensor tensor)
    (x : tensor) (t : list Z) (draw : nat) : result step_record :=
  let x_t := x in
  out ← p_mean_variance (WrappedModel._wrap_model (diffusion self) model) x_t t;
  let noise := randn draw (Tensor.shape x_t) in
  sample ← ancestral_proposal out (nonzero_mask x t) noise;
  let x0_hat := pred_xstart out in
  dps_sample ← dps_update self x_t t x0_hat sample;
  Ok (mk_step dps_sample x0_hat (mean out)).

(** The [for i in indices] loop of [p_sample_loop_progressive]: the records
    yielded, and the exception that ended the generator, if any. *)
Fixpoint sample_steps (self : t) (model : WrappedModel.model tensor tensor)
    (shape : list nat) (indices : list Z) (x_t : tensor) (draw : nat)
  : list step_record * option exn :=
  match indices with
  | [] => ([], None)
  | i :: rest =>
      let step :=
        batch ← match shape with
                | [] => Raise IndexError
                | b :: _ => Ok b
                end;
        p_sample self model x_t (replicate batch i) draw in
      match step with
      | Raise e => ([], Some e)
      | Ok out =>
          let '(outs, e) :=
            sample_steps self model shape rest (step_sample out) (S draw) in
          (out :: outs, e)
      end
  end.

(** [p_sample_loop_progressive] with an explicit [device].
    [th.randn], called on the unpacked [shape], raises [TypeError] when
    [shape] is empty, no size being passed; then [min(indices)] raises
    [ValueError] on an empty schedule. *)
Definition p_sample_loop_progressive (self : t)
    (model : WrappedModel.model tensor tensor) (shape : list nat)
  : list step_record * option exn :=
  match shape with
  | [] => ([], Some TypeError)
  | _ =>
      let x_t := randn 0 shape in
      let indices := reverse (Py.range 0 (Z.of_nat (num_timesteps self)) 1) in
      match indices with
      | [] => ([], Some ValueError)
      | _ => sample_steps self model shape indices x_t 1
      end
  end.

(** [p_sample_loop]: the [sample] of the last record. *)
Definition p_sample_loop (self : t) (model : WrappedModel.model tensor tensor)
    (shape : list nat) : result tensor :=
  match p_sample_loop_progressive self model shape with
  | (_, Some e) => Raise e
  | (outs, None) =>
      match last outs with
      | Some final => Ok (step_sample final)
      | None => Raise TypeError
      end
  end.
End collaborators.
End DiffusionPosteriorSampling.

(** ** The multistep-solver posterior sampler *)

Module DPMDiffusionPosteriorSampling.
Local Open Scope R_scope.

Section solver.
(** The state initialised by [DPM_Solver.__init__], and the entries of
    [model_prev_list]. *)
Context {Solver ModelOutput : Type}.

Record t := mk {
  solver : Solver;
  measurement_model : tensor → result tensor;
  measurement : tensor;
  noise_model : string;
  step_size : R;
  measurement_loss : Loss.measurement_loss;
}.

(** [__init__]; [super_init] is the outcome of [super().__init__(...)]. *)
Definition __init__ (super_init : result Solver)
    (measurement_model : tensor → result tensor) (measurement : tensor)
    (noise_model : string) (step_size : R) : result (Instance.init_return t) :=
  solver ← super_init;
  let self := mk solver measurement_model measurement noise_model step_size in
  if String.eqb noise_model "gaussian" then Ok (Instance.ReturnNone (self Loss.MSELoss))
  else if String.eqb noise_model "poisson" then Ok (Instance.ReturnNone (self Loss.PoissonMseLoss))
  else Raise NotImplementedError.

(** [DPMDiffusionPosteriorSampling(...)] *)
Definition new super_init measurement_model measurement noise_model step_size
  : result t :=
  Instance.create (__init__ super_init measurement_model measurement noise_model step_size).

(** [t.long()] on one entry: truncation toward zero. *)
Definition long (r : R) : Z :=
  if Rle_dec 0 r then Int_part r else (- Int_part (- r))%Z.

(** [l[-1]] *)
Definition last_item {A} (l : list A) : result A :=
  match last l with
  | Some a => Ok a
  | None => Raise IndexError
  end.

(** [self.ddpm_model], and the methods of [GaussianDiffusion] and
    [DPM_Solver] that the update calls. *)
Context (ddpm_model : tensor → list Z → result tensor).
Context (_predict_xstart_from_eps : tensor → list Z → tensor → result tensor).
Context (dpm_solver_first_update :
           Solver → tensor → tensor → tensor → ModelOutput → result tensor).
Context (multistep_dpm_solver_second_update multistep_dpm_solver_third_update :
           Solver → tensor → list ModelOutput → list tensor → tensor → string
           → result tensor).
(** [th.autograd.grad(loss, x)[0]], as for the ancestral sampler. *)
Context (autograd_grad : tensor → tensor → tensor → result tensor).

Definition dps_update (self : t) (x : tensor) (t : tensor) (x0 x_old : tensor)
  : result tensor :=
  let measurement4 := DiffusionPosteriorSampling.to_4d (measurement self) in
  y_pred ← measurement_model self x0;
  let y_pred := DiffusionPosteriorSampling.to_4d y_pred in
  loss ← Loss.call (measurement_loss self) y_pred measurement4;
  grad ← autograd_grad x t x0;
  let step_size' := step_size self in
  zeta_i ← (if Rlt_dec 0 loss then
              residual ← Tensor.sub y_pred (measurement self);
              Ok (step_size' / Tensor.norm (Tensor.abs residual))
            else Ok (step_size self));
  x_new ← Tensor.sub x_old (Tensor.scale zeta_i grad);
  Ok x_new.

(** [get_model_output] on a one-entry integer timestep tensor; only the
    [eps] entry of the result is used by the caller. *)
Definition get_model_output_eps (x : tensor) (t : list Z) : result tensor :=
  model_output ← ddpm_model x t;
  Tensor.narrow1 0 3 model_output.

(** [t.long().view(1)]: defined for a one-entry tensor. *)
Definition long_view1 (t : tensor) : result (list Z) :=
  match Tensor.data t with
  | [r] => Ok [long r]
  | _ => Raise RuntimeError
  end.

Definition multistep_dpm_solver_update (self : t) (x_t : tensor)
    (model_prev_list : list ModelOutput) (t_prev_list : list tensor) (t : tensor)
    (order : Z) (solver_type : string) : result tensor :=
  t_last ← last_item t_prev_list;
  t_current ← long_view1 t_last;
  eps ← get_model_output_eps x_t t_current;
  x0_pred ← _predict_xstart_from_eps x_t t_current eps;
  proposal ←
    (if (order =? 1)%Z then
       t_last ← last_item t_prev_list;
       model_s ← last_item model_prev_list;
       dpm_solver_first_update (solver self) x_t t_last t model_s
     else if (order =? 2)%Z then
       multistep_dpm_solver_second_update (solver self) x_t model_prev_list
         t_prev_list t solver_type
     else if (order =? 3)%Z then
       multistep_dpm_solver_third_update (solver self) x_t model_prev_list
         t_prev_list t solver_type
     else Raise ValueError);
  x_new ← dps_update self x_t t x0_pred proposal;
  x_out ← Tensor.add (Tensor.scale (7 / 10) x_new) (Tensor.scale (3 / 10) proposal);
  Ok x_out.
End solver.
Arguments t : clear implicits.

(** [x_out = 0.7 * x_new + 0.3 * proposal] on one entry as the floats of
    format [f] compute it: the two Python scalars take the format of the
    tensors, and each product and the sum round to the nearest float. *)
Definition blend_entry (f : Float.format) (x_new proposal : Float.t) : Float.t :=
  Float.add f (Float.mul f (Float.round f (7 # 10)) x_new)
    (Float.mul f (Float.round f (3 # 10)) proposal).
End DPMDiffusionPosteriorSampling.

(** ** The box-inpainting measurement operator *)

Module BoxInpainting.
Local Open Scope nat_scope.

(** Tensor objects are views of a storage: [unsqueeze] and [squeeze] make
    a new view of the same storage, an in-place operator writes to it. *)
Record tensor_view := view { storage : nat; vshape : list nat }.

(** The box chosen at the first call: [self.x1], [self.x2], [self.box_h],
    [self.box_w]. *)
Record coords := mk_coords { x1 : nat; x2 : nat; box_h : nat; box_w : nat }.

(** The operator's state: no box while [self.box_values] is [False]. *)
Record t := mk { box_values : option coords }.

(** [__init__] *)
Definition fresh : t := mk None.

(** The rows kept by the slice [lo:hi] of a dimension of extent [d]. *)
Definition slice_len (lo hi d : nat) : nat := Nat.min hi d - Nat.min lo d.

(** Whether row-major position [k] of a tensor of the given shape lies in
    [tensor[:, :, x1:x1 + box_h, x2:x2 + box_w]]. *)
Definition in_box (bx : coords) (shape : list nat) (k : nat) : bool :=
  match shape with
  | _ :: _ :: h :: w :: rest =>
      let inner := Tensor.numel rest in
      let j := (k / inner) mod w in
      let i := (k / (inner * w)) mod h in
      bool_decide (x1 bx ≤ i < x1 bx + box_h bx)
      && bool_decide (x2 bx ≤ j < x2 bx + box_w bx)
  | _ => false
  end.

(** [tensor[:, :, x1:x1 + box_h, x2:x2 + box_w] *= mask] on the entries,
    for a mask that is [False] everywhere. *)
Definition zero_box (bx : coords) (shape : list nat) (d : list R) : list R :=
  imap (λ k v, if in_box bx shape k then (v * 0)%R else v) d.

Section rng.
(** [torch.randint(0, high, (1,)).item()]: the [k]-th draw. *)
Context (randint : nat → nat → nat).

(** [box]: the coordinates are drawn at the first call only. *)
Definition box (self : t) (x : tensor_view) : result t :=
  match box_values self with
  | Some _ => Ok self
  | None =>
      match vshape x with
      | [_; _; h; w] =>
          let max_x := if 128 <=? h then h - 128 else 0 in
          let max_y := if 128 <=? w then w - 128 else 0 in
          let x1 := randint 0 (Nat.max 1 max_x) in
          let x2 := randint 1 (Nat.max 1 max_y) in
          Ok (mk (Some (mk_coords x1 x2 (Nat.min 128 h) (Nat.min 128 w))))
      | _ => Raise ValueError
      end
  end.

(** [__call__] on a tensor object, in a store of storages.  The result is
    the store and the operator after the call and what the call returned
    or raised. *)
Definition call (self : t) (σ : gmap nat (list R)) (tensor : tensor_view)
  : gmap nat (list R) * t * result tensor_view :=
  let tensor :=
    if decide (length (vshape tensor) = 3) then view (storage tensor) (1 :: vshape tensor)
    else tensor in
  match box self tensor with
  | Raise e => (σ, self, Raise e)
  | Ok self =>
      match box_values self, vshape tensor with
      | Some bx, b :: c :: dims =>
          match dims with
          | h :: w :: rest =>
              let mask_shape := [b; c; 128; 128] in
              let slice_shape :=
                b :: c :: slice_len (x1 bx) (x1 bx + box_h bx) h
                  :: slice_len (x2 bx) (x2 bx + box_w bx) w :: rest in
              if decide (Tensor.broadcast_shapes slice_shape mask_shape = Some slice_shape)
              then
                match σ !! storage tensor with
                | Some d =>
                    let out :=
                      if decide (length (vshape tensor) = 4 ∧ b = 1)
                      then view (storage tensor) (c :: dims) else tensor in
                    (<[storage tensor := zero_box bx (vshape tensor) d]> σ, self, Ok out)
                | None => (σ, self, Raise RuntimeError)
                end
              else (σ, self, Raise RuntimeError)
          | _ => (σ, self, Raise IndexError)
          end
      | _, _ => (σ, self, Raise ValueError)
      end
  end.
End rng.

(** [Identity.__call__]: the tensor object itself. *)
Definition identity_call (σ : gmap nat (list R)) (tensor : tensor_view)
  : gmap nat (list R) * result tensor_view :=
  (σ, Ok tensor).
End BoxInpainting.

(** ** Vocabulary of the statements *)

Section respacing_vocabulary.
Import Respace.
Local Open Scope Z_scope.

(** The span of the [k] sections from section [i] on. *)
Fixpoint total_size (size_per extra i : Z) (k : nat) : Z :=
  match k with
  | O => 0
  | S k' => section_size size_per extra i + total_size size_per extra (i + 1) k'
  end.

(** The per-section counts that a specification denotes in section mode. *)
Inductive denotes_counts : section_spec → list Z → Prop :=
| denotes_list l : denotes_counts (SpecList l) l
| denotes_str s l :
    String.prefix "ddim" s = false →
    mapM_result Py.int (Py.split "," s) = Ok l →
    denotes_counts (SpecStr s) l.

(** The stride of a section in exact arithmetic. *)
Definition exact_stride (size section_count : Z) : Q :=
  inject_Z (size - 1) / inject_Z (section_count - 1).

(** What one addition may add to the error of the counter [cur_idx] on a
    schedule of at most [2^24] timesteps: [2^-27]. *)
Definition counter_error : Q := 1 # 134217728.

(** The size of section [i] when [num_timesteps] is divided into
    [len(section_counts)] sections. *)
Definition size_of_section (T : Z) (counts : list Z) (i : nat) : Z :=
  let n := Z.of_nat (length counts) in
  section_size (T `div` n) (T `mod` n) (Z.of_nat i).

(** The retained indices from [i] on, each with its cumulative fraction. *)
Fixpoint retained_from (use : gset Z) (i : Z) (acp : list Q) : list (Z * Q) :=
  match acp with
  | [] => []
  | a :: rest =>
      if decide (i ∈ use) then (i, a) :: retained_from use (i + 1) rest
      else retained_from use (i + 1) rest
  end.

(** The increments that divide consecutive cumulative fractions, in exact
    arithmetic. *)
Fixpoint betas_of (last : Q) (retained : list Q) : list Q :=
  match retained with
  | [] => []
  | a :: rest => (1 - a / last)%Q :: betas_of a rest
  end.

(** The same increments as the loop computes them, a zero divisor giving
    [nan] or an infinity. *)
Fixpoint new_betas_of (last : Q) (retained : list Q) : list Float.t :=
  match retained with
  | [] => []
  | a :: rest => SpacedDiffusion.new_beta a last :: new_betas_of a rest
  end.

(** The cumulative fraction most recently retained before position [k] of
    [timestep_map]; one before the first. *)
Definition last_retained (acp : list Q) (tm : list Z) (k : nat) : Q :=
  match k with
  | O => 1%Q
  | S k' => default 0%Q (x ← tm !! k'; acp !! Z.to_nat x)
  end.
End respacing_vocabulary.

Section sampler_vocabulary.
Import Tensor DiffusionPosteriorSampling.
Local Open Scope R_scope.

(** The square of an entry. *)
Definition sq (v : R) : R := v * v.

(** The sample that step [k] starts from: the initial noise, then the
    sample of the record before. *)
Definition state_before (x_init : tensor) (records : list step_record) (k : nat)
  : tensor :=
  match k with
  | O => x_init
  | S k' => default x_init (step_sample <$> records !! k')
  end.

(** A well-formed tensor of shape [s]. *)
Definition shaped (s : list nat) (x : tensor) : Prop := shape x = s ∧ wf x.

(** What the ancestral sampler expects of its collaborators on samples of
    shape [s]: the moments and the gradient come back in the shape of the
    sample, the noise in the shape asked for, and the measurement operator
    produces something the configured loss accepts. *)
Definition collaborators_return
    (p_mean_variance :
       WrappedModel.model tensor tensor → tensor → list Z → result moments)
    (autograd_grad : tensor → list Z → tensor → result tensor)
    (randn : nat → list nat → tensor)
    (self : DiffusionPosteriorSampling.t) (s : list nat) : Prop :=
  (∀ m x t, shaped s x →
     ∃ out, p_mean_variance m x t = Ok out
            ∧ shaped s (mean out) ∧ shaped s (log_variance out)
            ∧ shaped s (pred_xstart out))
  ∧ (∀ k, shaped s (randn k s))
  ∧ (∀ x0, shaped s x0 →
       ∃ y l, measurement_model self x0 = Ok y
              ∧ Loss.call (measurement_loss self) (to_4d y)
                  (to_4d (measurement self)) = Ok l)
  ∧ (∀ x t x0, shaped s x → ∃ g, autograd_grad x t x0 = Ok g ∧ shaped s g).

(** What one step of the ancestral sampler needs, on samples of shape [s]
    and the given denoiser: at every timestep [i] of the schedule, on the
    whole batch, the moments of the wrapped denoiser come back in the shape
    of the sample; the measurement operator takes the clean-signal estimate
    among them to something the configured loss accepts; the gradient of
    that loss comes back in the shape of the sample; and the noise has the
    shape asked for. *)
Definition steps_return
    (p_mean_variance :
       WrappedModel.model tensor tensor → tensor → list Z → result moments)
    (autograd_grad : tensor → list Z → tensor → result tensor)
    (randn : nat → list nat → tensor)
    (self : DiffusionPosteriorSampling.t)
    (model : WrappedModel.model tensor tensor) (s : list nat) : Prop :=
  (∀ x (i : Z), shaped s x → (0 <= i < Z.of_nat (num_timesteps self))%Z →
     let t := replicate (default 0%nat (head s)) i in
     ∃ out, p_mean_variance (WrappedModel._wrap_model (diffusion self) model) x t = Ok out
            ∧ shaped s (mean out) ∧ shaped s (log_variance out)
            ∧ (∃ y l, measurement_model self (pred_xstart out) = Ok y
                      ∧ Loss.call (measurement_loss self) (to_4d y)
                          (to_4d (measurement self)) = Ok l)
            ∧ ∃ g, autograd_grad x t (pred_xstart out) = Ok g ∧ shaped s g)
  ∧ (∀ k, shaped s (randn k s)).
End sampler_vocabulary.

(** ** Instances for the examples *)

Section sampler_instances.
Import Tensor DiffusionPosteriorSampling.
Local Open Scope R_scope.

(** A batch of one single-channel image of one pixel. *)
Definition pixel (v : R) : tensor := Tensor.mk [1; 1; 1; 1]%nat [v].

(** A sampler over a two-step schedule whose measurement operator is the
    identity, observing [y], with base step size one. *)
Definition identity_sampler (loss : Loss.measurement_loss) (y : tensor)
  : DiffusionPosteriorSampling.t :=
  DiffusionPosteriorSampling.mk (SpacedDiffusion.init [0; 1]%Z [1 # 2; 1 # 2]%Q false)
    Ok y (match loss with Loss.MSELoss => "gaussian" | Loss.PoissonMseLoss => "poisson" end)
    1 loss.

(** A two-step schedule on one-pixel signals: the denoiser's moments are
    the sample itself, the gradient is the sample, the noise is zero. *)
Definition toy_moments : WrappedModel.model tensor tensor → tensor → list Z → result moments :=
  λ _ x _, Ok (mk_moments x x x).

Definition toy_grad : tensor → list Z → tensor → result tensor := λ x _ _, Ok x.

Definition toy_randn : nat → list nat → tensor :=
  λ _ s, Tensor.mk s (replicate (numel s) 0).

Definition toy_model : WrappedModel.model tensor tensor :=
  WrappedModel.Raw (λ x _, Ok x).

(** Moments that come from calling the wrapped denoiser at the given
    timesteps: its output is the mean, the log-variance and the
    clean-signal estimate. *)
Definition called_moments
  : WrappedModel.model tensor tensor → tensor → list Z → result moments :=
  λ m x t, y ← WrappedModel.call m x (WrappedModel.IntTs t); Ok (mk_moments y y y).
End sampler_instances.

Section solver_instances.
Import Tensor DPMDiffusionPosteriorSampling.
Local Open Scope R_scope.

(** A solver whose first-order proposal is the current sample, on
    one-pixel signals, with a measurement loss whose gradient vanishes. *)
Definition toy_solver : DPMDiffusionPosteriorSampling.t unit :=
  DPMDiffusionPosteriorSampling.mk tt Ok (pixel 0) "gaussian" 1 Loss.MSELoss.

(** The update of that solver: every collaborator hands the sample back. *)
Definition toy_update :=
  multistep_dpm_solver_update (Solver := unit) (ModelOutput := tensor)
    (λ x _, Ok x) (λ x _ _, Ok x) (λ _ x _ _ _, Ok x)
    (λ _ x _ _ _ _, Ok x) (λ _ x _ _ _ _, Ok x) (λ _ _ _, Ok (pixel 0)).
End solver_instances.

Section store_instances.
Local Open Scope nat_scope.

(** An all-ones image batch of the given shape, alone in the store at
    location 0. *)
Definition ones_store (shape : list nat) : gmap nat (list R) :=
  {[ 0 := replicate (Tensor.numel shape) 1%R ]}.
End store_instances.

(** ** Vocabulary of the further properties *)

Section further_vocabulary.
Import Respace.
Local Open Scope Z_scope.

(** The first index of section [j] when [num_timesteps] is divided into
    [len(section_counts)] sections: the sizes of the sections before it,
    added up. *)
Definition start_of_section (T : Z) (counts : list Z) (j : nat) : Z :=
  let n := Z.of_nat (length counts) in
  total_size (T `div` n) (T `mod` n) 0 j.
End further_vocabulary.


(** ** Further functions of the sources *)

(** *** [denormalize_imagenet] *)

Module Denormalize.
Local Open Scope R_scope.

(** [th.tensor([0.485, 0.456, 0.406]).view(3, 1, 1)] *)
Definition mean : tensor :=
  Tensor.mk [3; 1; 1]%nat [485 / 1000; 456 / 1000; 406 / 1000].

(** [th.tensor([0.229, 0.224, 0.225]).view(3, 1, 1)] *)
Definition std : tensor :=
  Tensor.mk [3; 1; 1]%nat [229 / 1000; 224 / 1000; 225 / 1000].

(** [tensor * std + mean] *)
Definition denormalize_imagenet (t : tensor) : result tensor :=
  scaled ← Tensor.mul t std;
  Tensor.add scaled mean.
End Denormalize.

(** *** [NoiseProcess] *)

Module NoiseProcess.
Local Open Scope R_scope.

Record t := mk { noise_model : string; sigma : R }.

(** [__init__]: [noise_model not in ["gaussian", "poisson"]] raises. *)
Definition __init__ (noise_model : string) (sigma : R) : result t :=
  if String.eqb noise_model "gaussian" || String.eqb noise_model "poisson"
  then Ok (mk noise_model sigma)
  else Raise ValueError.

(** [tensor.min()] and [tensor.max()]; an empty tensor raises. *)
Definition tensor_min (x : tensor) : result R :=
  match Tensor.data x with
  | [] => Raise RuntimeError
  | v :: l => Ok (foldr Rmin v l)
  end.

Definition tensor_max (x : tensor) : result R :=
  match Tensor.data x with
  | [] => Raise RuntimeError
  | v :: l => Ok (foldr Rmax v l)
  end.

(** [(tensor - tensor.min()) / tensor.max()], the rates handed to
    [torch.poisson]: both extrema are those of the tensor as it came in.
    (A maximum of zero makes the float division yield [inf] or [nan], which
    the reals do not have.) *)
Definition poisson_rates (x : tensor) : result tensor :=
  lo ← tensor_min x;
  hi ← tensor_max x;
  Ok (Tensor.map (λ v, (v - lo) / hi) x).

Section rng.
(** [torch.randn_like], and the draw of [torch.poisson] on rates that it
    accepts. *)
Context (randn_like : tensor → tensor) (poisson : tensor → tensor).

(** [torch.poisson(rates)]: a negative rate is refused. *)
Definition torch_poisson (rates : tensor) : result tensor :=
  if @Exists_dec R (λ r, r < 0) (λ r, Rlt_dec r 0) (Tensor.data rates)
  then Raise RuntimeError
  else Ok (poisson rates).

(** [noiser]; a noise model other than the two falls off the end of the
    function, which returns [None]. *)
Definition noiser (self : t) (x : tensor) : result (option tensor) :=
  if String.eqb (noise_model self) "gaussian" then
    noisy ← Tensor.add x (Tensor.scale (sigma self) (randn_like x));
    Ok (Some noisy)
  else if String.eqb (noise_model self) "poisson" then
    rates ← poisson_rates x;
    noisy ← torch_poisson rates;
    Ok (Some noisy)
  else Ok None.
End rng.
End NoiseProcess.

(** *** [GaussianBlur.gaussian_kernel] *)

Module GaussianBlur.
Local Open Scope R_scope.



End GaussianBlur.


(** *** [Grayscale] *)

Module Grayscale.
Local Open Scope R_scope.

(** [self.weights.view(1, 3, 1, 1)] *)
Definition weights : tensor :=
  Tensor.mk [1; 3; 1; 1]%nat [2989 / 10000; 5870 / 10000; 1140 / 10000].

(** [t.sum(dim=1, keepdim=True)]; a tensor of fewer than two dimensions
    has no dimension 1. *)
Definition sum_dim1 (t : tensor) : result tensor :=
  match Tensor.shape t with
  | d0 :: d1 :: rest =>
      let inner := Tensor.numel rest in
      Ok (Tensor.mk (d0 :: 1%nat :: rest)
            ((λ k : nat,
                Tensor.sum_list
                  ((λ c : nat, nth ((k / inner * d1 + c) * inner + k mod inner)
                                 (Tensor.data t) 0) <$> seq 0 d1))
               <$> seq 0 (d0 * inner)))
  | _ => Raise IndexError
  end.

(** [t.repeat(1, 3, 1, 1)] on a tensor of four dimensions; more
    dimensions than repeat counts raise.  (Fewer would be padded, but the
    product with the 4-D weights has at least four.) *)
Definition repeat_channels (t : tensor) : result tensor :=
  match Tensor.shape t with
  | [d0; d1; h; w] =>
      let block := (d1 * (h * w))%nat in
      Ok (Tensor.mk [d0; (3 * d1)%nat; h; w]
            ((λ k : nat, nth (k / (3 * block) * block + k mod block) (Tensor.data t) 0)
               <$> seq 0 (d0 * (3 * block))))
  | _ => Raise RuntimeError
  end.

(** [__call__] *)
Definition call (t : tensor) : result tensor :=
  let t := if decide (length (Tensor.shape t) = 3%nat) then Tensor.unsqueeze0 t else t in
  match Tensor.shape t with
  | _ :: c :: _ =>
      if decide (c = 3%nat) then
        weighted ← Tensor.mul t weights;
        summed ← sum_dim1 weighted;
        grayscale ← repeat_channels summed;
        Ok (match Tensor.shape grayscale with
            | [1%nat; c'; h; w] => Tensor.mk [c'; h; w] (Tensor.data grayscale)
            | _ => grayscale
            end)
      else Ok t
  | _ => Raise IndexError
  end.
End Grayscale.

(** The luminance of pixel [p] of image [n] in a batch of RGB images of
    [hw] pixels each, stored row-major with entries [d]. *)
Definition luminance (d : list R) (hw n p : nat) : R :=
  (nth (n * 3 * hw + p) d 0 * (2989 / 10000)
   + nth ((n * 3 + 1) * hw + p) d 0 * (5870 / 10000)
   + nth ((n * 3 + 2) * hw + p) d 0 * (1140 / 10000))%R.


(** * Properties *)

(** ** Built-ins *)

Example range_0_10_3 : Py.range 0 10 3 = [0; 3; 6; 9]%Z.
Proof. reflexivity. Qed.

Example int_literals :
  (Py.int "50", Py.int " -7 ", Py.int "1_000", Py.int "1__0", Py.int "", Py.int "5x")
  = (Ok 50, Ok (-7), Ok 1000, Raise ValueError, Raise ValueError, Raise ValueError)%Z.
Proof. reflexivity. Qed.

Example split_counts : Py.split "," "10,15,20" = ["10"; "15"; "20"]%string.
Proof. reflexivity. Qed.

Example round_ties_to_even :
  (Py.round (Float.Fin (1 # 2)), Py.round (Float.Fin (3 # 2)),
   Py.round (Float.Fin (5 # 2)), Py.round (Float.Fin (-1 # 2)))
  = (Ok 0, Ok 2, Ok 2, Ok 0)%Z.
Proof. reflexivity. Qed.

(** [0.1 + 0.2] is [0.30000000000000004], that is [0x1.3333333333334p-2]. *)
Example float_tenth_plus_fifth :
  Float.add Float.binary64 (Float.round Float.binary64 (1 # 10))
    (Float.round Float.binary64 (2 # 10))
  = Float.Fin (5404319552844596 # 18014398509481984).
Proof. vm_compute. reflexivity. Qed.

(** [99 / 14] is [0x1.c492492492492p+2], and [float(2**53 + 3)] is
    [2**53 + 4]. *)
Example float_quotient_and_conversion :
  (Py.true_div 99 14, Float.round Float.binary64 (inject_Z (2 ^ 53 + 3)))
  = (Ok (Float.Fin (7961720769815698 # 1125899906842624)),
     Float.Fin (inject_Z (2 ^ 53 + 4) * 1)).
Proof. vm_compute. reflexivity. Qed.

(** Overflow and gradual underflow in binary32: [2**128 - 2**103] is the
    first number that rounds to infinity, and [1e-45] rounds to the
    smallest subnormal [2**-149]. *)
Example float_range_binary32 :
  (Float.round Float.binary32 (inject_Z (2 ^ 128 - 2 ^ 103)),
   Float.round Float.binary32 (inject_Z (2 ^ 128 - 2 ^ 103 - 1)),
   Float.round Float.binary32 (1 # 10 ^ 45))
  = (Float.Inf false,
     Float.Fin (inject_Z (2 ^ 128 - 2 ^ 104) * 1),
     Float.Fin (1 # 2 ^ 149)).
Proof. vm_compute. reflexivity. Qed.

Example ddim50_elements :
  (λ S : gset Z, elements S) <$> Respace.space_timesteps 1000 (Respace.SpecStr "ddim50")
  = Ok (elements (list_to_set (Py.range 0 1000 20) : gset Z)).
Proof. vm_compute. reflexivity. Qed.

(** ** Fixed-stride respacing *)

Section ddim.
Local Open Scope Z_scope.
Import Respace.

Lemma range_len_length start stop step :
  Z.of_nat (length (Py.range start stop step)) = Py.range_len start stop step.
Proof.
  unfold Py.range. rewrite length_fmap, length_seq.
  unfold Py.range_len. destruct (_ && _) eqn:E; [|done].
  apply andb_prop in E as [E1 E2].
  apply Z.ltb_lt in E1. apply Z.ltb_lt in E2.
  assert (0 ≤ (stop - start - 1) `div` step) by (apply Z.div_pos; lia).
  lia.
Qed.

Lemma elem_of_range_0 T s x :
  0 < s →
  x ∈ Py.range 0 T s ↔ ∃ k, 0 ≤ k ∧ x = k * s ∧ x < T.
Proof.
  intros Hs. unfold Py.range. rewrite list_elem_of_fmap.
  setoid_rewrite elem_of_seq. unfold Py.range_len.
  destruct (Z.ltb_spec 0 s) as [_|]; [|lia]. simpl.
  destruct (Z.ltb_spec 0 T) as [HT|HT].
  - split.
    + intros (k & -> & _ & Hk). exists (Z.of_nat k). split; [lia|]. split; [lia|].
      assert (Z.of_nat k ≤ (T - 0 - 1) `div` s) by lia.
      assert (s * ((T - 0 - 1) `div` s) ≤ T - 0 - 1) by (apply Z.mul_div_le; lia).
      nia.
    + intros (k & Hk & -> & Hlt). exists (Z.to_nat k). split; [lia|]. split; [lia|].
      assert (k ≤ (T - 0 - 1) `div` s); [|lia].
      apply Z.div_le_lower_bound; lia.
  - split.
    + intros (k & _ & _ & Hk). simpl in Hk. lia.
    + intros (k & Hk & -> & Hlt). nia.
Qed.

Lemma ddim_search_found T N (n : nat) : ∀ lo s,
  lo ≤ s < lo + Z.of_nat n →
  Py.range_len 0 T s = N →
  (∀ s', lo ≤ s' < s → Py.range_len 0 T s' ≠ N) →
  ddim_search T N ((λ k : nat, lo + Z.of_nat k * 1) <$> seq 0 n)
  = Ok (list_to_set (Py.range 0 T s)).
Proof.
  induction n as [|n IH]; intros lo s Hs HN Hmin; [lia|].
  rewrite <- cons_seq, fmap_cons. cbn [ddim_search].
  replace (lo + Z.of_nat 0 * 1) with lo by lia.
  destruct (Z.eq_dec lo s) as [->|Hne].
  - rewrite HN, Z.eqb_refl. done.
  - destruct (Z.eqb_spec (Py.range_len 0 T lo) N) as [E|_].
    { exfalso. apply (Hmin lo); [lia|done]. }
    rewrite <- fmap_S_seq, <- list_fmap_compose.
    rewrite <- (IH (lo + 1) s); [|lia|done|intros; apply Hmin; lia].
    f_equal. apply list_fmap_ext. intros _ k _. simpl. lia.
Qed.

Lemma ddim_search_none T N (n : nat) : ∀ lo,
  (∀ s, lo ≤ s < lo + Z.of_nat n → Py.range_len 0 T s ≠ N) →
  ddim_search T N ((λ k : nat, lo + Z.of_nat k * 1) <$> seq 0 n) = Raise ValueError.
Proof.
  induction n as [|n IH]; intros lo Hno; [done|].
  rewrite <- cons_seq, fmap_cons. cbn [ddim_search].
  replace (lo + Z.of_nat 0 * 1) with lo by lia.
  destruct (Z.eqb_spec (Py.range_len 0 T lo) N) as [E|_].
  { exfalso. apply (Hno lo); [lia|done]. }
  rewrite <- fmap_S_seq, <- list_fmap_compose.
  rewrite <- (IH (lo + 1)); [|intros; apply Hno; lia].
  f_equal. apply list_fmap_ext. intros _ k _. simpl. lia.
Qed.

Lemma range_1_strides T :
  Py.range 1 T 1 = (λ k : nat, 1 + Z.of_nat k * 1) <$> seq 0 (Z.to_nat (T - 1)).
Proof.
  unfold Py.range. do 2 f_equal.
  unfold Py.range_len. simpl. destruct (Z.ltb_spec 1 T); [|lia].
  rewrite Z.div_1_r. lia.
Qed.

(** C5.  In fixed-stride mode with desired count [N]: when some stride in
    [1, num_timesteps - 1] strides over [range(0, num_timesteps, s)] in
    exactly [N] steps, the result is [set(range(0, num_timesteps, s))] for
    the smallest such [s], which is the set [{0, s, 2s, ...}] below
    [num_timesteps]; when none does, the call raises [ValueError]. *)
Theorem space_timesteps_ddim (T : Z) (spec : string) (N : Z) :
  String.prefix "ddim" spec = true →
  Py.int (Py.drop_string 4 spec) = Ok N →
  (∀ s, 1 ≤ s < T →
        Z.of_nat (length (Py.range 0 T s)) = N →
        (∀ s', 1 ≤ s' < s → Z.of_nat (length (Py.range 0 T s')) ≠ N) →
        space_timesteps T (SpecStr spec) = Ok (list_to_set (Py.range 0 T s))
        ∧ ∀ x, x ∈ (list_to_set (Py.range 0 T s) : gset Z)
               ↔ ∃ k, 0 ≤ k ∧ x = k * s ∧ x < T)
  ∧ ((∀ s, 1 ≤ s < T → Z.of_nat (length (Py.range 0 T s)) ≠ N) →
     space_timesteps T (SpecStr spec) = Raise ValueError).
Proof.
  intros Hpre Hint. unfold space_timesteps. rewrite Hpre, Hint. simpl.
  rewrite range_1_strides. split.
  - intros s Hs HN Hmin. split.
    + apply ddim_search_found; [lia|by rewrite <- range_len_length|].
      intros s' Hs'. rewrite <- range_len_length. by apply Hmin.
    + intros x. rewrite elem_of_list_to_set. apply elem_of_range_0. lia.
  - intros Hno. apply ddim_search_none. intros s Hs.
    rewrite <- range_len_length. apply Hno. lia.
Qed.

Lemma range_len_1000_lower s' : 1 ≤ s' < 20 → Py.range_len 0 1000 s' ≠ 50.
Proof.
  intros Hs. unfold Py.range_len.
  destruct (Z.ltb_spec 0 s'); [|lia]. simpl.
  change (1000 - 0 - 1) with 999. assert (52 ≤ 999 `div` s'); [|lia].
  apply Z.div_le_lower_bound; lia.
Qed.

Lemma space_timesteps_ddim_witness :
  space_timesteps 1000 (SpecStr "ddim50") = Ok (list_to_set (Py.range 0 1000 20))
  ∧ space_timesteps 3 (SpecStr "ddim5") = Raise ValueError.
Proof.
  split.
  - apply (space_timesteps_ddim 1000 "ddim50" 50); [reflexivity|reflexivity|lia|reflexivity|].
    intros s' Hs'. rewrite range_len_length. by apply range_len_1000_lower.
  - apply (space_timesteps_ddim 3 "ddim5" 5); [reflexivity|reflexivity|].
    intros s Hs. rewrite range_len_length.
    assert (s = 1 ∨ s = 2) as [-> | ->] by lia; vm_compute; discriminate.
Defined.
End ddim.

(** ** Rounding *)

Section float_facts.
Import Float.
Local Open Scope Q_scope.

#[global] Instance round_half_even_proper : Proper (Qeq ==> eq) round_half_even.
Proof.
  intros x y E. unfold round_half_even. rewrite (Qfloor_comp _ _ E).
  assert (x - inject_Z (Qfloor y) == y - inject_Z (Qfloor y)) as E2
    by (rewrite E; reflexivity).
  rewrite (Qcompare_comp _ _ E2 _ _ (Qeq_refl _)). reflexivity.
Qed.

Lemma round_bounds x :
  x - (1 # 2) <= inject_Z (round_half_even x)
  ∧ inject_Z (round_half_even x) <= x + (1 # 2).
Proof.
  unfold round_half_even.
  pose proof (Qfloor_le x) as Hlo. pose proof (Qlt_floor x) as Hhi.
  rewrite inject_Z_plus in Hhi. change (inject_Z 1) with 1 in Hhi.
  destruct (Qcompare_spec (x - inject_Z (Qfloor x)) (1 # 2)) as [E|E|E].
  - destruct (Z.even _); [|rewrite inject_Z_plus; change (inject_Z 1) with 1];
      split; qlra.
  - split; qlra.
  - rewrite inject_Z_plus; change (inject_Z 1) with 1. split; qlra.
Qed.

Lemma round_inject_Z k : round_half_even (inject_Z k) = k.
Proof.
  unfold round_half_even. rewrite Qfloor_Z.
  destruct (Qcompare_spec (inject_Z k - inject_Z k) (1 # 2)) as [E|E|E];
    [exfalso; qlra | done | exfalso; qlra].
Qed.

Lemma round_nonneg x : 0 <= x → (0 ≤ round_half_even x)%Z.
Proof.
  intros Hx. destruct (round_bounds x) as [Hlo _].
  assert (-1 < round_half_even x)%Z; [|lia].
  rewrite Zlt_Qlt. change (inject_Z (-1)) with (-1). qlra.
Qed.

Lemma round_le_int x M : x < inject_Z M + (1 # 2) → (round_half_even x ≤ M)%Z.
Proof.
  intros Hx. destruct (round_bounds x) as [_ Hhi].
  assert (round_half_even x < M + 1)%Z; [|lia].
  rewrite Zlt_Qlt, inject_Z_plus. change (inject_Z 1) with 1. qlra.
Qed.

Lemma round_ge_int x M : inject_Z M - (1 # 2) < x → (M ≤ round_half_even x)%Z.
Proof.
  intros Hx. destruct (round_bounds x) as [Hlo _].
  assert (M - 1 < round_half_even x)%Z; [|lia].
  rewrite Zlt_Qlt. unfold Z.sub. rewrite inject_Z_plus.
  change (inject_Z (- (1))) with (-1). qlra.
Qed.

Lemma round_step_gt x y : x + 1 < y → (round_half_even x < round_half_even y)%Z.
Proof.
  intros Hd. destruct (round_bounds x) as [_ Hhi].
  destruct (round_bounds y) as [Hlo _].
  rewrite Zlt_Qlt. qlra.
Qed.

#[global] Instance ilog2_proper : Proper (Qeq ==> eq) ilog2.
Proof.
  intros x y E. unfold ilog2.
  rewrite (Qleb_comp 1 1 (Qeq_refl 1) x y E), (Qfloor_comp _ _ E).
  assert (/ x == / y) as E' by (by rewrite E).
  by rewrite (Qceiling_comp _ _ E').
Qed.

Lemma pow2_pos (e : Z) : 0 < 2 ^ e.
Proof. by apply Qpower_0_lt. Qed.

Lemma ilog2_spec x :
  1 <= x → (0 ≤ ilog2 x)%Z ∧ 2 ^ ilog2 x <= x ∧ x < 2 ^ (ilog2 x + 1).
Proof.
  intros Hx. unfold ilog2.
  assert (Qle_bool 1 x = true) as -> by (by apply Qle_bool_iff).
  assert (1 ≤ Qfloor x)%Z as Hn.
  { change 1%Z with (Qfloor 1). by apply Qfloor_resp_le. }
  pose proof (Z.log2_spec (Qfloor x) ltac:(lia)) as [Hlo Hhi].
  pose proof (Z.log2_nonneg (Qfloor x)) as Hnn.
  pose proof (Qfloor_le x) as Hfl. pose proof (Qlt_floor x) as Hfu.
  split; [done|]. split.
  - rewrite <- (Zpower_Qpower 2) by done.
    apply Qle_trans with (inject_Z (Qfloor x)); [by rewrite <- Zle_Qle|done].
  - rewrite <- (Zpower_Qpower 2) by lia.
    apply Qlt_le_trans with (inject_Z (Qfloor x + 1)); [done|].
    rewrite <- Zle_Qle. rewrite <- Z.add_1_r in Hhi. lia.
Qed.

(** A binary64 rounding of a number in [1, 2^62] is finite and within
    relative error [2^-53]. *)
Lemma round64_error x :
  1 <= x → x <= inject_Z (2 ^ 62) →
  ∃ y, round binary64 x = Fin y ∧ x - x * u64 <= y ∧ y <= x + x * u64.
Proof.
  intros Hlo Hhi. unfold round.
  assert (Qeq_bool x 0 = false) as ->.
  { apply not_true_is_false. intros E. apply Qeq_bool_eq in E. qlra. }
  assert (Qabs x == x) as Ea by (apply Qabs_pos; qlra).
  assert (Qle_bool 0 x = true) as -> by (apply Qle_bool_iff; qlra).
  rewrite (ilog2_proper _ _ Ea). cbn [prec emin emax binary64 negb].
  destruct (ilog2_spec x Hlo) as (HE & H2lo & H2hi).
  set (E := ilog2 x) in *.
  replace (Z.max (E - (53 - 1)) (-1074)) with (E - 53 + 1)%Z by lia.
  set (p := 2 ^ (E - 53 + 1)).
  assert (0 < p) as Hp by apply pow2_pos.
  assert (p * inject_Z (2 ^ 53) == 2 * 2 ^ E) as HpE.
  { subst p. rewrite Qpower_plus, Qpower_minus by done.
    rewrite (Zpower_Qpower 2 53) by done. change (inject_Z 2) with 2. field. }
  rewrite (round_half_even_proper (Qabs x / p) (x / p)) by (by rewrite Ea).
  destruct (round_bounds (x / p)) as [Hm1 Hm2].
  set (m := round_half_even (x / p)) in *.
  assert (x / p * p == x) as Hxp by (field; qlra).
  assert (x - p * (1 # 2) <= inject_Z m * p) as Hy1.
  { apply (Qmult_le_compat_r _ _ p) in Hm1; [|qlra]. qlra. }
  assert (inject_Z m * p <= x + p * (1 # 2)) as Hy2.
  { apply (Qmult_le_compat_r _ _ p) in Hm2; [|qlra]. qlra. }
  assert (p * (1 # 2) <= x * u64) as Hpu.
  { unfold u64. change (inject_Z (2 ^ 53)) with (9007199254740992 # 1) in HpE.
    assert (2 ^ E * (1 # 9007199254740992) <= x * (1 # 9007199254740992)) as Hs
      by (apply Qmult_le_compat_r; [done|discriminate]).
    qlra. }
  assert (Qle_bool (2 ^ 1024) (inject_Z m * p) = false) as ->.
  { apply not_true_is_false. intros Hle. apply Qle_bool_iff in Hle.
    assert (x * u64 <= x) as Hxu.
    { unfold u64. assert (x * (1 # 9007199254740992) <= x * 1); [|qlra].
      apply Qmult_le_l; [qlra|discriminate]. }
    assert (inject_Z (2 ^ 62) * 2 < 2 ^ 1024) as Hbig by reflexivity.
    qlra. }
  exists (inject_Z m * p). split; [done|]. split; qlra.
Qed.

(** Integers up to [2^53] are binary64 numbers. *)
Lemma round64_int x n :
  x == inject_Z n → (0 ≤ n ≤ 2 ^ 53)%Z →
  ∃ y, round binary64 x = Fin y ∧ y == inject_Z n.
Proof.
  intros Ex Hn. unfold round.
  destruct (Z.eq_dec n 0%Z) as [->|Hn0].
  { assert (Qeq_bool x 0 = true) as -> by (by apply Qeq_bool_iff). by exists 0. }
  assert (1 <= x) as Hx1.
  { rewrite Ex. change 1 with (inject_Z 1). rewrite <- Zle_Qle. lia. }
  assert (Qeq_bool x 0 = false) as ->.
  { apply not_true_is_false. intros E. apply Qeq_bool_eq in E. qlra. }
  assert (Qabs x == x) as Ea by (apply Qabs_pos; qlra).
  assert (Qle_bool 0 x = true) as -> by (apply Qle_bool_iff; qlra).
  rewrite (ilog2_proper _ _ Ea), (ilog2_proper _ _ Ex). cbn [prec emin emax binary64 negb].
  assert (ilog2 (inject_Z n) = Z.log2 n) as ->.
  { unfold ilog2. rewrite Qfloor_Z.
    assert (Qle_bool 1 (inject_Z n) = true) as ->; [|done].
    apply Qle_bool_iff. by rewrite <- Ex. }
  pose proof (Z.log2_spec n ltac:(lia)) as [Hlo Hhi].
  pose proof (Z.log2_nonneg n) as Hnn.
  assert (Z.log2 n ≤ 53)%Z as H53.
  { rewrite <- (Z.log2_pow2 53) by done. apply Z.log2_le_mono. lia. }
  set (E := Z.log2 n) in *.
  replace (Z.max (E - (53 - 1)) (-1074)) with (E - 52)%Z by lia.
  assert (∃ k : Z, Qabs x / 2 ^ (E - 52) == inject_Z k
                   ∧ inject_Z k * 2 ^ (E - 52) == inject_Z n) as (k & Hk & Hkn).
  { destruct (Z.eq_dec E 53%Z) as [E53|NE53].
    - assert (n = 2 ^ 53)%Z as ->.
      { rewrite E53 in Hlo. lia. }
      exists (2 ^ 52)%Z. rewrite E53, Ea, Ex. split; reflexivity.
    - exists (n * 2 ^ (52 - E))%Z. rewrite Ea, Ex.
      assert (inject_Z (n * 2 ^ (52 - E)) == inject_Z n * 2 ^ (52 - E)) as ->.
      { rewrite inject_Z_mult, (Zpower_Qpower 2) by lia. reflexivity. }
      replace (E - 52)%Z with (- (52 - E))%Z by lia. rewrite Qpower_opp.
      assert (¬ 2 ^ (52 - E) == 0) by (by apply Qpower_not_0).
      split; field; done. }
  rewrite (round_half_even_proper _ _ Hk), round_inject_Z.
  assert (Qle_bool (2 ^ 1024) (inject_Z k * 2 ^ (E - 52)) = false) as ->.
  { apply not_true_is_false. intros Hle. apply Qle_bool_iff in Hle.
    rewrite Hkn in Hle.
    assert (inject_Z (2 ^ 53) < 2 ^ 1024) as Hbig by reflexivity.
    assert (inject_Z n <= inject_Z (2 ^ 53)) by (rewrite <- Zle_Qle; lia).
    qlra. }
  by eexists.
Qed.
End float_facts.

Section float_sums.
Import Float.
Local Open Scope Q_scope.

#[global] Instance float_round_proper f : Proper (Qeq ==> eq) (round f).
Proof.
  intros x y E. unfold round.
  rewrite (Qeqb_comp _ _ E 0 0 (Qeq_refl 0)).
  rewrite (Qleb_comp 0 0 (Qeq_refl 0) x y E).
  assert (Qabs x == Qabs y) as Ea by (by rewrite E).
  rewrite (ilog2_proper _ _ Ea).
  set (e := Z.max _ _).
  assert (Qabs x / 2 ^ e == Qabs y / 2 ^ e) as Eq by (by rewrite Ea).
  by rewrite (round_half_even_proper _ _ Eq).
Qed.

(** Adding two non-negative binary64 numbers whose sum is an integer up to
    [2^53] is exact. *)
Lemma add64_int a b n :
  a + b == inject_Z n → (0 ≤ n ≤ 2 ^ 53)%Z →
  ∃ y, add binary64 (Fin a) (Fin b) = Fin y ∧ y == inject_Z n.
Proof. intros E Hn. cbn [add]. by apply round64_int. Qed.

(** Adding two binary64 numbers whose sum lies in [1, 2^62] loses at most
    the relative error [2^-53]. *)
Lemma add64_error a b :
  1 <= a + b → a + b <= inject_Z (2 ^ 62) →
  ∃ y, add binary64 (Fin a) (Fin b) = Fin y
       ∧ a + b - (a + b) * u64 <= y ∧ y <= a + b + (a + b) * u64.
Proof. intros Hlo Hhi. cbn [add]. by apply round64_error. Qed.
End float_sums.

(** ** Section-mode respacing *)

Section sections.
Local Open Scope Z_scope.
Import Respace.

Lemma take_steps_length n start d : ∀ cur l,
  take_steps n start cur d = Ok l → length l = n.
Proof.
  induction n as [|n IH]; intros cur l; cbn [take_steps]; [by intros [= <-]|].
  destruct (Py.round cur); [|done]. cbn [mbind result_bind].
  destruct (take_steps n start _ d) as [l'|] eqn:E; [|done].
  cbn [mbind result_bind]. intros [= <-]. simpl. f_equal. by eapply IH.
Qed.

Lemma take_steps_proper n start : ∀ cur cur' d d',
  (cur == cur')%Q → (d == d')%Q →
  take_steps n start (Float.Fin cur) (Float.Fin d)
  = take_steps n start (Float.Fin cur') (Float.Fin d').
Proof.
  induction n as [|n IH]; intros cur cur' d d' Hc Hd; [done|]. cbn [take_steps Py.round].
  rewrite (round_half_even_proper _ _ Hc). cbn [mbind result_bind Float.add].
  assert (cur + d == cur' + d')%Q as E by (by rewrite Hc, Hd).
  rewrite (float_round_proper Float.binary64 _ _ E).
  destruct n as [|n]; [done|].
  destruct (Float.round Float.binary64 (cur' + d')) as [q| |]; [|done..].
  by rewrite (IH q q d d').
Qed.

(** With the stride [1.0] the counter stays integral, hence exact, up to
    [2^53]. *)
Lemma take_steps_unit_stride n start d : (d == 1)%Q → ∀ k cur,
  (cur == inject_Z k)%Q → 0 ≤ k → k + Z.of_nat n ≤ 2 ^ 53 + 1 →
  take_steps n start (Float.Fin cur) (Float.Fin d)
  = Ok ((λ j : nat, start + k + Z.of_nat j) <$> seq 0 n).
Proof.
  intros Hd. induction n as [|n IH]; intros k cur Hcur Hk Hn; [done|].
  cbn [take_steps Py.round mbind result_bind].
  rewrite (round_half_even_proper _ _ Hcur), round_inject_Z.
  destruct n as [|n].
  { cbn [take_steps mbind result_bind seq fmap list_fmap]. do 2 f_equal. lia. }
  destruct (add64_int cur d (k + 1)) as (y & -> & Hy).
  { rewrite Hcur, Hd, inject_Z_plus. reflexivity. }
  { lia. }
  rewrite (IH (k + 1) y Hy) by lia. cbn [mbind result_bind].
  rewrite <- (cons_seq (S n) 0), fmap_cons. do 2 f_equal; [lia|].
  rewrite <- fmap_S_seq, <- list_fmap_compose.
  apply list_fmap_ext. intros ? j _. simpl. lia.
Qed.

(** Beyond [2^53] the counter stalls: [2^53 + 1] is no float, and the
    sum rounds back to [2^53]. *)
Lemma take_steps_unit_stride_stalls n start d : (d == 1)%Q → ∀ k cur,
  (cur == inject_Z k)%Q → 0 ≤ k ≤ 2 ^ 53 →
  take_steps n start (Float.Fin cur) (Float.Fin d)
  = Ok ((λ j : nat, start + Z.min (k + Z.of_nat j) (2 ^ 53)) <$> seq 0 n).
Proof.
  intros Hd. induction n as [|n IH]; intros k cur Hcur Hk; [done|].
  cbn [take_steps Py.round mbind result_bind].
  rewrite (round_half_even_proper _ _ Hcur), round_inject_Z.
  assert (∃ y, Float.add Float.binary64 (Float.Fin cur) (Float.Fin d) = Float.Fin y
               ∧ (y == inject_Z (Z.min (k + 1) (2 ^ 53)))%Q) as (y & -> & Hy).
  { destruct (Z.eq_dec k (2 ^ 53)) as [->|Hne].
    - cbn [Float.add].
      assert (cur + d == inject_Z (2 ^ 53 + 1))%Q as E.
      { rewrite Hcur, Hd, inject_Z_plus. reflexivity. }
      rewrite (float_round_proper Float.binary64 _ _ E).
      eexists. split; [vm_compute; reflexivity|]. vm_compute. reflexivity.
    - destruct (add64_int cur d (k + 1)) as (y & Hy & Ey).
      { rewrite Hcur, Hd, inject_Z_plus. reflexivity. }
      { lia. }
      exists y. split; [done|]. by rewrite Z.min_l by lia. }
  rewrite (IH _ y Hy) by lia. cbn [mbind result_bind].
  rewrite <- (cons_seq n 0), fmap_cons. do 2 f_equal; [lia|].
  rewrite <- fmap_S_seq, <- list_fmap_compose.
  apply list_fmap_ext. intros ? j _. simpl. lia.
Qed.

Section fractional_stride.
Local Open Scope Q_scope.
Context (size c : Z) (Hc : (2 ≤ c)%Z) (Hcs : (c < size)%Z) (Hsize : (size ≤ 2 ^ 24)%Z).

Local Abbreviation d := (exact_stride size c).
Local Abbreviation eps := counter_error.

Lemma stride_pos : 0 < inject_Z (c - 1).
Proof using Hc. change 0 with (inject_Z 0). rewrite <- Zlt_Qlt. lia. Qed.

Lemma stride_bounds : 1 + (1 # 16777216) <= d ∧ d <= 16777216.
Proof using Hc Hcs Hsize.
  pose proof stride_pos as Hp. unfold exact_stride. split.
  - apply Qle_shift_div_l; [done|].
    assert (inject_Z (c - 1) <= 16777216) as Hle.
    { change 16777216 with (inject_Z (2 ^ 24)). rewrite <- Zle_Qle. lia. }
    assert (inject_Z (c - 1) + 1 <= inject_Z (size - 1)) as Hs.
    { change 1 with (inject_Z 1). rewrite <- inject_Z_plus, <- Zle_Qle. lia. }
    qlra.
  - apply Qle_shift_div_r; [done|].
    assert (1 <= inject_Z (c - 1)) as Hle.
    { change 1 with (inject_Z 1). rewrite <- Zle_Qle. lia. }
    assert (inject_Z (size - 1) <= 16777216) as Hs.
    { change 16777216 with (inject_Z (2 ^ 24)). rewrite <- Zle_Qle. lia. }
    qlra.
Qed.

Lemma stride_multiple (k : Z) :
  (0 ≤ k ≤ c - 1)%Z →
  0 <= inject_Z k * d ∧ inject_Z k * d <= inject_Z (size - 1).
Proof using Hc Hcs Hsize.
  intros Hk. pose proof stride_pos as Hp. destruct stride_bounds as [Hd1 _].
  assert (0 <= inject_Z k) as Hk0.
  { change 0 with (inject_Z 0). rewrite <- Zle_Qle. lia. }
  split; [apply Qmult_le_0_compat; [done|qlra]|].
  assert (inject_Z (c - 1) * d == inject_Z (size - 1)) as <-.
  { unfold exact_stride. field. qlra. }
  apply Qmult_le_compat_r; [|qlra]. rewrite <- Zle_Qle. lia.
Qed.

Lemma stride_rounded :
  ∃ dq, Py.true_div (size - 1) (c - 1) = Ok (Float.Fin dq)
        ∧ d - (1 # 536870912) <= dq ∧ dq <= d + (1 # 536870912).
Proof using Hc Hcs Hsize.
  destruct stride_bounds as [Hd1 Hd2]. unfold Py.true_div.
  destruct (Z.eqb_spec (c - 1) 0) as [|_]; [lia|].
  change (inject_Z (size - 1) / inject_Z (c - 1)) with d.
  destruct (round64_error d) as (dq & -> & Hlo & Hhi).
  { qlra. }
  { assert (16777216 <= inject_Z (2 ^ 62)) by done. qlra. }
  exists dq. split; [done|]. unfold Float.u64 in *. split; qlra.
Qed.

(** The loop from its [k]-th round on: the counter is within [k * eps] of
    the exact multiple [k * d], which keeps every rounded counter on the
    integer that exact arithmetic rounds to or next to it, strictly above
    the one before and, in the last round, on [size - 1]. *)
Lemma take_steps_fractional start dq :
  d - (1 # 536870912) <= dq → dq <= d + (1 # 536870912) →
  ∀ (n : nat) (k : Z) cur,
    (0 ≤ k)%Z → (k + Z.of_nat n = c)%Z →
    0 <= cur →
    inject_Z k * d - inject_Z k * eps <= cur →
    cur <= inject_Z k * d + inject_Z k * eps →
    ∃ l, take_steps n start (Float.Fin cur) (Float.Fin dq) = Ok l
         ∧ StronglySorted Z.lt l
         ∧ Forall (λ e, (start + Float.round_half_even cur ≤ e ≤ start + size - 1)%Z) l
         ∧ (n ≠ O → last l = Some (start + size - 1)%Z).
Proof using Hc Hcs Hsize.
  intros Hdq1 Hdq2. destruct stride_bounds as [Hd1 Hd2].
  induction n as [|n IH]; intros k cur Hk Hkn Hcur Hlo Hhi.
  { exists []. split; [done|]. split; [constructor|]. split; [constructor|done]. }
  cbn [take_steps Py.round mbind result_bind].
  destruct (stride_multiple k ltac:(lia)) as [Hkd0 Hkd].
  assert (0 <= inject_Z k ∧ inject_Z k <= 16777216) as [Hk0 Hk24].
  { change 0 with (inject_Z 0). change 16777216 with (inject_Z (2 ^ 24)).
    rewrite <- !Zle_Qle. lia. }
  assert (inject_Z (size - 1) <= 16777216) as Hs24.
  { change 16777216 with (inject_Z (2 ^ 24)). rewrite <- Zle_Qle. lia. }
  assert (Float.round_half_even cur ≤ size - 1)%Z as Hround.
  { apply round_le_int. unfold counter_error in *. qlra. }
  destruct n as [|n].
  { exists [(start + Float.round_half_even cur)%Z].
    cbn [take_steps mbind result_bind]. split; [done|].
    split; [repeat constructor|]. split; [apply Forall_singleton; lia|].
    intros _. cbn [last]. f_equal.
    assert (size - 1 ≤ Float.round_half_even cur)%Z; [|lia].
    replace k with (c - 1)%Z in * by lia.
    assert (inject_Z (c - 1) * d == inject_Z (size - 1)) as E.
    { unfold exact_stride. field. pose proof stride_pos. qlra. }
    apply round_ge_int. unfold counter_error in *. qlra. }
  destruct (add64_error cur dq) as (cur' & -> & Hlo' & Hhi').
  { qlra. }
  { assert (16777216 + 16777216 + 16777216 <= inject_Z (2 ^ 62)) by done.
    unfold counter_error in *. qlra. }
  assert (inject_Z (k + 1) * d == inject_Z k * d + d) as Ek.
  { rewrite inject_Z_plus. change (inject_Z 1) with 1. ring. }
  assert (inject_Z (k + 1) == inject_Z k + 1) as Ek1.
  { rewrite inject_Z_plus. reflexivity. }
  destruct (stride_multiple (k + 1) ltac:(lia)) as [_ Hkd'].
  destruct (IH (k + 1)%Z cur') as (l & -> & Hsorted & Hrange & Hlast);
    [lia|lia|unfold Float.u64, counter_error in *; qlra..|].
  cbn [mbind result_bind]. eexists. split; [done|].
  assert (Float.round_half_even cur < Float.round_half_even cur')%Z as Hlt.
  { apply round_step_gt. unfold Float.u64, counter_error in *. qlra. }
  split; [|split].
  - constructor; [done|]. eapply Forall_impl; [exact Hrange|]. simpl. intros; lia.
  - constructor; [lia|]. eapply Forall_impl; [exact Hrange|]. simpl. intros; lia.
  - intros _. rewrite last_cons, Hlast; done.
Qed.
End fractional_stride.

Lemma seq_sorted n : ∀ a, StronglySorted lt (seq a n).
Proof.
  induction n as [|n IH]; intros a; simpl; constructor; [done|].
  apply Forall_forall. intros j Hj. apply elem_of_seq in Hj. lia.
Qed.

Lemma StronglySorted_lt_NoDup (l : list Z) : StronglySorted Z.lt l → NoDup l.
Proof.
  induction 1 as [|x l _ IH Hx]; constructor; [|done].
  intros Hin. rewrite Forall_forall in Hx. specialize (Hx _ Hin). lia.
Qed.

(** One section of at most [2^24] indices: as many distinct, increasing
    indices as requested, all inside the section's span; the first one
    leads, and of two or more the last one is the section's last. *)
Lemma section_steps start size c :
  c ≤ size → size ≤ 2 ^ 24 →
  ∃ d l, frac_stride_of size c = Ok d
         ∧ take_steps (Z.to_nat c) start (Float.Fin 0) d = Ok l
         ∧ StronglySorted Z.lt l
         ∧ Forall (λ e, start ≤ e < start + size) l
         ∧ (2 ≤ c → last l = Some (start + size - 1)).
Proof.
  intros Hc Hsize. unfold frac_stride_of.
  destruct (Z.leb_spec c 1) as [Hc1|Hc2].
  { eexists. destruct (Z.le_gt_cases c 0) as [H0|H0].
    - exists []. replace (Z.to_nat c) with O by lia. repeat split; try constructor. lia.
    - replace c with 1 in * by lia. exists [start + 0]. split; [done|].
      split; [done|]. split; [repeat constructor|].
      split; [apply Forall_singleton; lia|lia]. }
  destruct (Z.eq_dec c size) as [->|Hne].
  - unfold Py.true_div. destruct (Z.eqb_spec (size - 1) 0) as [|_]; [lia|].
    destruct (round64_int (inject_Z (size - 1) / inject_Z (size - 1)) 1)
      as (d & -> & Hd); [|lia|].
    { field. change 0%Q with (inject_Z 0). rewrite inject_Z_injective. lia. }
    exists (Float.Fin d). eexists. split; [done|].
    split; [by apply (take_steps_unit_stride _ _ _ Hd 0); [|lia|lia]|].
    split; [|split].
    + apply StronglySorted_fmap with (R1 := lt); [intros ???; lia|]. apply seq_sorted.
    + apply Forall_fmap, Forall_forall. intros j Hj. apply elem_of_seq in Hj.
      simpl. lia.
    + intros _. destruct (Z.to_nat size) as [|n] eqn:En; [lia|].
      rewrite seq_S, fmap_app. cbn [fmap list_fmap]. rewrite last_snoc. f_equal. lia.
  - destruct (stride_rounded size c) as (dq & -> & Hdq1 & Hdq2); [lia..|].
    destruct (take_steps_fractional size c ltac:(lia) ltac:(lia) Hsize start dq Hdq1 Hdq2
                (Z.to_nat c) 0 0%Q) as (l & Hl & Hsorted & Hrange & Hlast);
      [lia|lia|done|done|done|].
    exists (Float.Fin dq), l. split; [done|]. split; [done|]. split; [done|].
    split.
    + eapply Forall_impl; [exact Hrange|]. simpl. change (Float.round_half_even 0) with 0.
      intros; lia.
    + intros _. apply Hlast. lia.
Qed.

Lemma section_size_le T (n : nat) i :
  n ≠ O → 0 ≤ i →
  section_size (T `div` Z.of_nat n) (T `mod` Z.of_nat n) i ≤ Z.max T 0.
Proof.
  intros Hn Hi. unfold section_size.
  pose proof (Z.mod_pos_bound T (Z.of_nat n) ltac:(lia)).
  pose proof (Z.div_mod T (Z.of_nat n) ltac:(lia)).
  destruct (Z.ltb_spec i (T `mod` Z.of_nat n)); nia.
Qed.

Lemma total_size_eq size_per extra k : ∀ i,
  total_size size_per extra i k
  = size_per * Z.of_nat k + Z.max 0 (Z.min (extra - i) (Z.of_nat k)).
Proof.
  induction k as [|k IH]; intros i; simpl total_size; [lia|].
  rewrite IH. unfold section_size. destruct (Z.ltb_spec i extra); lia.
Qed.

Lemma total_size_all T (n : nat) :
  n ≠ O →
  total_size (T `div` Z.of_nat n) (T `mod` Z.of_nat n) 0 n = T.
Proof.
  intros Hn. rewrite total_size_eq.
  pose proof (Z.mod_pos_bound T (Z.of_nat n)).
  pose proof (Z.div_mod T (Z.of_nat n)). lia.
Qed.

Lemma total_size_nonneg size_per extra k : ∀ i,
  (∀ j : nat, (j < k)%nat → 0 ≤ section_size size_per extra (i + Z.of_nat j)) →
  0 ≤ total_size size_per extra i k.
Proof.
  induction k as [|k IH]; intros i Hnn; simpl; [lia|].
  pose proof (Hnn O ltac:(lia)) as H0. rewrite Z.add_0_r in H0.
  assert (0 ≤ total_size size_per extra (i + 1) k); [|lia].
  apply IH. intros j Hj. specialize (Hnn (S j) ltac:(lia)).
  by replace (i + 1 + Z.of_nat j) with (i + Z.of_nat (S j)) by lia.
Qed.

Lemma sections_loop_ok size_per extra counts : ∀ i start all_steps,
  (∀ (j : nat) c, counts !! j = Some c →
                  0 ≤ c ≤ section_size size_per extra (i + Z.of_nat j)
                  ∧ section_size size_per extra (i + Z.of_nat j) ≤ 2 ^ 24) →
  ∃ l, sections_loop size_per extra i start all_steps counts = Ok (all_steps ++ l)
       ∧ Z.of_nat (length l) = Py.sum counts
       ∧ StronglySorted Z.lt l
       ∧ Forall (λ e, start ≤ e < start + total_size size_per extra i (length counts)) l.
Proof.
  induction counts as [|c counts IH]; intros i start all_steps Hvalid.
  { exists []. rewrite app_nil_r. repeat split; constructor. }
  assert (0 ≤ c ≤ section_size size_per extra i
          ∧ section_size size_per extra i ≤ 2 ^ 24) as [Hc Hsize].
  { specialize (Hvalid O c eq_refl). by rewrite Z.add_0_r in Hvalid. }
  cbn [sections_loop]. cbv zeta.
  destruct (Z.ltb_spec (section_size size_per extra i) c) as [|_]; [lia|].
  set (size := section_size size_per extra i) in *.
  destruct (section_steps start size c (proj2 Hc) Hsize)
    as (d & taken & -> & Htaken & Hsorted & Hrange & _).
  cbn [mbind result_bind]. rewrite Htaken. cbn [mbind result_bind].
  destruct (IH (i + 1) (start + size) (all_steps ++ taken)) as (l & -> & Hlen & Hs & Hr).
  { intros j c' Hj. specialize (Hvalid (S j) c' Hj).
    by replace (i + 1 + Z.of_nat j) with (i + Z.of_nat (S j)) by lia. }
  exists (taken ++ l). rewrite app_assoc. split; [done|].
  assert (0 ≤ total_size size_per extra (i + 1) (length counts)) as Hnn.
  { apply total_size_nonneg. intros j Hj.
    destruct (lookup_lt_is_Some_2 counts j Hj) as [c' Hc'].
    specialize (Hvalid (S j) c' Hc').
    replace (i + 1 + Z.of_nat j) with (i + Z.of_nat (S j)) by lia. lia. }
  split; [|split].
  - rewrite length_app, Nat2Z.inj_add, Hlen.
    rewrite (take_steps_length _ _ _ _ _ Htaken). simpl. lia.
  - apply StronglySorted_app_2; [|done|done].
    intros x1 x2 H1 H2. rewrite Forall_forall in Hrange, Hr.
    specialize (Hrange _ H1). specialize (Hr _ H2). simpl in Hrange. lia.
  - simpl length. simpl total_size. fold size. apply Forall_app. split.
    + eapply Forall_impl; [exact Hrange|]. simpl. intros; lia.
    + eapply Forall_impl; [exact Hr|]. simpl. intros; lia.
Qed.

Lemma sections_loop_raise size_per extra counts : ∀ i start all_steps,
  (∀ j : nat, (j < length counts)%nat →
              section_size size_per extra (i + Z.of_nat j) ≤ 2 ^ 24) →
  (∃ (j : nat) c, counts !! j = Some c
                  ∧ section_size size_per extra (i + Z.of_nat j) < c) →
  sections_loop size_per extra i start all_steps counts = Raise ValueError.
Proof.
  induction counts as [|c0 counts IH]; intros i start all_steps Hsmall (j & c & Hj & Hlt);
    [done|].
  cbn [sections_loop]. cbv zeta.
  destruct (Z.ltb_spec (section_size size_per extra i) c0) as [|Hge]; [done|].
  destruct j as [|j]; simpl in Hj.
  { injection Hj as ->. rewrite Z.add_0_r in Hlt. lia. }
  pose proof (Hsmall O ltac:(simpl; lia)) as Hs0. rewrite Z.add_0_r in Hs0.
  destruct (section_steps start _ c0 Hge Hs0) as (d & taken & -> & Htaken & _).
  cbn [mbind result_bind]. rewrite Htaken. cbn [mbind result_bind].
  apply IH.
  - intros j' Hj'. specialize (Hsmall (S j') ltac:(simpl; lia)).
    by replace (i + 1 + Z.of_nat j') with (i + Z.of_nat (S j')) by lia.
  - exists j, c. split; [done|].
    by replace (i + 1 + Z.of_nat j) with (i + Z.of_nat (S j)) by lia.
Qed.
End sections.

Section section_mode.
Local Open Scope Z_scope.
Import Respace.

Lemma space_timesteps_denotes T spec counts :
  denotes_counts spec counts → space_timesteps T spec = space_sections T counts.
Proof. intros [l|s l Hpre Hl]; simpl; [done|]. by rewrite Hpre, Hl. Qed.

(** C6, amended.  For [num_timesteps] up to [2^24] and a non-empty list of
    per-section counts: when every count is non-negative and at most its
    section size, the returned set has exactly [sum(section_counts)]
    elements, all in [0, num_timesteps); and as soon as some count exceeds
    its section size the call raises [ValueError].  The bound keeps the
    rounding errors of the float counter [cur_idx] below what would move a
    rounded index. *)
Theorem space_timesteps_sections (T : Z) (spec : section_spec) (counts : list Z) :
  denotes_counts spec counts →
  counts ≠ [] →
  T ≤ 2 ^ 24 →
  ((∀ (i : nat) c, counts !! i = Some c → 0 ≤ c ≤ size_of_section T counts i) →
   ∃ S : gset Z, space_timesteps T spec = Ok S
                 ∧ Z.of_nat (size S) = Py.sum counts
                 ∧ ∀ x, x ∈ S → 0 ≤ x < T)
  ∧ ((∃ (i : nat) c, counts !! i = Some c ∧ size_of_section T counts i < c) →
     space_timesteps T spec = Raise ValueError).
Proof.
  intros Hspec Hne HT. rewrite (space_timesteps_denotes _ _ _ Hspec).
  unfold space_sections, size_of_section.
  assert (length counts ≠ O) as Hlen by (by destruct counts).
  destruct (Z.eqb_spec (Z.of_nat (length counts)) 0) as [|_]; [lia|].
  assert (∀ j : nat, section_size (T `div` Z.of_nat (length counts))
                       (T `mod` Z.of_nat (length counts)) (0 + Z.of_nat j) ≤ 2 ^ 24)
    as Hsmall.
  { intros j. pose proof (section_size_le T _ (0 + Z.of_nat j) Hlen ltac:(lia)). lia. }
  split.
  - intros Hvalid.
    destruct (sections_loop_ok (T `div` Z.of_nat (length counts))
                (T `mod` Z.of_nat (length counts)) counts 0 0 [])
      as (l & -> & Hsum & Hsorted & Hrange).
    { intros j c Hj. split; [by apply Hvalid|apply Hsmall]. }
    rewrite total_size_all in Hrange by done. simpl.
    eexists. split; [done|]. split.
    + rewrite size_list_to_set; [done|]. by apply StronglySorted_lt_NoDup.
    + intros x Hx. apply elem_of_list_to_set in Hx.
      rewrite Forall_forall in Hrange. apply (Hrange _ Hx).
  - intros Hex. rewrite (sections_loop_raise _ _ counts 0 0 []); [done| |done].
    intros j _. apply Hsmall.
Qed.

Lemma space_timesteps_sections_witness :
  (∃ S : gset Z, space_timesteps 300 (SpecStr "10,15,20") = Ok S
                 ∧ Z.of_nat (size S) = 45
                 ∧ ∀ x, x ∈ S → 0 ≤ x < 300)
  ∧ space_timesteps 10 (SpecList [2; 7]) = Raise ValueError.
Proof.
  split.
  - apply (space_timesteps_sections 300 (SpecStr "10,15,20") [10; 15; 20]).
    + by constructor.
    + done.
    + done.
    + intros [|[|[|i]]] c Hc; simplify_eq/=; vm_compute; split; discriminate.
  - apply (space_timesteps_sections 10 (SpecList [2; 7]) [2; 7]).
    + constructor.
    + done.
    + done.
    + exists 1%nat, 7. split; [done|]. reflexivity.
Defined.

(** C6 as stated fails on counts that are at most their section sizes but
    negative, on the empty list, and on schedules too long for the float
    counter: [space_timesteps(10, [-1, 3])] returns [{5, 7, 9}], three
    indices for a sum of two; [space_timesteps(10, [])] divides by
    [len([])]; and [space_timesteps(2**53 + 4, [2])] returns
    [{0, 2**53 + 4}], whose second element is [num_timesteps] itself,
    because the stride [(2**53 + 3) / 1] rounds up to the next float. *)
Lemma space_timesteps_sections_counterexample :
  (∀ (i : nat) c, [-1; 3] !! i = Some c → c ≤ size_of_section 10 [-1; 3] i)
  ∧ space_timesteps 10 (SpecList [-1; 3]) = Ok (list_to_set [5; 7; 9])
  ∧ Z.of_nat (size (list_to_set [5; 7; 9] : gset Z)) ≠ Py.sum [-1; 3]
  ∧ space_timesteps 10 (SpecList []) = Raise ZeroDivisionError
  ∧ (∀ (i : nat) c, [2] !! i = Some c → 0 ≤ c ≤ size_of_section (2 ^ 53 + 4) [2] i)
  ∧ ∃ S : gset Z, space_timesteps (2 ^ 53 + 4) (SpecList [2]) = Ok S
                  ∧ 2 ^ 53 + 4 ∈ S.
Proof.
  split; [|split; [|split; [|split; [|split]]]].
  - intros [|[|i]] c Hc; simplify_eq/=; vm_compute; discriminate.
  - vm_compute. reflexivity.
  - vm_compute. discriminate.
  - reflexivity.
  - intros [|i] c Hc; simplify_eq/=. vm_compute. split; discriminate.
  - exists (list_to_set [0; 2 ^ 53 + 4]). split; [vm_compute; reflexivity|].
    apply elem_of_list_to_set. right. left.
Qed.

(** The float counter at work: of the 15 indices of the middle section of
    [space_timesteps(300, "10,15,20")] the eighth is 149, the counter
    having reached a float just below 49.5 where exact arithmetic reaches
    49.5 and would round to 50. *)
Example space_timesteps_300 :
  (λ S : gset Z, (bool_decide (149 ∈ S), bool_decide (150 ∈ S)))
    <$> space_timesteps 300 (SpecStr "10,15,20")
  = Ok (true, false).
Proof. vm_compute. reflexivity. Qed.
End section_mode.

(** ** The derived schedule *)

Section derived_schedule.
Local Open Scope Z_scope.
Import SpacedDiffusion.

Lemma respace_loop_retained use acp : ∀ i last new_betas tm,
  respace_loop use i acp last new_betas tm
  = (new_betas ++ new_betas_of last (retained_from use i acp).*2,
     tm ++ (retained_from use i acp).*1).
Proof.
  induction acp as [|a acp IH]; intros i last new_betas tm; simpl.
  { by rewrite !app_nil_r. }
  destruct (decide (i ∈ use)); rewrite IH; [|done].
  simpl. by rewrite <- !app_assoc.
Qed.

Lemma retained_from_lookup use acp : ∀ i k x a,
  retained_from use i acp !! k = Some (x, a) →
  i ≤ x ∧ x ∈ use ∧ acp !! Z.to_nat (x - i) = Some a.
Proof.
  induction acp as [|a0 acp IH]; intros i k x a Hk; simpl in Hk; [done|].
  assert (∀ k, retained_from use (i + 1) acp !! k = Some (x, a) →
               i ≤ x ∧ x ∈ use ∧ (a0 :: acp) !! Z.to_nat (x - i) = Some a) as Hrest.
  { intros k' Hk'. destruct (IH _ _ _ _ Hk') as (Hle & Hin & Ha).
    split; [lia|]. split; [done|].
    replace (Z.to_nat (x - i)) with (S (Z.to_nat (x - (i + 1)))) by lia. done. }
  destruct (decide (i ∈ use)) as [Hin|Hnin]; [|by eapply Hrest].
  destruct k as [|k]; [|by eapply Hrest].
  simpl in Hk. injection Hk as <- <-. rewrite Z.sub_diag. done.
Qed.

Lemma retained_from_elem use acp : ∀ i x,
  x ∈ (retained_from use i acp).*1 ↔ x ∈ use ∧ i ≤ x < i + Z.of_nat (length acp).
Proof.
  induction acp as [|a acp IH]; intros i x; cbn [retained_from length].
  { rewrite elem_of_nil. simpl. lia. }
  rewrite Nat2Z.inj_succ.
  destruct (decide (i ∈ use)) as [Hin|Hnin];
    cbn [fmap list_fmap fst]; rewrite ?elem_of_cons, IH.
  - split.
    + intros [->|[? ?]]; (split; [done|lia]).
    + intros [? ?]. destruct (decide (x = i)); [by left|right; split; [done|lia]].
  - split.
    + intros [? ?]. split; [done|lia].
    + intros [? ?]. split; [done|]. destruct (decide (x = i)) as [->|]; [done|lia].
Qed.

Lemma retained_from_sorted use acp : ∀ i,
  StronglySorted Z.lt (retained_from use i acp).*1.
Proof.
  induction acp as [|a acp IH]; intros i; simpl; [constructor|].
  destruct (decide (i ∈ use)); [|done]. simpl. constructor; [done|].
  apply Forall_forall. intros x Hx. apply retained_from_elem in Hx. lia.
Qed.

Lemma new_betas_of_length last l : length (new_betas_of last l) = length l.
Proof. revert last. induction l as [|a l IH]; intros last; simpl; [done|by rewrite IH]. Qed.

(** While no divisor is zero the loop computes the exact quotients. *)
Lemma new_betas_of_nonzero l : ∀ last,
  ¬ (last == 0)%Q → Forall (λ a, ¬ (a == 0)%Q) l →
  new_betas_of last l = Float.Fin <$> betas_of last l.
Proof.
  induction l as [|a l IH]; intros last Hlast Hnz; [done|].
  apply Forall_cons in Hnz as [Ha Hnz]. cbn [new_betas_of betas_of]. rewrite fmap_cons.
  rewrite (IH a Ha Hnz). f_equal. unfold new_beta.
  destruct (Qeq_bool last 0) eqn:E; [|done]. by apply Qeq_bool_eq in E.
Qed.

Lemma betas_of_length last l : length (betas_of last l) = length l.
Proof. revert last. induction l as [|a l IH]; intros last; simpl; [done|by rewrite IH]. Qed.

Lemma betas_of_lookup l : ∀ last (k : nat) a,
  l !! k = Some a →
  betas_of last l !! k
  = Some (1 - a / match k with O => last | S k' => default 0%Q (l !! k') end)%Q.
Proof.
  induction l as [|a0 l IH]; intros last k a Hk; [done|].
  destruct k as [|k]; simpl in *; [by injection Hk as ->|].
  rewrite (IH _ _ _ Hk). by destruct k.
Qed.

Lemma cumprod_betas_of l : ∀ acc last,
  (acc == last)%Q → ¬ (last == 0)%Q → Forall (λ a, ¬ (a == 0)%Q) l →
  Forall2 Qeq
    (GaussianDiffusion.cumprod_from acc ((λ beta, 1 - beta)%Q <$> betas_of last l)) l.
Proof.
  induction l as [|a l IH]; intros acc last Hacc Hlast Hnz; simpl; [constructor|].
  apply Forall_cons in Hnz as [Ha Hnz].
  assert (acc * (1 - (1 - a / last)) == a)%Q as E.
  { rewrite Hacc. field. done. }
  constructor; [done|]. by apply IH.
Qed.

(** The loop on any sequence of cumulative fractions that are non-zero at
    the retained indices: the increments are the exact quotients, and
    their running product gives the retained fractions back. *)
Lemma respace_exact (use : gset Z) (acp : list Q) :
  (∀ (i : nat) a, acp !! i = Some a → Z.of_nat i ∈ use → ¬ (a == 0)%Q) →
  ∃ new_betas : list Q,
    (respace use acp).1 = Float.Fin <$> new_betas
    ∧ length new_betas = length (respace use acp).2
    ∧ ∀ (k : nat) x, (respace use acp).2 !! k = Some x →
        ∃ a c, acp !! Z.to_nat x = Some a
               ∧ new_betas !! k
                 = Some (1 - a / last_retained acp (respace use acp).2 k)%Q
               ∧ GaussianDiffusion.alphas_cumprod new_betas !! k = Some c
               ∧ (c == a)%Q.
Proof.
  intros Hnz. unfold respace. rewrite respace_loop_retained. cbn [app fst snd].
  pose proof (retained_from_lookup use acp 0) as Hlook.
  set (ret := retained_from use 0 acp) in *.
  assert (Forall (λ a, ¬ (a == 0)%Q) ret.*2) as Hall.
  { apply Forall_forall. intros a' Ha'.
    apply list_elem_of_lookup in Ha' as [j Hj].
    apply list_lookup_fmap_Some in Hj as ([y b] & -> & Hj). simpl.
    destruct (Hlook _ _ _ Hj) as (Hy & Hyin & Hb). rewrite Z.sub_0_r in Hb.
    apply (Hnz _ _ Hb). by rewrite Z2Nat.id. }
  exists (betas_of 1 ret.*2).
  split; [by apply new_betas_of_nonzero|].
  split; [by rewrite betas_of_length, !length_fmap|].
  intros k x Hk. apply list_lookup_fmap_Some in Hk as ([x' a] & -> & Hk). simpl.
  destruct (Hlook _ _ _ Hk) as (Hx & Hin & Ha). rewrite Z.sub_0_r in Ha.
  assert (ret.*2 !! k = Some a) as Hk2.
  { by rewrite list_lookup_fmap, Hk. }
  pose proof (cumprod_betas_of ret.*2 1%Q 1%Q ltac:(reflexivity) ltac:(done) Hall) as Hcum.
  destruct (Forall2_lookup_r _ _ _ _ _ Hcum Hk2) as (c & Hc & Hca).
  exists a, c. split; [done|]. split; [|done].
  rewrite (betas_of_lookup _ _ _ _ Hk2). do 3 f_equal.
  destruct k as [|k]; [done|]. simpl.
  rewrite !list_lookup_fmap.
  destruct (ret !! k) as [[y b]|] eqn:Hy; simpl; [|done].
  destruct (Hlook _ _ _ Hy) as (_ & _ & Hb). rewrite Z.sub_0_r in Hb. by rewrite Hb.
Qed.

Lemma init_respace use betas rescale :
  let self := init use betas rescale in
  (SpacedDiffusion.betas self, timestep_map self)
  = respace (list_to_set use) (GaussianDiffusion.alphas_cumprod betas)
  ∧ original_num_steps self = Z.of_nat (length betas).
Proof. unfold init. by destruct (respace _ _). Qed.

(** C2, amended.  Whenever the cumulative fractions at the retained indices
    are non-zero, the process that [SpacedDiffusion.__init__] builds has
    these fields: [timestep_map] lists, in increasing order, the retained
    indices of the schedule; the [betas] handed to the base constructor are
    finite, one per retained index, each equal to one minus the quotient of
    the cumulative fraction there by the one retained last; and, in exact
    arithmetic, the running product of [1 - betas] is, at every position
    [k], the original cumulative fraction at index [timestep_map[k]]. *)
Theorem respace_round_trip (use : list Z) (kw_betas : list Q) (rescale : bool) :
  let acp := GaussianDiffusion.alphas_cumprod kw_betas in
  (∀ (i : nat) a, acp !! i = Some a → Z.of_nat i ∈ use → ¬ (a == 0)%Q) →
  let self := init use kw_betas rescale in
  let tm := timestep_map self in
  StronglySorted Z.lt tm
  ∧ (∀ x, x ∈ tm ↔ x ∈ use ∧ 0 ≤ x < Z.of_nat (length acp))
  ∧ ∃ new_betas : list Q,
      betas self = Float.Fin <$> new_betas
      ∧ length new_betas = length tm
      ∧ ∀ (k : nat) x, tm !! k = Some x →
          ∃ a c, acp !! Z.to_nat x = Some a
                 ∧ new_betas !! k = Some (1 - a / last_retained acp tm k)%Q
                 ∧ GaussianDiffusion.alphas_cumprod new_betas !! k = Some c
                 ∧ (c == a)%Q.
Proof.
  intros acp Hnz self tm.
  destruct (init_respace use kw_betas rescale) as [Hfields _].
  fold self acp in Hfields.
  assert (betas self = (respace (list_to_set use) acp).1
          ∧ tm = (respace (list_to_set use) acp).2) as [Hb Htm].
  { by rewrite <- Hfields. }
  rewrite Hb, Htm. split; [|split].
  - unfold respace. rewrite respace_loop_retained. apply retained_from_sorted.
  - intros x. unfold respace. rewrite respace_loop_retained. cbn [app snd].
    rewrite retained_from_elem, elem_of_list_to_set, Z.add_0_l. tauto.
  - apply respace_exact. intros i a Ha Hi. apply (Hnz i a Ha).
    by apply elem_of_list_to_set in Hi.
Qed.

Example respace_every_other :
  respace {[0; 2]} [1 # 2; 1 # 4; 1 # 8]%Q
  = (Float.Fin <$> [1 - (1 # 2) / 1; 1 - (1 # 8) / (1 # 2)]%Q, [0; 2]).
Proof. reflexivity. Qed.

Lemma respace_round_trip_witness :
  let self := init [0; 2] [1 # 2; 1 # 2; 1 # 2]%Q false in
  timestep_map self = [0; 2]
  ∧ ∃ new_betas : list Q,
      betas self = Float.Fin <$> new_betas
      ∧ ∃ c, GaussianDiffusion.alphas_cumprod new_betas !! 1%nat = Some c
             ∧ (c == 1 # 8)%Q.
Proof.
  intros self. split; [reflexivity|].
  destruct (respace_round_trip [0; 2] [1 # 2; 1 # 2; 1 # 2]%Q false)
    as (_ & _ & new_betas & Hb & _ & Hk).
  { intros [|[|[|i]]] a Ha _; simplify_eq/=; discriminate. }
  exists new_betas. split; [exact Hb|].
  destruct (Hk 1%nat 2 eq_refl) as (a & c & Ha & _ & Hc & Hca).
  exists c. split; [exact Hc|]. cbv in Ha. injection Ha as <-. exact Hca.
Defined.

(** C2 as stated, for every sequence of cumulative fractions, fails once a
    retained fraction is zero: on the schedule [0.5, 1.0, 0.5] the
    fractions are [0.5, 0, 0], the last increment is [1 - 0 / 0], which is
    [nan], and no product with it gives the fraction [0] back. *)
Lemma respace_round_trip_counterexample :
  let self := init [0; 1; 2] [1 # 2; 1; 1 # 2]%Q false in
  GaussianDiffusion.alphas_cumprod [1 # 2; 1; 1 # 2]%Q !! 2%nat = Some (0 # 4)%Q
  ∧ timestep_map self = [0; 1; 2]
  ∧ betas self !! 2%nat = Some Float.NaN
  ∧ ¬ ∃ new_betas : list Q, betas self = Float.Fin <$> new_betas.
Proof.
  intros self. split; [reflexivity|]. split; [reflexivity|]. split; [reflexivity|].
  intros [new_betas Hb].
  assert (betas self !! 2%nat = Some Float.NaN) as H2 by reflexivity.
  rewrite Hb, list_lookup_fmap in H2. by destruct (new_betas !! 2%nat).
Qed.
End derived_schedule.

(** ** The model timestep adapter *)

Section adapter.
Import WrappedModel.
Context {X Y : Type}.
Implicit Types (m : model X Y) (self : SpacedDiffusion.t).

Lemma _wrap_model_wrapped self m : ∃ inner tm rescale n,
  _wrap_model self m = Wrapped inner tm rescale n.
Proof. destruct m; simpl; eauto. Qed.

(** C9.  Wrapping a wrapped model returns it unchanged, so a model wrapped
    twice answers every call as the model wrapped once; on a raw denoiser
    the timesteps are translated through [timestep_map] (and rescaled when
    configured) exactly once before the denoiser is called. *)
Theorem _wrap_model_idempotent self m :
  _wrap_model self (_wrap_model self m) = _wrap_model self m
  ∧ (∀ x ts, call (_wrap_model self (_wrap_model self m)) x ts
             = call (_wrap_model self m) x ts)
  ∧ (∀ (f : X → timesteps → result Y) x ts,
       call (_wrap_model self (_wrap_model self (Raw f))) x ts
               = new_ts ← translate (SpacedDiffusion.timestep_map self)
                            (SpacedDiffusion.rescale_timesteps self)
                            (SpacedDiffusion.original_num_steps self) ts;
                 f x new_ts).
Proof.
  assert (_wrap_model self (_wrap_model self m) = _wrap_model self m) as E
    by (by destruct m).
  split; [done|]. split; [by rewrite E|done].
Qed.
End adapter.

Example translate_rescaled :
  WrappedModel.translate [0; 20; 40]%Z true 100 (WrappedModel.IntTs [2; 0; -1]%Z)
  = Ok (WrappedModel.FloatTs [40 * (1000 / 100); 0 * (1000 / 100); 40 * (1000 / 100)]%Q).
Proof. reflexivity. Qed.

Example translate_out_of_range :
  WrappedModel.translate [0; 20; 40]%Z false 100 (WrappedModel.IntTs [3]%Z)
  = Raise IndexError.
Proof. reflexivity. Qed.

(** ** Tensor arithmetic *)

Section tensor_facts.
Import Tensor.

Lemma numel_app s1 s2 : numel (s1 ++ s2) = (numel s1 * numel s2)%nat.
Proof. induction s1 as [|a s1 IH]; simpl; [lia|]. unfold numel in *. rewrite IH. lia. Qed.

Lemma numel_rev s : numel (rev s) = numel s.
Proof.
  induction s as [|a s IH]; [done|]. simpl rev. rewrite numel_app, IH. simpl. lia.
Qed.

Lemma src_index_rev_same s : ∀ k, (k < numel s)%nat → src_index_rev s s k = k.
Proof.
  induction s as [|a s IH]; intros k Hk; simpl in *; [lia|].
  rewrite IH by (apply Nat.Div0.div_lt_upper_bound; lia).
  destruct (Nat.eqb_spec a 1) as [->|_].
  - pose proof (Nat.div_mod_eq k 1). rewrite Nat.mod_1_r in *. lia.
  - pose proof (Nat.div_mod_eq k a). lia.
Qed.

Lemma expand_same s d : length d = numel s → expand s s d = d.
Proof.
  intros Hl. unfold expand. apply list_eq. intros i. rewrite list_lookup_fmap.
  destruct (decide (i < numel s)%nat) as [Hi|Hi].
  - rewrite lookup_seq_lt by done. simpl.
    rewrite src_index_rev_same by (by rewrite numel_rev).
    rewrite nth_lookup. destruct (d !! i) eqn:E; [done|].
    apply lookup_ge_None in E. lia.
  - rewrite lookup_seq_ge by lia. simpl. symmetry. apply lookup_ge_None. lia.
Qed.

Lemma length_expand src tgt d : length (expand src tgt d) = numel tgt.
Proof. unfold expand. by rewrite length_fmap, length_seq. Qed.

Lemma broadcast_rev_same s : broadcast_rev s s = Some s.
Proof.
  induction s as [|a s IH]; [done|]. simpl. by rewrite Nat.eqb_refl, IH.
Qed.

Lemma broadcast_shapes_same s : broadcast_shapes s s = Some s.
Proof. unfold broadcast_shapes. rewrite broadcast_rev_same. simpl. by rewrite rev_involutive. Qed.

(** On well-formed tensors of one shape the operator acts entry by entry. *)
Lemma binop_same f a b :
  shape a = shape b → wf a → wf b →
  binop f a b = Ok (mk (shape a) (zip_with f (data a) (data b))).
Proof.
  intros Hs Ha Hb. unfold binop. rewrite <- Hs, broadcast_shapes_same.
  rewrite !expand_same; [done|by rewrite Hs|done].
Qed.

Lemma broadcast_rev_length a : ∀ b s,
  broadcast_rev a b = Some s → length s = (length a `max` length b)%nat.
Proof.
  induction a as [|x a IH]; intros b s Hs; simpl in Hs.
  { by injection Hs as <-. }
  destruct b as [|y b]; [injection Hs as <-; simpl; lia|].
  assert (∀ z, cons z <$> broadcast_rev a b = Some s →
               length s = (length (x :: a) `max` length (y :: b))%nat) as Hc.
  { intros z Hz. destruct (broadcast_rev a b) as [s'|] eqn:E; [|done].
    injection Hz as <-. simpl. by rewrite (IH _ _ E). }
  repeat case_match; eauto; done.
Qed.

Lemma broadcast_rev_snoc1 a : ∀ b,
  broadcast_rev a (b ++ [1%nat])
  = (λ s, if decide (length b < length a)%nat then s else s ++ [1%nat])
      <$> broadcast_rev a b.
Proof.
  induction a as [|x a IH]; intros b; [done|].
  destruct b as [|y b].
  - cbn [app broadcast_rev].
    assert (broadcast_rev a [] = Some a) as -> by (by destruct a).
    cbn [fmap option_fmap option_map length].
    destruct (decide (0 < S (length a))%nat); [|lia]. by repeat case_match.
  - cbn [app broadcast_rev length]. rewrite IH.
    destruct (broadcast_rev a b) as [s|]; cbn [fmap option_fmap option_map];
      [|by repeat case_match].
    destruct (decide (length b < length a)%nat);
      destruct (decide (S (length b) < S (length a))%nat); try lia;
      by repeat case_match.
Qed.

Lemma src_index_rev_tgt_snoc src : ∀ tgt x k,
  (length src ≤ length tgt)%nat →
  src_index_rev src (tgt ++ [x]) k = src_index_rev src tgt k.
Proof.
  induction src as [|a src IH]; intros tgt x k Hl; [done|].
  destruct tgt as [|b tgt]; simpl in *; [lia|]. rewrite IH by lia. done.
Qed.

Lemma src_index_rev_src_snoc1 src : ∀ tgt k,
  src_index_rev (src ++ [1%nat]) tgt k = src_index_rev src tgt k.
Proof.
  induction src as [|a src IH]; intros tgt k; simpl.
  - destruct tgt; simpl; [done|]. by destruct tgt.
  - destruct tgt as [|b tgt]; [done|]. by rewrite IH.
Qed.

(** A leading dimension of extent one on the right operand changes neither
    whether the operator is defined nor the entries it produces. *)
Lemma binop_unsqueeze0_r f a m :
  match binop f a m with
  | Ok r => ∃ r', binop f a (unsqueeze0 m) = Ok r' ∧ data r' = data r
  | Raise e => binop f a (unsqueeze0 m) = Raise e
  end.
Proof.
  unfold binop, broadcast_shapes, unsqueeze0. simpl shape. simpl data.
  simpl rev. rewrite broadcast_rev_snoc1.
  destruct (broadcast_rev (rev (shape a)) (rev (shape m))) as [s|] eqn:Hs; simpl; [|done].
  pose proof (broadcast_rev_length _ _ _ Hs) as Hlen.
  eexists. split; [done|]. simpl. unfold expand.
  destruct (decide _) as [Hlt|Hge].
  - f_equal. apply list_fmap_ext. intros _ k _. simpl.
    by rewrite src_index_rev_src_snoc1.
  - rewrite rev_app_distr. simpl rev. simpl numel. rewrite Nat.add_0_r.
    f_equal; apply list_fmap_ext; intros _ k _; simpl; rewrite !rev_involutive.
    + rewrite src_index_rev_tgt_snoc; [done|lia].
    + rewrite src_index_rev_src_snoc1. rewrite src_index_rev_tgt_snoc; [done|lia].
Qed.
End tensor_facts.

(** ** Measurement losses and the posterior gradient step *)

Section loss_facts.
Import Tensor.
Local Open Scope R_scope.

Lemma sum_list_cons v l : sum_list (v :: l) = v + sum_list l.
Proof. done. Qed.

Lemma sum_list_nonneg l : Forall (λ v, 0 <= v) l → 0 <= sum_list l.
Proof. induction 1; rewrite ?sum_list_cons; [apply Rle_refl|rlra]. Qed.

Lemma sum_sq_nonneg d : 0 <= sum_list (sq <$> d).
Proof.
  apply sum_list_nonneg, Forall_fmap, Forall_forall. intros v _.
  apply (Rle_0_sqr v).
Qed.

Lemma sum_sq_zero d : sum_list (sq <$> d) <= 0 → Forall (λ v, v = 0) d.
Proof.
  induction d as [|v d IH]; intros Hs; [constructor|].
  rewrite fmap_cons, sum_list_cons in Hs.
  pose proof (sum_sq_nonneg d) as Hd. pose proof (Rle_0_sqr v) as Hv.
  unfold sq in Hs at 1. unfold Rsqr in Hv.
  constructor; [|apply IH; rlra].
  assert (v * v = 0) as E by rlra. by destruct (Rmult_integral _ _ E).
Qed.

Lemma weighted_sq_zero d : ∀ W,
  Forall (λ v, v = 0) d → sum_list (zip_with Rmult (zip_with Rmult W d) d) = 0.
Proof.
  induction d as [|v d IH]; intros W Hd; destruct W as [|w W]; try done.
  apply Forall_cons in Hd as [-> Hd]. cbn [zip_with]. rewrite sum_list_cons, IH by done.
  rlra.
Qed.

Lemma weighted_sq_nonneg d : ∀ W,
  Forall (λ w, 0 <= w) W → 0 <= sum_list (zip_with Rmult (zip_with Rmult W d) d).
Proof.
  induction d as [|v d IH]; intros W HW; destruct HW as [|w W Hw HW];
    try apply Rle_refl.
  cbn [zip_with]. rewrite sum_list_cons. specialize (IH _ HW).
  pose proof (Rle_0_sqr v) as Hv. unfold Rsqr in Hv.
  assert (0 <= w * (v * v)) by (by apply Rmult_le_pos). rlra.
Qed.

Lemma sum_sq_abs d : sum_list (sq <$> (Rabs <$> d)) = sum_list (sq <$> d).
Proof.
  induction d as [|v d IH]; [done|]. rewrite !fmap_cons, !sum_list_cons, IH. f_equal.
  unfold sq. rewrite <- Rabs_mult. apply Rabs_right, Rle_ge, (Rle_0_sqr v).
Qed.

Lemma norm_abs t : norm (abs t) = sqrt (sum_list (sq <$> data t)).
Proof. unfold norm, abs, map. simpl. f_equal. apply sum_sq_abs. Qed.

Lemma length_binop_data f a b r : binop f a b = Ok r → length (data r) = numel (shape r).
Proof.
  unfold binop. destruct (broadcast_shapes _ _) as [s|]; [|done].
  intros [= <-]. simpl. rewrite length_zip_with, !length_expand. lia.
Qed.

Lemma expand_weights_nonneg s (f : R → R) (d : list R) :
  (∀ v, 0 <= f v) → Forall (λ w, 0 <= w) (expand s s (f <$> d)).
Proof.
  intros Hf. unfold expand. apply Forall_fmap, Forall_forall. intros k _. simpl.
  rewrite nth_lookup, list_lookup_fmap. destruct (d !! _); simpl; [apply Hf|rlra].
Qed.

(** Either loss is a sum of non-negative terms over the entries of the
    difference, positive only if some entry of the difference is
    non-zero. *)
Lemma loss_sign k a b l :
  Loss.call k a b = Ok l →
  ∃ diff, Tensor.sub a b = Ok diff
          ∧ 0 <= l
          ∧ (0 < l → 0 < sum_list (sq <$> data diff)).
Proof.
  destruct k; simpl.
  - unfold Loss.MSELoss_sum. destruct (Tensor.sub a b) as [diff|] eqn:Hd; [|done].
    simpl. intros [= <-]. exists diff. split; [done|].
    unfold Tensor.sum, Tensor.map. simpl. fold sq. split; [apply sum_sq_nonneg|done].
  - unfold Loss.PoissonMseLoss_forward. destruct (decide _) as [Hs|]; [|done].
    destruct (Tensor.sub a b) as [diff|] eqn:Hd; [|done]. simpl.
    pose proof (length_binop_data _ _ _ _ Hd) as Hlen.
    assert (shape diff = shape b) as Hsd.
    { unfold sub, binop in Hd. rewrite Hs, broadcast_shapes_same in Hd.
      by injection Hd as <-. }
    unfold mul at 2. unfold binop. simpl shape. rewrite <- Hsd, broadcast_shapes_same.
    rewrite (expand_same _ (data diff)) by done. simpl.
    unfold mul, binop. simpl shape. rewrite broadcast_shapes_same.
    rewrite (expand_same _ (data diff)) by done.
    cbn [data].
    rewrite expand_same by (rewrite length_zip_with, length_expand; lia).
    simpl. intros [= <-]. exists diff. split; [done|]. unfold Tensor.sum. simpl. split.
    + apply weighted_sq_nonneg.
      apply (expand_weights_nonneg _ (λ v, 1 / (2 * Rmax (Rabs v) (1 / 100)))).
      intros v. pose proof (Rmax_r (Rabs v) (1 / 100)).
      apply Rlt_le, Rdiv_lt_0_compat; rlra.
    + intros Hl. destruct (Rlt_dec 0 (sum_list (sq <$> data diff))) as [|Hn]; [done|].
      rewrite weighted_sq_zero in Hl; [rlra|]. apply sum_sq_zero. rlra.
Qed.
End loss_facts.

Section posterior_gradient_step.
Import Tensor DiffusionPosteriorSampling.
Local Open Scope R_scope.
Context (autograd_grad : tensor → list Z → tensor → result tensor).

(** The residual of line 198 is taken against [self.measurement] itself,
    the loss against its 4-D form: the entries agree. *)
Lemma residual_of_diff a m diff :
  Tensor.sub a (to_4d m) = Ok diff →
  ∃ residual, Tensor.sub a m = Ok residual ∧ data residual = data diff.
Proof.
  unfold to_4d. destruct (decide _); [|eauto]. intros Hd.
  pose proof (binop_unsqueeze0_r Rminus a m) as H. unfold Tensor.sub in *.
  destruct (binop Rminus a m) as [r|e].
  - destruct H as (r' & Hr & E). rewrite Hr in Hd. injection Hd as <-. eauto.
  - congruence.
Qed.

(** C1.  Once the measurement operator, the loss and the gradient have
    returned: the loss is non-negative; when it is strictly positive, the
    residual norm is strictly positive and the step returns
    [x_old - (step_size / norm(|y_pred - y|)) * grad]; when it is exactly
    zero, which is the case whenever the residual norm is zero, the step
    returns [x_old - step_size * grad]. *)
Theorem dps_update_step (self : DiffusionPosteriorSampling.t)
    (x : tensor) (t : list Z) (x0 x_old y grad : tensor) (l : R) :
  measurement_model self x0 = Ok y →
  Loss.call (measurement_loss self) (to_4d y) (to_4d (measurement self)) = Ok l →
  autograd_grad x t x0 = Ok grad →
  ∃ residual,
    Tensor.sub (to_4d y) (measurement self) = Ok residual
    ∧ 0 <= l
    ∧ (0 < l →
       0 < norm (abs residual)
       ∧ dps_update autograd_grad self x t x0 x_old
         = Tensor.sub x_old (scale (step_size self / norm (abs residual)) grad))
    ∧ (l = 0 →
       dps_update autograd_grad self x t x0 x_old
       = Tensor.sub x_old (scale (step_size self) grad))
    ∧ (norm (abs residual) = 0 → l = 0).
Proof.
  intros Hy Hl Hg.
  destruct (loss_sign _ _ _ _ Hl) as (diff & Hdiff & Hnn & Hpos).
  destruct (residual_of_diff _ _ _ Hdiff) as (residual & Hres & Edata).
  exists residual. split; [done|]. split; [done|].
  rewrite norm_abs, Edata.
  unfold dps_update. rewrite Hy. cbn [mbind result_bind]. rewrite Hl, Hg.
  cbn [mbind result_bind]. split; [|split].
  - intros Hlt. split; [by apply sqrt_lt_R0, Hpos|].
    destruct (Rlt_dec 0 l) as [_|]; [|done]. rewrite Hres. cbn [mbind result_bind].
    rewrite norm_abs, Edata. by destruct (Tensor.sub x_old _).
  - intros ->. destruct (Rlt_dec 0 0) as [Hlt|_]; [rlra|].
    cbn [mbind result_bind]. by destruct (Tensor.sub x_old _).
  - intros Hz. apply sqrt_eq_0 in Hz; [|apply sum_sq_nonneg].
    destruct (Rlt_dec 0 l) as [Hlt|]; [|rlra]. specialize (Hpos Hlt). rlra.
Qed.
End posterior_gradient_step.

Section posterior_gradient_step_example.
Import Tensor DiffusionPosteriorSampling.
Local Open Scope R_scope.

Lemma dps_update_step_witness :
  ∃ residual,
    Tensor.sub (pixel 3) (pixel 0) = Ok residual
    ∧ 0 <= (3 - 0) * (3 - 0) + 0
    ∧ (0 < (3 - 0) * (3 - 0) + 0 →
       0 < norm (abs residual)
       ∧ dps_update (λ x _ _, Ok x) (identity_sampler Loss.MSELoss (pixel 0))
           (pixel 2) [1%Z] (pixel 3) (pixel 5)
         = Tensor.sub (pixel 5) (scale (1 / norm (abs residual)) (pixel 2)))
    ∧ ((3 - 0) * (3 - 0) + 0 = 0 →
       dps_update (λ x _ _, Ok x) (identity_sampler Loss.MSELoss (pixel 0))
         (pixel 2) [1%Z] (pixel 3) (pixel 5)
       = Tensor.sub (pixel 5) (scale 1 (pixel 2)))
    ∧ (norm (abs residual) = 0 → (3 - 0) * (3 - 0) + 0 = 0).
Proof.
  apply (dps_update_step (λ x _ _, Ok x) (identity_sampler Loss.MSELoss (pixel 0))
           (pixel 2) [1%Z] (pixel 3) (pixel 5) (pixel 3) (pixel 2));
    reflexivity.
Defined.
End posterior_gradient_step_example.

(** ** Shape checks of the two losses *)

Section loss_shapes.
Import Tensor.
Local Open Scope R_scope.

Lemma poisson_rejects_mismatch (x y : tensor) :
  shape x ≠ shape y → Loss.call Loss.PoissonMseLoss x y = Raise AssertionError.
Proof. intros Hs. simpl. unfold Loss.PoissonMseLoss_forward. by rewrite decide_False. Qed.

Lemma gaussian_rejects_incompatible (x y : tensor) :
  broadcast_shapes (shape x) (shape y) = None →
  Loss.call Loss.MSELoss x y = Raise RuntimeError.
Proof.
  intros Hs. simpl. unfold Loss.MSELoss_sum, Tensor.sub, binop. by rewrite Hs.
Qed.

Lemma gaussian_accepts_compatible (x y : tensor) s :
  broadcast_shapes (shape x) (shape y) = Some s →
  is_Ok (Loss.call Loss.MSELoss x y).
Proof.
  intros Hs. simpl. unfold Loss.MSELoss_sum, Tensor.sub, binop. rewrite Hs.
  by eexists.
Qed.

(** C7 at a prediction of shape [(1, 1, 1, 2)] against an observation of
    shape [(1, 1, 1, 1)]: the Poisson loss stops at its assertion, the
    Gaussian loss broadcasts the observation and returns a value. *)
Theorem gaussian_loss_broadcasts :
  let pred := Tensor.mk [1; 1; 1; 2]%nat [1; 2] in
  let obs := Tensor.mk [1; 1; 1; 1]%nat [0] in
  shape pred ≠ shape obs
  ∧ Loss.call Loss.PoissonMseLoss pred obs = Raise AssertionError
  ∧ Loss.call Loss.MSELoss pred obs = Ok ((1 - 0) * (1 - 0) + ((2 - 0) * (2 - 0) + 0)).
Proof. split; [discriminate|]. split; reflexivity. Qed.
End loss_shapes.

(** ** Construction with an unknown noise model *)

Section construction.
Local Open Scope R_scope.

(** C8.  With a noise-model name other than ["gaussian"] and ["poisson"],
    creating either sampler raises: the ancestral sampler's [__init__]
    returns an object other than [None], which instance creation turns into
    a [TypeError]; the multistep sampler's [__init__] raises
    [NotImplementedError] (or whatever its base constructor raised before).
    No instance, hence no default loss, results. *)
Theorem unknown_noise_model_fails (noise_model : string) :
  noise_model ≠ "gaussian" → noise_model ≠ "poisson" →
  (∀ use_timesteps measurement_model measurement step_size betas rescale,
     DiffusionPosteriorSampling.new use_timesteps measurement_model measurement
       noise_model step_size betas rescale = Raise TypeError)
  ∧ (∀ (Solver : Type) (super_init : result Solver) measurement_model measurement step_size,
       DPMDiffusionPosteriorSampling.new super_init measurement_model measurement
         noise_model step_size
       = match super_init with
         | Ok _ => Raise NotImplementedError
         | Raise e => Raise e
         end).
Proof.
  intros Hg Hp.
  apply String.eqb_neq in Hg. apply String.eqb_neq in Hp. split.
  - intros. unfold DiffusionPosteriorSampling.new, DiffusionPosteriorSampling.__init__.
    by rewrite Hg, Hp.
  - intros Solver [solver|e] ???; [|done].
    unfold DPMDiffusionPosteriorSampling.new, DPMDiffusionPosteriorSampling.__init__.
    simpl. by rewrite Hg, Hp.
Qed.

Lemma unknown_noise_model_fails_witness :
  DiffusionPosteriorSampling.new [0; 1]%Z Ok (Tensor.mk [1; 1; 1; 1]%nat [0]) "laplace" 1
    [1 # 2; 1 # 2]%Q false = Raise TypeError
  ∧ DPMDiffusionPosteriorSampling.new (Ok tt) Ok (Tensor.mk [1; 1; 1; 1]%nat [0])
      "laplace" 1 = Raise NotImplementedError.
Proof.
  destruct (unknown_noise_model_fails "laplace") as [Ha Hd]; [done|done|].
  split; [apply Ha|apply (Hd unit (Ok tt))].
Defined.

Example known_noise_models :
  is_Ok (DiffusionPosteriorSampling.new [0; 1]%Z Ok (Tensor.mk [1; 1; 1; 1]%nat [0])
           "gaussian" 1 [1 # 2; 1 # 2]%Q false)
  ∧ is_Ok (DPMDiffusionPosteriorSampling.new (Ok tt) Ok (Tensor.mk [1; 1; 1; 1]%nat [0])
             "poisson" 1).
Proof. split; eexists; reflexivity. Qed.
End construction.

(** ** The ancestral sampler *)

Section ancestral_proposal.
Import Tensor DiffusionPosteriorSampling.
Local Open Scope R_scope.

Lemma replicate_rev {A} n (x : A) : rev (replicate n x) = replicate n x.
Proof.
  induction n as [|n IH]; [done|]. simpl. rewrite IH.
  clear IH. induction n as [|n IH]; [done|]. simpl. by rewrite IH.
Qed.

Lemma broadcast_rev_ones B : ∀ rest,
  broadcast_rev (replicate (length rest) 1%nat ++ [B]) (rest ++ [B]) = Some (rest ++ [B]).
Proof.
  induction rest as [|r rest IH]; cbn [length replicate app broadcast_rev].
  - by rewrite Nat.eqb_refl.
  - rewrite IH. by destruct r as [|[|r]].
Qed.

Lemma src_index_rev_ones B : ∀ rest k,
  src_index_rev (replicate (length rest) 1%nat ++ [B]) (rest ++ [B]) k
  = (if (B =? 1)%nat then 0 else (k / numel rest) mod B)%nat.
Proof.
  induction rest as [|r rest IH]; intros k; cbn [length replicate app src_index_rev].
  - change (numel []) with 1%nat. rewrite Nat.div_1_r. destruct (B =? 1)%nat; lia.
  - rewrite IH, Nat.Div0.div_div. change (numel (r :: rest)) with (r * numel rest)%nat.
    rewrite Nat.eqb_refl. destruct (B =? 1)%nat; lia.
Qed.

(** The batch mask, expanded over a batch of [B] signals of shape [rest],
    supplies at each position the mask entry of the signal it belongs
    to. *)
Lemma expand_mask B rest (m : list R) (k : nat) :
  (k < B * numel rest)%nat →
  expand (B :: replicate (length rest) 1%nat) (B :: rest) m !! k
  = Some (nth (k / numel rest) m 0).
Proof.
  intros Hk. unfold expand. rewrite list_lookup_fmap, lookup_seq_lt by done.
  simpl. rewrite replicate_rev.
  replace (length rest) with (length (rev rest)) by apply length_rev.
  rewrite src_index_rev_ones, numel_rev.
  assert (k / numel rest < B)%nat as Hb by (apply Nat.Div0.div_lt_upper_bound; lia).
  destruct (Nat.eqb_spec B 1) as [->|_].
  - by replace (k / numel rest)%nat with 0%nat by lia.
  - by rewrite Nat.mod_small.
Qed.

Lemma broadcast_shapes_mask B rest :
  broadcast_shapes (B :: replicate (length rest) 1%nat) (B :: rest) = Some (B :: rest).
Proof.
  unfold broadcast_shapes. simpl. rewrite replicate_rev.
  replace (length rest) with (length (rev rest)) by apply length_rev.
  rewrite broadcast_rev_ones. simpl. by rewrite rev_app_distr, rev_involutive.
Qed.

Lemma mul_mask B rest (m : list R) (E : tensor) :
  shape E = B :: rest → wf E →
  Tensor.mul (Tensor.mk (B :: replicate (length rest) 1%nat) m) E
  = Ok (Tensor.mk (B :: rest)
          (zip_with Rmult (expand (B :: replicate (length rest) 1%nat) (B :: rest) m)
             (data E))).
Proof.
  intros HE WE. unfold Tensor.mul, binop. cbn [shape data].
  rewrite HE, broadcast_shapes_mask. by rewrite (expand_same _ (data E)) by (by rewrite <- HE).
Qed.

(** The prior-only proposal, entry by entry: signal [b] of the batch gets
    [exp(0.5 * log_variance) * noise] added to its mean when its timestep is
    non-zero, and is its mean when its timestep is zero. *)
Lemma ancestral_proposal_entries (out : moments) (x noise : tensor) (t : list Z)
    (B : nat) (rest : list nat) :
  shape x = B :: rest → length t = B →
  shape (mean out) = B :: rest → wf (mean out) →
  shape (log_variance out) = B :: rest → wf (log_variance out) →
  shape noise = B :: rest → wf noise →
  ∃ s, ancestral_proposal out (nonzero_mask x t) noise = Ok s
       ∧ shape s = B :: rest
       ∧ ∀ (b j : nat) ti m lv n,
           t !! b = Some ti → (j < numel rest)%nat →
           data (mean out) !! (b * numel rest + j)%nat = Some m →
           data (log_variance out) !! (b * numel rest + j)%nat = Some lv →
           data noise !! (b * numel rest + j)%nat = Some n →
           data s !! (b * numel rest + j)%nat
           = Some (if decide (ti ≠ 0%Z) then m + Rtrigo_def.exp (1 / 2 * lv) * n else m).
Proof.
  intros Hx Ht Hm Wm Hlv Wlv Hn Wn.
  unfold ancestral_proposal, nonzero_mask. rewrite Hx. cbn [length].
  rewrite ?Nat.sub_0_r, Ht.
  remember ((λ ti : Z, if decide (ti ≠ 0%Z) then 1 else 0) <$> t) as maskd eqn:Hmaskd.
  remember (Tensor.exp (scale (1 / 2) (log_variance out))) as E eqn:HeqE.
  assert (shape E = B :: rest) as HE by (by subst E).
  assert (wf E) as WE.
  { subst E. unfold wf. simpl. by rewrite !length_fmap. }
  replace (S (length rest) - 1)%nat with (length rest) by lia.
  rewrite (mul_mask B rest maskd E HE WE). cbn [mbind result_bind].
  match goal with |- context [Tensor.mul ?s noise] => remember s as scaled eqn:Hscaled end.
  assert (shape scaled = B :: rest) as Hss by (by subst scaled).
  assert (wf scaled) as Ws.
  { subst scaled. unfold wf. cbn [shape data].
    rewrite length_zip_with, length_expand. rewrite WE, HE. lia. }
  unfold Tensor.mul. rewrite (binop_same Rmult scaled noise) by congruence.
  cbn [mbind result_bind].
  match goal with |- context [Tensor.add _ ?s] => remember s as injected eqn:Hinj end.
  assert (shape injected = B :: rest) as Hsi by (by subst injected).
  assert (wf injected) as Wi.
  { subst injected. unfold wf. cbn [shape data].
    rewrite length_zip_with, Ws, Wn, Hss, Hn. lia. }
  unfold Tensor.add. rewrite (binop_same Rplus (mean out) injected) by congruence.
  eexists. split; [done|]. split; [done|].
  intros b j ti m lv n Hb Hj Hmk Hlvk Hnk. cbn [data].
  assert (b < B)%nat as HbB by (rewrite <- Ht; by eapply lookup_lt_Some).
  remember (b * numel rest + j)%nat as k eqn:Hkdef.
  assert (k < B * numel rest)%nat as Hk by (subst k; nia).
  assert (k / numel rest = b)%nat as Hdiv.
  { subst k. rewrite Nat.div_add_l by lia. rewrite Nat.div_small by done. lia. }
  subst injected scaled. cbn [data].
  rewrite !lookup_zip_with, Hmk.
  rewrite expand_mask by done. rewrite Hdiv. subst E. cbn [data Tensor.exp scale map].
  rewrite !list_lookup_fmap, Hlvk, Hnk. cbn [fmap option_fmap option_map mbind option_bind].
  subst maskd. rewrite nth_lookup, list_lookup_fmap, Hb.
  cbn [fmap option_fmap option_map default].
  unfold Datatypes.id. f_equal. destruct (decide (ti ≠ 0%Z)); ring.
Qed.
End ancestral_proposal.

Section ancestral_loop.
Import Tensor DiffusionPosteriorSampling.
Local Open Scope R_scope.
Context (p_mean_variance :
           WrappedModel.model tensor tensor → tensor → list Z → result moments).
Context (autograd_grad : tensor → list Z → tensor → result tensor).
Context (randn : nat → list nat → tensor).

Lemma state_before_cons x_init out outs k r :
  outs !! k = Some r →
  state_before x_init (out :: outs) (S k) = state_before (step_sample out) outs k.
Proof.
  intros Hk. destruct k as [|k]; [done|]. simpl.
  destruct (lookup_lt_is_Some_2 outs k) as [r' ->]; [|done].
  apply lookup_lt_Some in Hk. lia.
Qed.

Lemma sample_steps_trace self model shape indices : ∀ x_t draw records,
  sample_steps p_mean_variance autograd_grad randn self model shape indices x_t draw
  = (records, None) →
  length records = length indices
  ∧ ∀ (k : nat) r, records !! k = Some r →
      ∃ B i, head shape = Some B ∧ indices !! k = Some i
             ∧ p_sample p_mean_variance autograd_grad randn self model
                 (state_before x_t records k) (replicate B i) (draw + k) = Ok r.
Proof.
  induction indices as [|i indices IH]; intros x_t draw records Hrun;
    cbn [sample_steps] in Hrun.
  { injection Hrun as <-. split; [done|]. intros k r Hk. done. }
  destruct shape as [|B shape']; [done|]. cbn [mbind result_bind] in Hrun.
  destruct (p_sample _ _ _ self model x_t (replicate B i) draw) as [out|e] eqn:Hstep;
    [|done].
  destruct (sample_steps _ _ _ self model (B :: shape') indices (step_sample out) (S draw))
    as [outs e] eqn:Hrest.
  injection Hrun as <- ->. destruct (IH _ _ _ Hrest) as [Hlen Htrace].
  split; [simpl; by rewrite Hlen|].
  intros [|k] r Hk.
  - injection Hk as <-. exists B, i. by rewrite Nat.add_0_r.
  - simpl in Hk. destruct (Htrace k r Hk) as (B' & i' & HB & Hi & Hp).
    exists B', i'. split; [done|]. split; [done|].
    rewrite (state_before_cons _ _ _ _ _ Hk).
    by replace (draw + S k)%nat with (S draw + k)%nat by lia.
Qed.

Lemma range_0_nat (n : nat) : Py.range 0 (Z.of_nat n) 1 = Z.of_nat <$> seq 0 n.
Proof.
  unfold Py.range, Py.range_len. destruct n as [|n]; [done|].
  destruct (Z.ltb_spec 0 (Z.of_nat (S n))) as [_|]; [|lia]. simpl andb. cbv iota.
  rewrite Z.div_1_r. replace (Z.to_nat (Z.of_nat (S n) - 0 - 1 + 1)) with (S n) by lia.
  apply list_fmap_ext. intros _ k _. lia.
Qed.

Lemma p_sample_inv self model x t draw r :
  p_sample p_mean_variance autograd_grad randn self model x t draw = Ok r →
  ∃ out proposal,
    p_mean_variance (WrappedModel._wrap_model (diffusion self) model) x t = Ok out
    ∧ ancestral_proposal out (nonzero_mask x t) (randn draw (shape x)) = Ok proposal
    ∧ dps_update autograd_grad self x t (pred_xstart out) proposal = Ok (step_sample r)
    ∧ step_pred_xstart r = pred_xstart out
    ∧ step_mean r = mean out.
Proof.
  unfold p_sample. destruct (p_mean_variance _ x t) as [out|] eqn:Hout; [|done].
  cbn [mbind result_bind].
  destruct (ancestral_proposal _ _ _) as [proposal|] eqn:Hprop; [|done].
  cbn [mbind result_bind].
  destruct (dps_update _ _ _ _ _ _) as [s|] eqn:Hs; [|done].
  cbn [mbind result_bind]. intros [= <-]. by exists out, proposal.
Qed.

Lemma dps_update_returns self x t x0 x_old y l g s :
  measurement_model self x0 = Ok y →
  Loss.call (measurement_loss self) (to_4d y) (to_4d (measurement self)) = Ok l →
  autograd_grad x t x0 = Ok g →
  shaped s x_old → shaped s g →
  ∃ r, dps_update autograd_grad self x t x0 x_old = Ok r ∧ shaped s r.
Proof.
  intros Hy Hl Hg [Hso Wo] [Hsg Wg].
  destruct (loss_sign _ _ _ _ Hl) as (diff & Hdiff & _ & _).
  destruct (residual_of_diff _ _ _ Hdiff) as (residual & Hres & _).
  unfold dps_update. rewrite Hy. cbn [mbind result_bind]. rewrite Hl, Hg.
  cbn [mbind result_bind].
  assert (∀ z, ∃ r, Tensor.sub x_old (scale z g) = Ok r ∧ shaped s r) as Hsub.
  { intros z. unfold Tensor.sub. rewrite binop_same; [|by rewrite Hso|done|].
    2:{ unfold wf, scale, map. simpl. by rewrite length_fmap. }
    eexists. split; [done|]. split; [done|]. unfold wf. simpl.
    rewrite length_zip_with, length_fmap, Wo, Wg, Hso, Hsg. lia. }
  destruct (Rlt_dec 0 l) as [_|_]; [rewrite Hres|]; cbn [mbind result_bind];
    match goal with |- context [Tensor.sub x_old (scale ?z g)] =>
      destruct (Hsub z) as (r & -> & Hr) end; by exists r.
Qed.

Lemma ancestral_proposal_returns (out : moments) (x noise : tensor) (t : list Z)
    (B : nat) (rest : list nat) :
  shaped (B :: rest) x → length t = B →
  shaped (B :: rest) (mean out) → shaped (B :: rest) (log_variance out) →
  shaped (B :: rest) noise →
  ∃ s, ancestral_proposal out (nonzero_mask x t) noise = Ok s ∧ shaped (B :: rest) s.
Proof.
  intros [Hx _] Ht [Hm Wm] [Hlv Wlv] [Hn Wn].
  destruct (ancestral_proposal_entries out x noise t B rest) as (s & Hs & Hshape & _);
    try done.
  exists s. split; [done|]. split; [done|].
  unfold ancestral_proposal in Hs.
  destruct (Tensor.mul _ _) as [scaled|]; [|done]. cbn [mbind result_bind] in Hs.
  destruct (Tensor.mul _ _) as [injected|]; [|done]. cbn [mbind result_bind] in Hs.
  by eapply length_binop_data.
Qed.

Lemma collaborators_steps_return self model s :
  collaborators_return p_mean_variance autograd_grad randn self s →
  steps_return p_mean_variance autograd_grad randn self model s.
Proof.
  intros (Hpmv & Hrandn & Hmeas & Hgrad). split; [|done].
  intros x i Hx _ t.
  destruct (Hpmv (WrappedModel._wrap_model (diffusion self) model) x t Hx)
    as (out & Hout & Hm & Hlv & Hp).
  exists out. split; [done|]. split; [done|]. split; [done|].
  split; [by apply Hmeas|by apply Hgrad].
Qed.

Lemma p_sample_returns self model x i draw B rest :
  steps_return p_mean_variance autograd_grad randn self model (B :: rest) →
  shaped (B :: rest) x → (0 <= i < Z.of_nat (num_timesteps self))%Z →
  ∃ r, p_sample p_mean_variance autograd_grad randn self model x (replicate B i) draw
       = Ok r
       ∧ shaped (B :: rest) (step_sample r).
Proof.
  intros (Hstep & Hrandn) Hx Hi. unfold p_sample.
  destruct (Hstep x i Hx Hi) as (out & Hout & Hm & Hlv & (y & l & Hy & Hl) & g & Hg & Hsg).
  change (default 0%nat (head (B :: rest))) with B in Hout, Hg. rewrite Hout.
  cbn [mbind result_bind]. destruct Hx as [Hsx Wx]. rewrite Hsx.
  destruct (ancestral_proposal_returns out x (randn draw (B :: rest)) (replicate B i) B rest)
    as (proposal & -> & Hprop); try done.
  { by rewrite length_replicate. }
  cbn [mbind result_bind].
  destruct (dps_update_returns self x (replicate B i) (pred_xstart out) proposal y l g
              (B :: rest)) as (r & -> & Hr); try done.
  cbn [mbind result_bind]. by eexists.
Qed.

Lemma sample_steps_shaped self model B rest indices :
  steps_return p_mean_variance autograd_grad randn self model (B :: rest) →
  Forall (λ i, 0 <= i < Z.of_nat (num_timesteps self))%Z indices →
  ∀ x draw, shaped (B :: rest) x →
  ∃ records,
    sample_steps p_mean_variance autograd_grad randn self model (B :: rest) indices x draw
    = (records, None)
    ∧ length records = length indices
    ∧ Forall (λ r, shaped (B :: rest) (step_sample r)) records.
Proof.
  intros Hc. induction indices as [|i indices IH]; intros Hidx x draw Hx.
  { exists []. by repeat split. }
  apply Forall_cons in Hidx as [Hi Hidx].
  cbn [sample_steps mbind result_bind].
  destruct (p_sample_returns self model x i draw B rest) as (r & -> & Hr); [done..|].
  destruct (IH Hidx (step_sample r) (S draw) Hr) as (records & -> & Hlen & Hall).
  exists (r :: records). split; [done|]. split; [simpl; by rewrite Hlen|].
  by constructor.
Qed.

Lemma indices_in_range (T : nat) :
  Forall (λ i, 0 <= i < Z.of_nat T)%Z (reverse (Z.of_nat <$> seq 0 T)).
Proof.
  apply Forall_reverse, Forall_fmap, Forall_forall. intros k Hk.
  apply elem_of_seq in Hk. simpl. lia.
Qed.

(** C3.  On a non-empty schedule and a batch shape, when the
    collaborators return tensors of the sample's shape, no step interrupts
    the progressive loop.  A run that no step interrupts yields one record
    per timestep of the schedule: record [k] is [p_sample] at timestep
    [T - 1 - k], on every signal of the batch, applied to the sample of the
    record before (to the initial noise for [k = 0]), so the timesteps run
    from [T - 1] down to [0]; the last record is the one of timestep [0] and
    its sample is what [p_sample_loop] returns.  Each record's sample is the
    posterior gradient step applied to the prior-only proposal, which, entry
    by entry, is the posterior mean plus [exp(0.5 * log_variance)] times the
    fresh noise for the signals whose timestep is non-zero, and the
    posterior mean alone for those at timestep [0]. *)
Theorem ancestral_sampler_trace (self : DiffusionPosteriorSampling.t)
    (model : WrappedModel.model tensor tensor) (shape : list nat) :
  let T := num_timesteps self in
  (T ≠ 0%nat → shape ≠ [] →
   collaborators_return p_mean_variance autograd_grad randn self shape →
   ∃ records,
     p_sample_loop_progressive p_mean_variance autograd_grad randn self model shape
     = (records, None))
  ∧ (∀ records,
       p_sample_loop_progressive p_mean_variance autograd_grad randn self model shape
       = (records, None) →
       length records = T
       ∧ (∀ (k : nat) r, records !! k = Some r →
            ∃ B, head shape = Some B
                 ∧ p_sample p_mean_variance autograd_grad randn self model
                     (state_before (randn 0%nat shape) records k)
                     (replicate B (Z.of_nat T - 1 - Z.of_nat k)%Z) (S k) = Ok r)
       ∧ (∃ final, last records = Some final
                   ∧ records !! (T - 1)%nat = Some final
                   ∧ p_sample_loop p_mean_variance autograd_grad randn self model shape
                     = Ok (step_sample final)))
  ∧ (∀ x t draw r,
       p_sample p_mean_variance autograd_grad randn self model x t draw = Ok r →
       ∃ out proposal,
         p_mean_variance (WrappedModel._wrap_model (diffusion self) model) x t = Ok out
         ∧ ancestral_proposal out (nonzero_mask x t) (randn draw (Tensor.shape x))
           = Ok proposal
         ∧ dps_update autograd_grad self x t (pred_xstart out) proposal
           = Ok (step_sample r)
         ∧ step_pred_xstart r = pred_xstart out
         ∧ step_mean r = mean out)
  ∧ (∀ (out : moments) (x noise : tensor) (t : list Z) (B : nat) (rest : list nat),
       Tensor.shape x = B :: rest → length t = B →
       Tensor.shape (mean out) = B :: rest → wf (mean out) →
       Tensor.shape (log_variance out) = B :: rest → wf (log_variance out) →
       Tensor.shape noise = B :: rest → wf noise →
       ∃ s, ancestral_proposal out (nonzero_mask x t) noise = Ok s
            ∧ Tensor.shape s = B :: rest
            ∧ ∀ (b j : nat) ti m lv n,
                t !! b = Some ti → (j < numel rest)%nat →
                data (mean out) !! (b * numel rest + j)%nat = Some m →
                data (log_variance out) !! (b * numel rest + j)%nat = Some lv →
                data noise !! (b * numel rest + j)%nat = Some n →
                data s !! (b * numel rest + j)%nat
                = Some (if decide (ti ≠ 0%Z)
                        then m + Rtrigo_def.exp (1 / 2 * lv) * n else m)).
Proof.
  intros T. split; [|split; [|split]].
  - intros HT Hshape Hc. unfold p_sample_loop_progressive. fold T.
    destruct shape as [|B rest]; [done|].
    rewrite range_0_nat. pose proof (indices_in_range T) as Hrange.
    destruct (reverse (Z.of_nat <$> seq 0 T)) as [|i0 indices] eqn:Hidx.
    { apply (f_equal length) in Hidx.
      rewrite length_reverse, length_fmap, length_seq in Hidx. done. }
    destruct (sample_steps_shaped self model B rest (i0 :: indices)
                (collaborators_steps_return _ _ _ Hc) Hrange (randn 0%nat (B :: rest)) 1%nat)
      as (records & Hrecords & _); [apply Hc|].
    by exists records.
  - intros records Hrun. unfold p_sample_loop. rewrite Hrun.
    unfold p_sample_loop_progressive in Hrun. fold T in Hrun.
    destruct shape as [|B0 rest0] eqn:Hshape; [done|]. rewrite <- Hshape in *.
    rewrite range_0_nat in Hrun.
    destruct (reverse (Z.of_nat <$> seq 0 T)) as [|i0 indices] eqn:Hidx; [done|].
    destruct (sample_steps_trace _ _ _ _ _ _ _ Hrun) as [Hlen Htrace].
    assert (length records = T) as HlenT.
    { rewrite Hlen, <- Hidx, length_reverse, length_fmap, length_seq. done. }
    split; [done|]. split.
    + intros k r Hk. destruct (Htrace k r Hk) as (B & i & HB & Hi & Hp).
      exists B. split; [done|]. rewrite <- Hidx in Hi.
      apply reverse_lookup_Some in Hi as [Hi Hlt].
      rewrite length_fmap, length_seq in Hi, Hlt.
      rewrite list_lookup_fmap, lookup_seq_lt in Hi by lia. injection Hi as <-.
      by replace (Z.of_nat T - 1 - Z.of_nat k)%Z with (Z.of_nat (0 + (T - S k))) by lia.
    + assert (T ≠ 0%nat) as HT.
      { intros E. rewrite E in Hidx. done. }
      rewrite last_lookup, HlenT.
      replace (Init.Nat.pred T) with (T - 1)%nat by lia.
      destruct (lookup_lt_is_Some_2 records (T - 1)%nat) as [final Hf]; [lia|].
      exists final. by rewrite Hf.
  - apply p_sample_inv.
  - apply ancestral_proposal_entries.
Qed.
End ancestral_loop.

Section ancestral_loop_example.
Import Tensor DiffusionPosteriorSampling.
Local Open Scope R_scope.

Lemma toy_collaborators_return :
  collaborators_return toy_moments toy_grad toy_randn
    (identity_sampler Loss.MSELoss (pixel 0)) [1; 1; 1; 1]%nat.
Proof.
  split; [|split; [|split]].
  - intros m x t Hx. by exists (mk_moments x x x).
  - intros k. by split.
  - intros x0 [Hs Wx]. exists x0. cbn [measurement_model identity_sampler].
    unfold to_4d. rewrite Hs. cbn [measurement measurement_loss identity_sampler Loss.call].
    unfold Loss.MSELoss_sum, Tensor.sub.
    destruct (decide (length [1; 1; 1; 1]%nat ≠ 4%nat)) as [Hne|_]; [done|].
    destruct (decide (length (shape (pixel 0)) ≠ 4%nat)) as [Hne|_]; [done|].
    rewrite (binop_same Rminus x0 (pixel 0)) by done. by eexists.
  - intros x t x0 Hx. by exists x.
Qed.

Lemma ancestral_sampler_trace_witness : ∃ records,
  p_sample_loop_progressive toy_moments toy_grad toy_randn
    (identity_sampler Loss.MSELoss (pixel 0)) toy_model [1; 1; 1; 1]%nat
  = (records, None)
  ∧ length records = 2%nat.
Proof.
  destruct (ancestral_sampler_trace toy_moments toy_grad toy_randn
              (identity_sampler Loss.MSELoss (pixel 0)) toy_model [1; 1; 1; 1]%nat)
    as (Hrun & Htrace & _).
  destruct Hrun as [records Hrecords].
  - vm_compute. discriminate.
  - discriminate.
  - apply toy_collaborators_return.
  - exists records. split; [done|]. by destruct (Htrace records Hrecords) as [-> _].
Defined.
End ancestral_loop_example.

(** ** The multistep-solver sampler *)

Section multistep_update.
Import Tensor DPMDiffusionPosteriorSampling.
Local Open Scope R_scope.
Context {Solver ModelOutput : Type}.
Context (ddpm_model : tensor → list Z → result tensor).
Context (_predict_xstart_from_eps : tensor → list Z → tensor → result tensor).
Context (dpm_solver_first_update :
           Solver → tensor → tensor → tensor → ModelOutput → result tensor).
Context (multistep_dpm_solver_second_update multistep_dpm_solver_third_update :
           Solver → tensor → list ModelOutput → list tensor → tensor → string
           → result tensor).
Context (autograd_grad : tensor → tensor → tensor → result tensor).

Local Abbreviation update :=
  (multistep_dpm_solver_update ddpm_model _predict_xstart_from_eps
     dpm_solver_first_update multistep_dpm_solver_second_update
     multistep_dpm_solver_third_update autograd_grad).

Lemma sub_zero_gradient (p g : tensor) (z : R) :
  shape g = shape p → wf p → wf g → Forall (λ v, v = 0) (data g) →
  Tensor.sub p (scale z g) = Ok p.
Proof.
  intros Hs Wp Wg Hz. unfold Tensor.sub.
  rewrite binop_same; [|done|done|by unfold wf, scale, map; simpl; rewrite length_fmap].
  destruct p as [ps pd], g as [gs gd]. unfold wf in *. simpl in *. do 2 f_equal.
  assert (length pd = length gd) as Hlen by congruence.
  clear -Hz Hlen. revert pd Hlen.
  induction Hz as [|v gd -> _ IH]; intros [|w pd] Hlen; simpl in *; try done.
  rewrite IH by lia. f_equal. rlra.
Qed.

Lemma blend_same (p : tensor) :
  wf p → Tensor.add (scale (7 / 10) p) (scale (3 / 10) p) = Ok p.
Proof.
  intros Wp. unfold Tensor.add.
  rewrite binop_same;
    [|done|by unfold wf, scale, map; simpl; rewrite length_fmap..].
  destruct p as [ps pd]. cbn [shape data scale map]. do 2 f_equal. clear.
  induction pd as [|v pd IH]; [done|]. rewrite !fmap_cons. cbn [zip_with].
  rewrite IH. f_equal. rlra.
Qed.

Lemma dps_update_inv (self : DPMDiffusionPosteriorSampling.t Solver)
    (x t x0 x_old x_new : tensor) :
  dps_update autograd_grad self x t x0 x_old = Ok x_new →
  ∃ y l grad zeta,
    measurement_model self x0 = Ok y
    ∧ Loss.call (measurement_loss self) (DiffusionPosteriorSampling.to_4d y)
        (DiffusionPosteriorSampling.to_4d (measurement self)) = Ok l
    ∧ autograd_grad x t x0 = Ok grad
    ∧ (0 < l → ∃ residual,
         Tensor.sub (DiffusionPosteriorSampling.to_4d y) (measurement self) = Ok residual
         ∧ zeta = step_size self / norm (abs residual))
    ∧ (¬ 0 < l → zeta = step_size self)
    ∧ Tensor.sub x_old (scale zeta grad) = Ok x_new.
Proof.
  unfold dps_update. cbv zeta.
  destruct (measurement_model self x0) as [y|] eqn:Hy; [|done]. cbn [mbind result_bind].
  destruct (Loss.call _ _ _) as [l|] eqn:Hloss; [|done]. cbn [mbind result_bind].
  destruct (autograd_grad x t x0) as [grad|] eqn:Hgrad; [|done]. cbn [mbind result_bind].
  destruct (Rlt_dec 0 l) as [Hl|Hl].
  - destruct (Tensor.sub _ (measurement self)) as [residual|] eqn:Hres; [|done].
    cbn [mbind result_bind].
    destruct (Tensor.sub x_old _) as [r|] eqn:Hsub; [|done].
    cbn [mbind result_bind]. intros [= <-].
    exists y, l, grad, (step_size self / norm (abs residual)).
    split; [done|]. split; [done|]. split; [done|].
    split; [intros _; by exists residual|]. split; [done|done].
  - cbn [mbind result_bind].
    destruct (Tensor.sub x_old _) as [r|] eqn:Hsub; [|done].
    cbn [mbind result_bind]. intros [= <-].
    exists y, l, grad, (step_size self).
    split; [done|]. split; [done|]. split; [done|]. split; [done|]. split; done.
Qed.

(** C4, amended.  Whenever the update returns, its result is
    [0.7 * x_new + 0.3 * proposal], where [proposal] is the solver's
    proposal of the given order and [x_new] the posterior gradient step
    applied to it: [proposal - zeta * grad], with [grad] the gradient of
    the measurement loss at the current sample and [zeta] the configured
    step, divided by the norm of the residual when the loss is positive.
    For order 1, when every collaborator returns and the gradient of the
    measurement loss is zero, the update returns, in exact arithmetic, the
    solver's first-order proposal. *)
Theorem multistep_update_blend (self : DPMDiffusionPosteriorSampling.t Solver)
    (x_t : tensor) (model_prev_list : list ModelOutput) (t_prev_list : list tensor)
    (t : tensor) (solver_type : string) :
  (∀ order x_out,
     update self x_t model_prev_list t_prev_list t order solver_type = Ok x_out →
     ∃ t_last t_current eps x0_pred proposal x_new,
       last t_prev_list = Some t_last
       ∧ long_view1 t_last = Ok t_current
       ∧ get_model_output_eps ddpm_model x_t t_current = Ok eps
       ∧ _predict_xstart_from_eps x_t t_current eps = Ok x0_pred
       ∧ ((order = 1%Z ∧ ∃ model_s, last model_prev_list = Some model_s
                          ∧ dpm_solver_first_update (solver self) x_t t_last t model_s
                            = Ok proposal)
          ∨ (order = 2%Z ∧ multistep_dpm_solver_second_update (solver self) x_t
                             model_prev_list t_prev_list t solver_type = Ok proposal)
          ∨ (order = 3%Z ∧ multistep_dpm_solver_third_update (solver self) x_t
                             model_prev_list t_prev_list t solver_type = Ok proposal))
       ∧ dps_update autograd_grad self x_t t x0_pred proposal = Ok x_new
       ∧ (∃ y l grad zeta,
            measurement_model self x0_pred = Ok y
            ∧ Loss.call (measurement_loss self) (DiffusionPosteriorSampling.to_4d y)
                (DiffusionPosteriorSampling.to_4d (measurement self)) = Ok l
            ∧ autograd_grad x_t t x0_pred = Ok grad
            ∧ (0 < l → ∃ residual,
                 Tensor.sub (DiffusionPosteriorSampling.to_4d y) (measurement self)
                 = Ok residual
                 ∧ zeta = step_size self / norm (abs residual))
            ∧ (¬ 0 < l → zeta = step_size self)
            ∧ Tensor.sub proposal (scale zeta grad) = Ok x_new)
       ∧ Tensor.add (scale (7 / 10) x_new) (scale (3 / 10) proposal) = Ok x_out)
  ∧ (∀ t_last t_current eps x0_pred model_s proposal y l grad,
       last t_prev_list = Some t_last →
       long_view1 t_last = Ok t_current →
       get_model_output_eps ddpm_model x_t t_current = Ok eps →
       _predict_xstart_from_eps x_t t_current eps = Ok x0_pred →
       last model_prev_list = Some model_s →
       dpm_solver_first_update (solver self) x_t t_last t model_s = Ok proposal →
       wf proposal →
       measurement_model self x0_pred = Ok y →
       Loss.call (measurement_loss self) (DiffusionPosteriorSampling.to_4d y)
         (DiffusionPosteriorSampling.to_4d (measurement self)) = Ok l →
       autograd_grad x_t t x0_pred = Ok grad →
       shape grad = shape proposal → wf grad → Forall (λ v, v = 0) (data grad) →
       update self x_t model_prev_list t_prev_list t 1 solver_type = Ok proposal).
Proof.
  split.
  - intros order x_out. unfold multistep_dpm_solver_update, last_item.
    destruct (last t_prev_list) as [t_last|]; [|done]. cbn [mbind result_bind].
    destruct (long_view1 t_last) as [t_current|] eqn:Htc; [|done]. cbn [mbind result_bind].
    destruct (get_model_output_eps _ _ _) as [eps|] eqn:Heps; [|done].
    cbn [mbind result_bind].
    destruct (_predict_xstart_from_eps _ _ _) as [x0_pred|] eqn:Hx0; [|done].
    cbn [mbind result_bind].
    match goal with
    | |- (?p ≫= _) = _ → _ => destruct p as [proposal|] eqn:Hprop; [|done]
    end.
    cbn [mbind result_bind].
    destruct (dps_update _ _ _ _ _ _) as [x_new|] eqn:Hnew; [|done].
    cbn [mbind result_bind].
    destruct (Tensor.add _ _) as [x|] eqn:Hadd; [|done]. intros [= <-].
    exists t_last, t_current, eps, x0_pred, proposal, x_new.
    repeat (split; [done|]). split; [|split; [done|split; [by apply dps_update_inv|done]]].
    destruct (Z.eqb_spec order 1) as [->|_].
    { left. split; [done|]. destruct (last model_prev_list) as [model_s|]; [|done].
      by exists model_s. }
    destruct (Z.eqb_spec order 2) as [->|_]; [by right; left|].
    destruct (Z.eqb_spec order 3) as [->|_]; [by right; right|done].
  - intros t_last t_current eps x0_pred model_s proposal y l grad
      Ht Htc Heps Hx0 Hms Hprop Wp Hy Hl Hg Hsg Wg Hzero.
    unfold multistep_dpm_solver_update, last_item.
    rewrite Ht. cbn [mbind result_bind]. rewrite Htc. cbn [mbind result_bind].
    rewrite Heps. cbn [mbind result_bind]. rewrite Hx0. cbn [mbind result_bind].
    rewrite Z.eqb_refl, Hms. cbn [mbind result_bind]. rewrite Hprop.
    cbn [mbind result_bind].
    assert (dps_update autograd_grad self x_t t x0_pred proposal = Ok proposal) as ->.
    { unfold dps_update. rewrite Hy. cbn [mbind result_bind]. rewrite Hl, Hg.
      cbn [mbind result_bind].
      destruct (loss_sign _ _ _ _ Hl) as (diff & Hdiff & _ & _).
      destruct (DiffusionPosteriorSampling.to_4d y) as [ys yd] eqn:Ey.
      destruct (residual_of_diff _ _ _ Hdiff) as (residual & Hres & _).
      destruct (Rlt_dec 0 l); [rewrite Hres|]; cbn [mbind result_bind];
        by rewrite sub_zero_gradient. }
    cbn [mbind result_bind]. by rewrite blend_same.
Qed.
End multistep_update.

Section multistep_update_example.
Import Tensor DPMDiffusionPosteriorSampling.
Local Open Scope R_scope.

Lemma multistep_update_blend_witness :
  toy_update toy_solver (pixel 2) [pixel 1] [pixel 5] (pixel 4) 1 "dpmsolver"
  = Ok (pixel 2)
  ∧ ∃ proposal x_new grad zeta,
      Tensor.sub proposal (scale zeta grad) = Ok x_new
      ∧ Tensor.add (scale (7 / 10) x_new) (scale (3 / 10) proposal) = Ok (pixel 2).
Proof.
  destruct (multistep_update_blend (Solver := unit) (ModelOutput := tensor)
              (λ x _, Ok x) (λ x _ _, Ok x) (λ _ x _ _ _, Ok x)
              (λ _ x _ _ _ _, Ok x) (λ _ x _ _ _ _, Ok x) (λ _ _ _, Ok (pixel 0))
              toy_solver (pixel 2) [pixel 1] [pixel 5] (pixel 4) "dpmsolver")
    as [Hblend Hzero].
  assert (toy_update toy_solver (pixel 2) [pixel 1] [pixel 5] (pixel 4) 1 "dpmsolver"
          = Ok (pixel 2)) as Hrun.
  { eapply Hzero; try reflexivity. repeat constructor. }
  split; [exact Hrun|].
  destruct (Hblend 1%Z (pixel 2) Hrun)
    as (t_last & t_current & eps & x0_pred & proposal & x_new
        & _ & _ & _ & _ & _ & _ & (y & l & grad & zeta & _ & _ & _ & _ & _ & Hsub) & Hadd).
  by exists proposal, x_new, grad, zeta.
Defined.

(** C4 as stated, with "exactly", fails in floating point.  With a zero
    gradient the gradient step leaves the proposal as it is, and line 457
    computes [0.7 * p + 0.3 * p] on each entry [p]; the two products and
    the sum round, and the result differs from [p]: in binary64 at
    [p = 3.0], which gives [2.9999999999999996], and in binary32, the
    default of the tensors, at the float nearest to [1.9]. *)
Lemma multistep_update_blend_counterexample :
  blend_entry Float.binary64 (Float.Fin 3) (Float.Fin 3)
  = Float.Fin (6755399441055743 # 2251799813685248)
  ∧ ¬ (6755399441055743 # 2251799813685248 == 3)%Q
  ∧ ∃ p q, Float.round Float.binary32 (19 # 10) = Float.Fin p
           ∧ blend_entry Float.binary32 (Float.Fin p) (Float.Fin p) = Float.Fin q
           ∧ ¬ (q == p)%Q.
Proof.
  split; [vm_compute; reflexivity|]. split; [discriminate|].
  eexists _, _. split; [vm_compute; reflexivity|].
  split; [vm_compute; reflexivity|]. discriminate.
Qed.

Example multistep_order_out_of_range :
  toy_update toy_solver (pixel 2) [pixel 1] [pixel 5] (pixel 4) 4 "dpmsolver"
  = Raise ValueError.
Proof. reflexivity. Qed.
End multistep_update_example.

(** ** Box inpainting writes to its argument *)

Section box_inpainting.
Import BoxInpainting.
Local Open Scope nat_scope.

Lemma in_box_4d bx b c h w n ci i j :
  i < h → j < w →
  in_box bx [b; c; h; w] (((n * c + ci) * h + i) * w + j)
  = bool_decide (x1 bx ≤ i < x1 bx + box_h bx ∧ x2 bx ≤ j < x2 bx + box_w bx).
Proof.
  intros Hi Hj. unfold in_box. change (Tensor.numel []) with 1.
  rewrite Nat.div_1_r, Nat.mul_1_l.
  assert ((((n * c + ci) * h + i) * w + j) mod w = j) as ->.
  { rewrite Nat.add_comm, Nat.Div0.mod_add. by apply Nat.mod_small. }
  assert ((((n * c + ci) * h + i) * w + j) / w = (n * c + ci) * h + i) as ->.
  { rewrite Nat.div_add_l by lia. rewrite (Nat.div_small j w) by done. lia. }
  assert (((n * c + ci) * h + i) mod h = i) as ->.
  { rewrite Nat.add_comm, Nat.Div0.mod_add. by apply Nat.mod_small. }
  apply eq_bool_prop_intro. rewrite andb_True, !bool_decide_spec. tauto.
Qed.

Lemma zero_box_lookup bx b c h w d n ci i j :
  i < h → j < w →
  zero_box bx [b; c; h; w] d !! (((n * c + ci) * h + i) * w + j)
  = if bool_decide (x1 bx ≤ i < x1 bx + box_h bx ∧ x2 bx ≤ j < x2 bx + box_w bx)
    then (λ _, 0%R) <$> d !! (((n * c + ci) * h + i) * w + j)
    else d !! (((n * c + ci) * h + i) * w + j).
Proof.
  intros Hi Hj. unfold zero_box. rewrite list_lookup_imap, in_box_4d by done.
  destruct (bool_decide _); destruct (d !! _) as [v|]; simpl; try done.
  by rewrite Rmult_0_r.
Qed.

Lemma broadcast_rev_keeps a : ∀ m,
  length a = length m → Tensor.broadcast_rev a m = Some a →
  Forall2 (λ x y, x = y ∨ y = 1) a m.
Proof.
  induction a as [|x a IH]; intros [|y m] Hlen Hb; simpl in Hlen; try lia.
  { constructor. }
  cbn [Tensor.broadcast_rev] in Hb.
  destruct (Tensor.broadcast_rev a m) as [s|] eqn:Hs;
    [|by repeat case_match].
  assert (s = a ∧ (x = y ∨ y = 1)) as [-> Hxy].
  { destruct (Nat.eqb_spec x y) as [->|Hne]; [by simplify_eq/=; auto|].
    destruct (Nat.eqb_spec x 1) as [->|Hx1]; [simplify_eq/=; lia|].
    destruct (Nat.eqb_spec y 1) as [->|Hy1]; [by simplify_eq/=; auto|done]. }
  constructor; [done|]. apply IH; [simpl in Hlen; lia|done].
Qed.

Lemma slice_mismatch b c r q :
  r ≠ 128 ∨ q ≠ 128 →
  Tensor.broadcast_shapes [b; c; r; q] [b; c; 128; 128] ≠ Some [b; c; r; q].
Proof.
  intros Hne Hb. unfold Tensor.broadcast_shapes in Hb.
  destruct (Tensor.broadcast_rev _ _) as [s|] eqn:Hs; [|done].
  injection Hb as Hb.
  assert (s = rev [b; c; r; q]) as -> by (by rewrite <- Hb, rev_involutive).
  apply broadcast_rev_keeps in Hs; [|done]. simpl in Hs.
  apply Forall2_cons in Hs as [Hq Hs]. apply Forall2_cons in Hs as [Hr _]. lia.
Qed.

Context (randint : nat → nat → nat).

Lemma call_3d self σ v c h w :
  vshape v = [c; h; w] →
  call randint self σ v = call randint self σ (view (storage v) [1; c; h; w]).
Proof. intros Hv. unfold call. by rewrite Hv. Qed.

(** C10.  On a fresh operator and a 4-D tensor (or a 3-D tensor, through
    its unsqueezed view) whose storage the caller holds: when both image
    dimensions are at least 128, the call overwrites the caller's storage,
    zeroing the entries of a 128x128 box and leaving the others, and
    returns a view of that same storage; when an image dimension is below
    128, the in-place product raises [RuntimeError] and the storage is left
    as it was. *)
Theorem box_inpainting_call (σ : gmap nat (list R)) (v : tensor_view) (d : list R)
    (b c h w : nat) :
  (∀ k high, 0 < high → randint k high < high) →
  σ !! storage v = Some d →
  vshape v = [b; c; h; w] ∨ (b = 1 ∧ vshape v = [c; h; w]) →
  (128 ≤ h → 128 ≤ w →
   ∃ bx out,
     call randint fresh σ v
     = (<[storage v := zero_box bx [b; c; h; w] d]> σ, mk (Some bx), Ok out)
     ∧ storage out = storage v
     ∧ box_h bx = 128 ∧ box_w bx = 128 ∧ x1 bx + 128 ≤ h ∧ x2 bx + 128 ≤ w
     ∧ ∀ n ci i j, i < h → j < w →
         zero_box bx [b; c; h; w] d !! (((n * c + ci) * h + i) * w + j)
         = if bool_decide (x1 bx ≤ i < x1 bx + 128 ∧ x2 bx ≤ j < x2 bx + 128)
           then (λ _, 0%R) <$> d !! (((n * c + ci) * h + i) * w + j)
           else d !! (((n * c + ci) * h + i) * w + j))
  ∧ (h < 128 ∨ w < 128 →
     ∃ self', call randint fresh σ v = (σ, self', Raise RuntimeError)).
Proof.
  intros Hrand Hd Hshape.
  assert (call randint fresh σ v = call randint fresh σ (view (storage v) [b; c; h; w])) as ->.
  { destruct Hshape as [Hv|[-> Hv]]; [|by apply call_3d].
    destruct v as [l s]. simpl in Hv. by subst s. }
  unfold call. cbn [vshape storage length fresh box box_values].
  destruct (decide (4 = 3)) as [|_]; [done|]. cbn [vshape storage box_values].
  set (max_x := if 128 <=? h then h - 128 else 0).
  set (max_y := if 128 <=? w then w - 128 else 0).
  pose proof (Hrand 0 (Nat.max 1 max_x) ltac:(lia)) as Hx1.
  pose proof (Hrand 1 (Nat.max 1 max_y) ltac:(lia)) as Hx2.
  set (rx1 := randint 0 (Nat.max 1 max_x)) in *.
  set (rx2 := randint 1 (Nat.max 1 max_y)) in *.
  cbn [x1 x2 box_h box_w].
  split.
  - intros Hh Hw.
    assert (rx1 + 128 ≤ h ∧ rx2 + 128 ≤ w) as [Hr1 Hr2].
    { subst max_x max_y. destruct (Nat.leb_spec 128 h), (Nat.leb_spec 128 w); lia. }
    replace (slice_len rx1 (rx1 + Nat.min 128 h) h) with 128 by (unfold slice_len; lia).
    replace (slice_len rx2 (rx2 + Nat.min 128 w) w) with 128 by (unfold slice_len; lia).
    rewrite decide_True by apply broadcast_shapes_same.
    rewrite Hd.
    eexists (mk_coords rx1 rx2 (Nat.min 128 h) (Nat.min 128 w)), _.
    split; [done|]. cbn [x1 x2 box_h box_w].
    split; [by destruct (decide _)|].
    split; [lia|]. split; [lia|]. split; [lia|]. split; [lia|].
    intros n ci i j Hi Hj. rewrite zero_box_lookup by done. cbn [x1 x2 box_h box_w].
    by replace (Nat.min 128 h) with 128 by lia; replace (Nat.min 128 w) with 128 by lia.
  - intros Hsmall. rewrite decide_False; [by eexists|].
    apply slice_mismatch. unfold slice_len. subst max_x max_y.
    destruct (Nat.leb_spec 128 h), (Nat.leb_spec 128 w); lia.
Qed.
End box_inpainting.

Section box_inpainting_example.
Import BoxInpainting.
Local Open Scope nat_scope.

Lemma box_inpainting_call_witness :
  (∃ self', call (λ _ _, 0) fresh (ones_store [1; 3; 64; 64]) (view 0 [1; 3; 64; 64])
            = (ones_store [1; 3; 64; 64], self', Raise RuntimeError))
  ∧ (∃ bx out,
       call (λ _ _, 0) fresh (ones_store [1; 3; 128; 128]) (view 0 [1; 3; 128; 128])
       = (<[0 := zero_box bx [1; 3; 128; 128]
                    (replicate (Tensor.numel [1; 3; 128; 128]) 1%R)]>
            (ones_store [1; 3; 128; 128]),
          mk (Some bx), Ok out)
       ∧ storage out = 0).
Proof.
  split.
  - apply (box_inpainting_call (λ _ _, 0) (ones_store [1; 3; 64; 64])
             (view 0 [1; 3; 64; 64]) (replicate (Tensor.numel [1; 3; 64; 64]) 1%R)
             1 3 64 64).
    + intros _ high Hhigh. exact Hhigh.
    + apply lookup_singleton_eq.
    + left. reflexivity.
    + left. apply Nat.lt_succ_diag_r || (unfold lt; repeat constructor).
  - destruct (box_inpainting_call (λ _ _, 0) (ones_store [1; 3; 128; 128])
                (view 0 [1; 3; 128; 128])
                (replicate (Tensor.numel [1; 3; 128; 128]) 1%R) 1 3 128 128)
      as [Hlarge _].
    + intros _ high Hhigh. exact Hhigh.
    + apply lookup_singleton_eq.
    + left. reflexivity.
    + destruct Hlarge as (bx & out & Hcall & Hout & _);
        [apply Nat.le_refl|apply Nat.le_refl|].
      exists bx, out. exact (conj Hcall Hout).
Defined.

(** The identity operator hands its argument back and writes nothing. *)
Example identity_leaves_store σ v : identity_call σ v = (σ, Ok v).
Proof. reflexivity. Qed.
End box_inpainting_example.

(** * Further properties *)

(** ** Fixed-stride respacing: what a successful call returns *)

Section ddim_more.
Local Open Scope Z_scope.
Import Respace.

Lemma ddim_search_inv T N strides S :
  ddim_search T N strides = Ok S →
  ∃ i, i ∈ strides ∧ Py.range_len 0 T i = N ∧ S = list_to_set (Py.range 0 T i).
Proof.
  induction strides as [|i strides IH]; [done|]. cbn [ddim_search].
  destruct (Z.eqb_spec (Py.range_len 0 T i) N) as [E|_].
  - intros [= <-]. exists i. split; [left|done].
  - intros H. destruct (IH H) as (j & Hj & HN & HS). exists j. split; [by right|done].
Qed.

Lemma ddim_search_outcome T N strides :
  is_Ok (ddim_search T N strides) ∨ ddim_search T N strides = Raise ValueError.
Proof.
  induction strides as [|i strides IH]; [by right|]. cbn [ddim_search].
  destruct (_ =? _); [left; by eexists|done].
Qed.

Lemma elem_of_range_1 T i : i ∈ Py.range 1 T 1 ↔ 1 ≤ i < T.
Proof.
  rewrite range_1_strides, list_elem_of_fmap. setoid_rewrite elem_of_seq. split.
  - intros (k & -> & Hk). lia.
  - intros Hi. exists (Z.to_nat (i - 1)). lia.
Qed.

Lemma range_NoDup T s : 0 < s → NoDup (Py.range 0 T s).
Proof.
  intros Hs. unfold Py.range. apply NoDup_fmap_2; [|apply NoDup_seq].
  intros j k E. nia.
Qed.

(** X1.  When a fixed-stride request is met, the returned set has exactly
    the desired number of elements, contains timestep 0, lies within
    [0, num_timesteps), and the desired count is at least 2 and at most
    [num_timesteps]. *)
Theorem ddim_result (T : Z) (spec : string) (N : Z) (S : gset Z) :
  String.prefix "ddim" spec = true →
  Py.int (Py.drop_string 4 spec) = Ok N →
  space_timesteps T (SpecStr spec) = Ok S →
  Z.of_nat (size S) = N ∧ 0 ∈ S ∧ (∀ x, x ∈ S → 0 ≤ x < T) ∧ 2 ≤ N ≤ T.
Proof.
  intros Hpre Hint. unfold space_timesteps. rewrite Hpre, Hint. cbn [mbind result_bind].
  intros HS. apply ddim_search_inv in HS as (i & Hi & HN & ->).
  apply elem_of_range_1 in Hi.
  rewrite size_list_to_set by (apply range_NoDup; lia).
  rewrite range_len_length. split; [done|]. split; [|split].
  - apply elem_of_list_to_set, elem_of_range_0; [lia|]. exists 0. lia.
  - intros x Hx. apply elem_of_list_to_set, elem_of_range_0 in Hx as (k & ? & -> & ?); lia.
  - subst N. unfold Py.range_len.
    destruct (Z.ltb_spec 0 i); [|lia]. destruct (Z.ltb_spec 0 T); [|lia]. simpl.
    replace (T - 0 - 1) with (T - 1) by lia.
    assert (1 ≤ (T - 1) `div` i) by (apply Z.div_le_lower_bound; lia).
    assert ((T - 1) `div` i ≤ T - 1) by (apply Z.div_le_upper_bound; nia).
    lia.
Qed.

Lemma ddim_result_witness :
  Z.of_nat (size (list_to_set (Py.range 0 1000 20) : gset Z)) = 50
  ∧ 0 ∈ (list_to_set (Py.range 0 1000 20) : gset Z)
  ∧ (∀ x, x ∈ (list_to_set (Py.range 0 1000 20) : gset Z) → 0 ≤ x < 1000)
  ∧ 2 ≤ 50 ≤ 1000.
Proof.
  apply (ddim_result 1000 "ddim50" 50); [reflexivity|reflexivity|].
  vm_compute. reflexivity.
Defined.

(** X2.  A fixed-stride request raises [ValueError] whenever the desired
    count is at most 1, exceeds [num_timesteps], or lies strictly between
    half of [num_timesteps] (rounded up) and [num_timesteps]; in particular
    it always does when [num_timesteps] is at most 1. *)
Theorem ddim_unsatisfiable (T : Z) (spec : string) (N : Z) :
  String.prefix "ddim" spec = true →
  Py.int (Py.drop_string 4 spec) = Ok N →
  N ≤ 1 ∨ T < N ∨ (T + 1) `div` 2 < N < T →
  space_timesteps T (SpecStr spec) = Raise ValueError.
Proof.
  intros Hpre Hint Hbad. unfold space_timesteps. rewrite Hpre, Hint.
  cbn [mbind result_bind].
  destruct (ddim_search_outcome T N (Py.range 1 T 1)) as [[S HS]|]; [|done].
  exfalso. apply ddim_search_inv in HS as (i & Hi & HN & _).
  apply elem_of_range_1 in Hi. subst N. unfold Py.range_len in Hbad.
  destruct (Z.ltb_spec 0 i); [|lia]. destruct (Z.ltb_spec 0 T); [|lia]. simpl in Hbad.
  replace (T - 0 - 1) with (T - 1) in Hbad by lia.
  assert (1 ≤ (T - 1) `div` i) by (apply Z.div_le_lower_bound; lia).
  assert ((T - 1) `div` i ≤ T - 1) by (apply Z.div_le_upper_bound; nia).
  destruct Hbad as [?|[?|[Hlo Hhi]]]; [lia|lia|].
  destruct (Z.eq_dec i 1) as [->|]; [rewrite Z.div_1_r in Hhi; lia|].
  assert ((T - 1) `div` i ≤ (T - 1) `div` 2) by (apply Z.div_le_compat_l; lia).
  assert ((T - 1) `div` 2 + 1 = (T + 1) `div` 2); [|lia].
  replace (T + 1) with (T - 1 + 1 * 2) by lia. rewrite Z.div_add by lia. lia.
Qed.

Lemma ddim_unsatisfiable_witness :
  space_timesteps 1000 (SpecStr "ddim1") = Raise ValueError
  ∧ space_timesteps 1000 (SpecStr "ddim600") = Raise ValueError
  ∧ space_timesteps 1 (SpecStr "ddim1") = Raise ValueError.
Proof.
  split; [|split].
  - apply (ddim_unsatisfiable 1000 "ddim1" 1); [reflexivity|reflexivity|]. left. lia.
  - apply (ddim_unsatisfiable 1000 "ddim600" 600); [reflexivity|reflexivity|].
    right. right. split; [|lia]. vm_compute. reflexivity.
  - apply (ddim_unsatisfiable 1 "ddim1" 1); [reflexivity|reflexivity|]. left. lia.
Defined.
End ddim_more.

(** ** Section-mode respacing: end points and full retention *)

Section sections_more.
Local Open Scope Z_scope.
Import Respace.

Lemma sections_loop_contains size_per extra counts : ∀ i start all_steps l,
  sections_loop size_per extra i start all_steps counts = Ok l →
  (∀ x, x ∈ all_steps → x ∈ l)
  ∧ ∀ (j : nat) c, counts !! j = Some c →
      c ≤ section_size size_per extra (i + Z.of_nat j)
      ∧ ∃ d taken,
          frac_stride_of (section_size size_per extra (i + Z.of_nat j)) c = Ok d
          ∧ take_steps (Z.to_nat c) (start + total_size size_per extra i j)
              (Float.Fin 0) d = Ok taken
          ∧ ∀ x, x ∈ taken → x ∈ l.
Proof.
  induction counts as [|c0 counts IH]; intros i start all_steps l Hl.
  { injection Hl as <-. split; [done|]. intros j c Hj. done. }
  cbn [sections_loop] in Hl. cbv zeta in Hl.
  destruct (Z.ltb_spec (section_size size_per extra i) c0) as [|Hge]; [done|].
  destruct (frac_stride_of _ c0) as [d0|] eqn:Hd0; [|done].
  cbn [mbind result_bind] in Hl.
  destruct (take_steps _ start _ d0) as [taken0|] eqn:Ht0; [|done].
  cbn [mbind result_bind] in Hl.
  destruct (IH _ _ _ _ Hl) as [Hall Hsec]. split.
  - intros x Hx. apply Hall, elem_of_app. by left.
  - intros [|j] c Hj.
    + injection Hj as <-. rewrite Z.add_0_r. split; [done|].
      exists d0, taken0. split; [done|].
      replace (start + total_size size_per extra i 0) with start by (simpl; lia).
      split; [done|]. intros x Hx. apply Hall, elem_of_app. by right.
    + destruct (Hsec j c Hj) as (Hle & d & taken & Hd & Ht & Hin).
      replace (i + Z.of_nat (S j)) with (i + 1 + Z.of_nat j) by lia.
      split; [done|]. exists d, taken. split; [done|]. split; [|done].
      by replace (start + total_size size_per extra i (S j))
        with (start + section_size size_per extra i
              + total_size size_per extra (i + 1) j) by (simpl; lia).
Qed.

(** X3.  In section mode, whenever the call returns, every section asked
    for at least one index contributes its first index; and for
    [num_timesteps] up to [2^24], where the float counter stays accurate,
    every section asked for at least two contributes its last index as
    well. *)
Theorem section_endpoints (T : Z) (spec : section_spec) (counts : list Z)
    (S : gset Z) (j : nat) (c : Z) :
  denotes_counts spec counts →
  space_timesteps T spec = Ok S →
  counts !! j = Some c →
  (1 ≤ c → start_of_section T counts j ∈ S)
  ∧ (2 ≤ c → T ≤ 2 ^ 24 →
     start_of_section T counts j + size_of_section T counts j - 1 ∈ S).
Proof.
  intros Hspec. rewrite (space_timesteps_denotes _ _ _ Hspec).
  unfold space_sections, start_of_section, size_of_section.
  destruct (Z.eqb_spec (Z.of_nat (length counts)) 0) as [|Hlen]; [done|].
  destruct (sections_loop _ _ 0 0 [] counts) as [l|] eqn:Hl; [|done].
  cbn [mbind result_bind]. intros [= <-] Hj.
  destruct (sections_loop_contains _ _ _ _ _ _ _ Hl) as [_ Hsec].
  destruct (Hsec j c Hj) as (Hle & d & taken & Hd & Ht & Hin). rewrite !Z.add_0_l in *.
  set (start := total_size _ _ 0 j) in *. set (size := section_size _ _ _) in *.
  split.
  - intros Hc. apply elem_of_list_to_set, Hin.
    destruct (Z.to_nat c) as [|n] eqn:En; [lia|]. cbn [take_steps Py.round] in Ht.
    cbn [mbind result_bind] in Ht. destruct (take_steps n _ _ _); [|done].
    cbn [mbind result_bind] in Ht. injection Ht as <-.
    change (Float.round_half_even 0) with 0. rewrite Z.add_0_r. left.
  - intros Hc HT. apply elem_of_list_to_set, Hin.
    assert (size ≤ 2 ^ 24) as Hsize.
    { pose proof (section_size_le T (length counts) (Z.of_nat j) ltac:(lia) ltac:(lia)).
      subst size. lia. }
    destruct (section_steps start size c Hle Hsize) as (d' & l' & Hd' & Hl' & _ & _ & Hlast).
    rewrite Hd in Hd'. injection Hd' as <-. rewrite Ht in Hl'. injection Hl' as <-.
    specialize (Hlast Hc). apply last_Some in Hlast as [l' ->].
    apply elem_of_app. right. left.
Qed.

Lemma section_endpoints_witness : ∃ S : gset Z,
  space_timesteps 300 (SpecStr "10,15,20") = Ok S ∧ 100 ∈ S ∧ 199 ∈ S.
Proof.
  destruct (space_timesteps 300 (SpecStr "10,15,20")) as [S|e] eqn:E;
    [|vm_compute in E; discriminate].
  exists S. split; [done|].
  destruct (section_endpoints 300 (SpecStr "10,15,20") [10; 15; 20] S 1%nat 15)
    as [Hfirst Hlast]; [by constructor|done|done|].
  split; [apply Hfirst; lia|apply Hlast; [lia|done]].
Defined.

(** Without the bound the last index can be lost: of
    [space_timesteps(2**53 + 4, [2])], which is [{0, 2**53 + 4}], the last
    timestep [2**53 + 3] is no element. *)
Example section_endpoints_long_schedule :
  ∃ S : gset Z, space_timesteps (2 ^ 53 + 4) (SpecList [2]) = Ok S ∧ 2 ^ 53 + 3 ∉ S.
Proof.
  exists (list_to_set [0; 2 ^ 53 + 4]). split; [vm_compute; reflexivity|].
  rewrite elem_of_list_to_set, !elem_of_cons, elem_of_nil. lia.
Qed.

Lemma single_section (T : Z) :
  ∃ d, (d == 1)%Q
       ∧ space_timesteps T (SpecList [T])
         = (all_steps ← take_steps (Z.to_nat T) 0 (Float.Fin 0) (Float.Fin d);
            Ok (list_to_set all_steps)).
Proof.
  unfold space_timesteps, space_sections. cbn [length].
  change (Z.of_nat 1 =? 0) with false. cbv iota. change (Z.of_nat 1) with 1.
  rewrite Z.div_1_r, Z.mod_1_r. cbn [sections_loop]. cbv zeta.
  unfold section_size. change (0 <? 0) with false. cbv iota. rewrite Z.add_0_r.
  rewrite Z.ltb_irrefl.
  assert (∃ d, frac_stride_of T T = Ok (Float.Fin d) ∧ (d == 1)%Q) as (d & -> & Hd).
  { unfold frac_stride_of. destruct (Z.leb_spec T 1) as [|HT2]; [by exists 1%Q|].
    unfold Py.true_div. destruct (Z.eqb_spec (T - 1) 0) as [|_]; [lia|].
    destruct (round64_int (inject_Z (T - 1) / inject_Z (T - 1)) 1) as (d & -> & Hd);
      [|lia|by exists d].
    field. change 0%Q with (inject_Z 0). rewrite inject_Z_injective. lia. }
  exists d. split; [done|]. cbn [mbind result_bind].
  by destruct (take_steps _ _ _ _).
Qed.

(** X4.  One section asked for all of its indices retains every timestep,
    as long as the float counter counts exactly: for [T] up to [2^53],
    [space_timesteps(T, [T])] is [set(range(T))].  From [2^53 + 2]
    timesteps on the counter never gets past [2^53], and the last timestep
    is not retained. *)
Theorem full_retention (T : Z) :
  (T ≤ 2 ^ 53 →
   space_timesteps T (SpecList [T]) = Ok (list_to_set (Py.range 0 T 1)))
  ∧ (2 ^ 53 + 2 ≤ T →
     ∃ S : gset Z, space_timesteps T (SpecList [T]) = Ok S ∧ T - 1 ∉ S).
Proof.
  destruct (single_section T) as (d & Hd & ->). split; intros HT.
  - rewrite (take_steps_unit_stride _ _ _ Hd 0) by (done || lia).
    cbn [mbind result_bind]. do 2 f_equal.
    destruct (Z.le_gt_cases T 0) as [Hle|Hgt].
    + replace (Z.to_nat T) with 0%nat by lia. unfold Py.range, Py.range_len.
      destruct (Z.ltb_spec 0 T); [lia|]. by rewrite andb_false_r.
    + rewrite <- (Z2Nat.id T) at 2 by lia. rewrite range_0_nat.
      apply list_fmap_ext. intros ? k _. lia.
  - rewrite (take_steps_unit_stride_stalls _ _ _ Hd 0) by (done || lia).
    cbn [mbind result_bind]. eexists. split; [done|].
    rewrite elem_of_list_to_set, list_elem_of_fmap. intros (j & Hj & _). lia.
Qed.

Lemma full_retention_witness :
  space_timesteps 5 (SpecList [5]) = Ok (list_to_set (Py.range 0 5 1)).
Proof. apply (full_retention 5). done. Defined.
End sections_more.

(** ** The derived schedule: which timesteps count, and full retention *)

Section derived_schedule_more.
Local Open Scope Z_scope.
Import SpacedDiffusion.

Lemma retained_from_agree use use' acp : ∀ i,
  (∀ x, i ≤ x < i + Z.of_nat (length acp) → (x ∈ use ↔ x ∈ use')) →
  retained_from use i acp = retained_from use' i acp.
Proof.
  induction acp as [|a acp IH]; intros i Hagree; [done|]. cbn [retained_from].
  rewrite (IH (i + 1)) by (intros x Hx; apply Hagree; simpl length; lia).
  pose proof (Hagree i ltac:(simpl length; lia)) as Hi.
  destruct (decide (i ∈ use)), (decide (i ∈ use')); tauto.
Qed.

(** X5.  Only the retained timesteps that are indices of the schedule
    matter: two retained sets that agree on [0, len(alphas_cumprod)) give
    the same derived schedule and the same [timestep_map], so negative or
    too large timesteps are ignored without any error. *)
Theorem respace_in_range_only (use use' : gset Z) (acp : list Q) :
  (∀ x, 0 ≤ x < Z.of_nat (length acp) → (x ∈ use ↔ x ∈ use')) →
  respace use acp = respace use' acp.
Proof.
  intros Hagree. unfold respace. rewrite !respace_loop_retained.
  by rewrite (retained_from_agree use use' acp 0).
Qed.

Lemma respace_in_range_only_witness :
  respace {[-3; 0; 2; 7]} [1 # 2; 1 # 4; 1 # 8]%Q
  = respace {[0; 2]} [1 # 2; 1 # 4; 1 # 8]%Q.
Proof.
  apply respace_in_range_only. intros x Hx. simpl in Hx.
  assert (x = 0 ∨ x = 1 ∨ x = 2) as [-> | [-> | ->]] by lia; set_solver.
Defined.

Lemma length_cumprod_from xs : ∀ acc,
  length (GaussianDiffusion.cumprod_from acc xs) = length xs.
Proof. induction xs as [|x xs IH]; intros acc; simpl; [done|by rewrite IH]. Qed.

Lemma length_alphas_cumprod betas :
  length (GaussianDiffusion.alphas_cumprod betas) = length betas.
Proof. unfold GaussianDiffusion.alphas_cumprod. by rewrite length_cumprod_from, length_fmap. Qed.

Lemma length_retained_from use acp : ∀ i,
  (length (retained_from use i acp) ≤ length acp)%nat.
Proof.
  induction acp as [|a acp IH]; intros i; cbn [retained_from length]; [lia|].
  specialize (IH (i + 1)). destruct (decide _); simpl; lia.
Qed.

(** X6.  The spaced process gets one step per distinct retained timestep:
    when every retained timestep is an index of the original schedule, the
    schedule handed to the base constructor and [timestep_map] both have as
    many entries as the retained set has elements, and never more than the
    original schedule. *)
Theorem spaced_num_timesteps (use : list Z) (kw_betas : list Q) (rescale : bool) :
  (∀ x, x ∈ use → 0 ≤ x < Z.of_nat (length kw_betas)) →
  let self := init use kw_betas rescale in
  length (betas self) = size (list_to_set use : gset Z)
  ∧ length (timestep_map self) = size (list_to_set use : gset Z)
  ∧ (length (betas self) ≤ length kw_betas)%nat.
Proof.
  intros Hrange self. subst self. unfold init, respace.
  rewrite respace_loop_retained. cbn [app betas timestep_map].
  set (acp := GaussianDiffusion.alphas_cumprod kw_betas).
  set (ret := retained_from (list_to_set use) 0 acp).
  assert (length ret.*1 = size (list_to_set use : gset Z)) as Hsize.
  { rewrite <- (size_list_to_set (C := gset Z) ret.*1)
      by apply StronglySorted_lt_NoDup, retained_from_sorted.
    f_equal. apply set_eq. intros x. rewrite elem_of_list_to_set.
    unfold ret. rewrite retained_from_elem. unfold acp.
    rewrite length_alphas_cumprod, elem_of_list_to_set.
    split; [tauto|]. intros Hx. split; [done|]. by apply Hrange. }
  rewrite new_betas_of_length, !length_fmap in *. split; [done|]. split; [done|].
  pose proof (length_retained_from (list_to_set use) acp 0) as Hle.
  fold ret in Hle. unfold acp in Hle. by rewrite length_alphas_cumprod in Hle.
Qed.

Lemma spaced_num_timesteps_witness :
  length (betas (init [2; 0; 2] [1 # 2; 1 # 2; 1 # 2]%Q false))
  = size (list_to_set [2; 0; 2] : gset Z).
Proof.
  apply (spaced_num_timesteps [2; 0; 2] [1 # 2; 1 # 2; 1 # 2]%Q false).
  intros x Hx. simpl. set_unfold in Hx. lia.
Defined.

Lemma retained_from_all use acp : ∀ i,
  (∀ x, i ≤ x < i + Z.of_nat (length acp) → x ∈ use) →
  retained_from use i acp = zip ((λ k : nat, i + Z.of_nat k) <$> seq 0 (length acp)) acp.
Proof.
  induction acp as [|a acp IH]; intros i Hall; [done|].
  cbn [retained_from length]. rewrite decide_True by (apply Hall; simpl length; lia).
  rewrite <- cons_seq, fmap_cons. cbn [zip zip_with]. f_equal; [f_equal; lia|].
  rewrite (IH (i + 1)) by (intros x Hx; apply Hall; simpl length; lia).
  f_equal. rewrite <- fmap_S_seq, <- list_fmap_compose.
  apply list_fmap_ext. intros _ k _. simpl. lia.
Qed.

Lemma betas_of_cumprod betas : ∀ acc,
  ¬ (acc == 0)%Q → Forall (λ beta, ¬ (beta == 1)%Q) betas →
  Forall2 Qeq
    (betas_of acc (GaussianDiffusion.cumprod_from acc ((λ beta, 1 - beta)%Q <$> betas)))
    betas.
Proof.
  induction betas as [|b betas IH]; intros acc Hacc Hb; [constructor|].
  apply Forall_cons in Hb as [Hb Hbs]. cbn [fmap list_fmap GaussianDiffusion.cumprod_from betas_of].
  constructor.
  - field. done.
  - apply IH; [|done]. intros E. apply Hb.
    destruct (Qmult_integral _ _ E) as [E'|E']; [done|]. qlra.
Qed.

Lemma cumprod_from_nonzero betas : ∀ acc,
  ¬ (acc == 0)%Q → Forall (λ beta, ¬ (beta == 1)%Q) betas →
  Forall (λ a, ¬ (a == 0)%Q)
    (GaussianDiffusion.cumprod_from acc ((λ beta, 1 - beta)%Q <$> betas)).
Proof.
  induction betas as [|b betas IH]; intros acc Hacc Hb; [constructor|].
  apply Forall_cons in Hb as [Hb Hbs]. cbn [fmap list_fmap GaussianDiffusion.cumprod_from].
  assert (¬ (acc * (1 - b) == 0)%Q) as Hnz.
  { intros E. apply Hb. destruct (Qmult_integral _ _ E) as [E'|E']; [done|]. qlra. }
  constructor; [done|]. by apply IH.
Qed.

(** X7.  Retaining every timestep reproduces the original schedule: when no
    noise increment equals one, the derived increments are finite and
    equal, as rationals, to the original ones, and [timestep_map] is the
    identity [0, 1, ..., len(betas) - 1]. *)
Theorem respace_identity (use : list Z) (kw_betas : list Q) (rescale : bool) :
  (∀ x, 0 ≤ x < Z.of_nat (length kw_betas) → x ∈ use) →
  Forall (λ beta, ¬ (beta == 1)%Q) kw_betas →
  let self := init use kw_betas rescale in
  (∃ new_betas : list Q,
     betas self = Float.Fin <$> new_betas ∧ Forall2 Qeq new_betas kw_betas)
  ∧ timestep_map self = Z.of_nat <$> seq 0 (length kw_betas).
Proof.
  intros Hall Hbetas self. subst self. unfold init, respace.
  rewrite respace_loop_retained. cbn [app betas timestep_map].
  rewrite retained_from_all.
  2:{ intros x Hx. rewrite length_alphas_cumprod in Hx.
      apply elem_of_list_to_set, Hall. lia. }
  rewrite length_alphas_cumprod.
  rewrite snd_zip by (rewrite length_fmap, length_seq, length_alphas_cumprod; lia).
  rewrite fst_zip by (rewrite length_fmap, length_seq, length_alphas_cumprod; lia).
  split.
  - exists (betas_of 1 (GaussianDiffusion.alphas_cumprod kw_betas)). split.
    + apply new_betas_of_nonzero; [done|]. by apply cumprod_from_nonzero.
    + by apply betas_of_cumprod.
  - apply list_fmap_ext. intros _ k _. lia.
Qed.

Lemma respace_identity_witness :
  (∃ new_betas : list Q,
     betas (init [0; 1; 2] [1 # 10; 1 # 5; 1 # 2]%Q false) = Float.Fin <$> new_betas
     ∧ Forall2 Qeq new_betas [1 # 10; 1 # 5; 1 # 2]%Q)
  ∧ timestep_map (init [0; 1; 2] [1 # 10; 1 # 5; 1 # 2]%Q false) = [0; 1; 2].
Proof.
  apply (respace_identity [0; 1; 2] [1 # 10; 1 # 5; 1 # 2]%Q false).
  - intros x Hx. simpl in Hx. rewrite !elem_of_cons. lia.
  - repeat constructor; discriminate.
Defined.
End derived_schedule_more.

(** ** The model timestep adapter: what the denoiser is called with *)

Section adapter_more.
Import SpacedDiffusion WrappedModel.
Local Open Scope Z_scope.
Context {X Y : Type}.

Lemma index1_in_range (tm : list Z) i :
  0 ≤ i < Z.of_nat (length tm) →
  ∃ v, index1 tm i = Ok v ∧ tm !! Z.to_nat i = Some v.
Proof.
  intros Hi. unfold index1.
  destruct (Z.leb_spec (- Z.of_nat (length tm)) i) as [_|]; [|lia].
  destruct (Z.ltb_spec i (Z.of_nat (length tm))) as [_|]; [|lia]. cbn [andb].
  rewrite Z.mod_small by lia.
  destruct (lookup_lt_is_Some_2 tm (Z.to_nat i)) as [v Hv]; [lia|].
  rewrite Hv. by exists v.
Qed.

Lemma index1_out_of_range (tm : list Z) i :
  i < - Z.of_nat (length tm) ∨ Z.of_nat (length tm) ≤ i →
  index1 tm i = Raise IndexError.
Proof.
  intros Hi. unfold index1.
  destruct (Z.leb_spec (- Z.of_nat (length tm)) i),
    (Z.ltb_spec i (Z.of_nat (length tm))); cbn [andb]; try done; lia.
Qed.

Lemma index1_raises (tm : list Z) i e : index1 tm i = Raise e → e = IndexError.
Proof. unfold index1. repeat case_match; congruence. Qed.

Lemma index1_negative (tm : list Z) i :
  - Z.of_nat (length tm) ≤ i < 0 → index1 tm i = index1 tm (i + Z.of_nat (length tm)).
Proof.
  intros Hi. unfold index1.
  destruct (Z.leb_spec (- Z.of_nat (length tm)) i) as [_|]; [|lia].
  destruct (Z.ltb_spec i (Z.of_nat (length tm))) as [_|]; [|lia].
  destruct (Z.leb_spec (- Z.of_nat (length tm)) (i + Z.of_nat (length tm))) as [_|]; [|lia].
  destruct (Z.ltb_spec (i + Z.of_nat (length tm)) (Z.of_nat (length tm))) as [_|]; [|lia].
  cbn [andb].
  replace ((i + Z.of_nat (length tm)) `mod` Z.of_nat (length tm))
    with (i `mod` Z.of_nat (length tm)); [done|].
  rewrite <- (Z.mod_add i 1 (Z.of_nat (length tm))) by lia. f_equal. lia.
Qed.

Lemma mapM_index1_in_range (tm ts : list Z) :
  Forall (λ i, 0 ≤ i < Z.of_nat (length tm)) ts →
  ∃ new_ts, mapM_result (index1 tm) ts = Ok new_ts
            ∧ Forall2 (λ i v, tm !! Z.to_nat i = Some v) ts new_ts.
Proof.
  induction 1 as [|i ts Hi _ (new_ts & IH & Hall)]; [by exists []|].
  destruct (index1_in_range tm i Hi) as (v & Hv & Hlook).
  exists (v :: new_ts). cbn [mapM_result]. rewrite Hv. cbn [mbind result_bind].
  rewrite IH. by split; [|constructor].
Qed.

Lemma mapM_index1_out_of_range (tm ts : list Z) :
  Exists (λ i, i < - Z.of_nat (length tm) ∨ Z.of_nat (length tm) ≤ i) ts →
  mapM_result (index1 tm) ts = Raise IndexError.
Proof.
  induction 1 as [i ts Hi|i ts _ IH]; cbn [mapM_result].
  - by rewrite index1_out_of_range.
  - destruct (index1 tm i) as [v|e] eqn:Hv; cbn [mbind result_bind].
    + by rewrite IH.
    + by rewrite (index1_raises _ _ _ Hv).
Qed.

Lemma sorted_lookup_lt (l : list Z) : StronglySorted Z.lt l →
  ∀ (j k : nat) a b, l !! j = Some a → l !! k = Some b → (j < k)%nat → a < b.
Proof.
  induction 1 as [|x l _ IH Hx]; intros j k a b Hj Hk Hjk; [done|].
  destruct k as [|k]; [lia|]. simpl in Hk. destruct j as [|j]; simpl in Hj.
  - injection Hj as <-. rewrite Forall_forall in Hx. apply Hx.
    by eapply list_elem_of_lookup_2.
  - eapply IH; [done..|lia].
Qed.

Lemma init_fields use kw_betas rescale :
  let self := init use kw_betas rescale in
  timestep_map self
  = (retained_from (list_to_set use) 0 (GaussianDiffusion.alphas_cumprod kw_betas)).*1
  ∧ rescale_timesteps self = rescale
  ∧ original_num_steps self = Z.of_nat (length kw_betas).
Proof. unfold init, respace. by rewrite respace_loop_retained. Qed.

(** X8.  A denoiser wrapped by a spaced process that does not rescale is
    called with original timesteps only: spaced step [i] is translated to
    the [i]-th smallest retained timestep, which is a retained index of the
    original schedule, and a later spaced step is a later original
    timestep. *)
Theorem wrapped_model_timesteps (use : list Z) (kw_betas : list Q)
    (f : X → timesteps → result Y) (x : X) (ts : list Z) :
  let self := init use kw_betas false in
  Forall (λ i, 0 ≤ i < Z.of_nat (length (timestep_map self))) ts →
  ∃ new_ts,
    call (_wrap_model self (Raw f)) x (IntTs ts) = f x (IntTs new_ts)
    ∧ Forall2 (λ i v, timestep_map self !! Z.to_nat i = Some v) ts new_ts
    ∧ Forall (λ v, v ∈ use ∧ 0 ≤ v < Z.of_nat (length kw_betas)) new_ts
    ∧ ∀ (j k : nat) i i' v v',
        ts !! j = Some i → ts !! k = Some i' →
        new_ts !! j = Some v → new_ts !! k = Some v' → i < i' → v < v'.
Proof.
  intros self Hts. destruct (mapM_index1_in_range _ _ Hts) as (new_ts & Hmap & Hall).
  destruct (init_fields use kw_betas false) as (Htm & Hr & _). fold self in Htm, Hr.
  exists new_ts. split.
  { cbn [_wrap_model call translate]. rewrite Hmap, Hr. done. }
  split; [done|]. split.
  - apply Forall_forall. intros v Hv.
    apply list_elem_of_lookup in Hv as [j Hj].
    destruct (Forall2_lookup_r _ _ _ _ _ Hall Hj) as (i & _ & Hlook).
    apply list_elem_of_lookup_2 in Hlook. rewrite Htm in Hlook.
    apply retained_from_elem in Hlook as [Hin Hrange].
    rewrite length_alphas_cumprod in Hrange. by apply elem_of_list_to_set in Hin.
  - intros j k i i' v v' Hj Hk Hvj Hvk Hlt.
    destruct (Forall2_lookup_l _ _ _ _ _ Hall Hj) as (w & Hw & Hi).
    destruct (Forall2_lookup_l _ _ _ _ _ Hall Hk) as (w' & Hw' & Hi').
    simplify_eq. rewrite Forall_forall in Hts.
    pose proof (Hts i (list_elem_of_lookup_2 _ _ _ Hj)).
    eapply (sorted_lookup_lt (timestep_map self)); [|done|done|lia].
    rewrite Htm. apply retained_from_sorted.
Qed.

(** X9.  A timestep that is not an index of [timestep_map] makes the call
    raise [IndexError], whatever the wrapped model is: it is not called. *)
Theorem wrapped_model_index_error (inner : model X Y) (tm : list Z) (rescale : bool)
    (n : Z) (x : X) (ts : list Z) :
  Exists (λ i, i < - Z.of_nat (length tm) ∨ Z.of_nat (length tm) ≤ i) ts →
  call (Wrapped inner tm rescale n) x (IntTs ts) = Raise IndexError.
Proof.
  intros Hts. cbn [call translate]. by rewrite mapM_index1_out_of_range.
Qed.

(** X10.  A negative timestep counts from the end of [timestep_map]: the
    call with timesteps in [-len(timestep_map), 0) is the call with each of
    them increased by [len(timestep_map)]. *)
Theorem wrapped_model_negative_timesteps (inner : model X Y) (tm : list Z)
    (rescale : bool) (n : Z) (x : X) (ts : list Z) :
  Forall (λ i, - Z.of_nat (length tm) ≤ i < 0) ts →
  call (Wrapped inner tm rescale n) x (IntTs ts)
  = call (Wrapped inner tm rescale n) x
      (IntTs ((λ i, i + Z.of_nat (length tm)) <$> ts)).
Proof.
  intros Hts. cbn [call translate].
  assert (mapM_result (index1 tm) ts
          = mapM_result (index1 tm) ((λ i, i + Z.of_nat (length tm)) <$> ts)) as ->; [|done].
  induction Hts as [|i ts Hi _ IH]; [done|].
  rewrite fmap_cons. cbn [mapM_result]. by rewrite IH, (index1_negative tm i Hi).
Qed.

(** X11.  With [rescale_timesteps] set, the denoiser of a spaced process is
    called with float timesteps in [0, 1000): each is the original timestep
    times [1000 / original_num_steps]. *)
Theorem wrapped_model_rescaled (use : list Z) (kw_betas : list Q)
    (f : X → timesteps → result Y) (x : X) (ts : list Z) :
  let self := init use kw_betas true in
  ts ≠ [] →
  Forall (λ i, 0 ≤ i < Z.of_nat (length (timestep_map self))) ts →
  ∃ new_ts,
    call (_wrap_model self (Raw f)) x (IntTs ts) = f x (FloatTs new_ts)
    ∧ Forall2 (λ i q, ∃ v, timestep_map self !! Z.to_nat i = Some v
                          ∧ q = (inject_Z v * (1000 / inject_Z (Z.of_nat (length kw_betas))))%Q)
        ts new_ts
    ∧ Forall (λ q, (0 <= q)%Q ∧ (q < 1000)%Q) new_ts.
Proof.
  intros self Hne Hts. destruct (mapM_index1_in_range _ _ Hts) as (mapped & Hmap & Hall).
  destruct (init_fields use kw_betas true) as (Htm & Hr & Hn). fold self in Htm, Hr, Hn.
  assert (Forall (λ v, 0 ≤ v < Z.of_nat (length kw_betas)) mapped) as Hrange.
  { apply Forall_forall. intros v Hv.
    apply list_elem_of_lookup in Hv as [j Hj].
    destruct (Forall2_lookup_r _ _ _ _ _ Hall Hj) as (i & _ & Hlook).
    apply list_elem_of_lookup_2 in Hlook. rewrite Htm in Hlook.
    apply retained_from_elem in Hlook as [_ Hrange].
    by rewrite length_alphas_cumprod in Hrange. }
  assert (0 < Z.of_nat (length kw_betas)) as Hpos.
  { destruct ts as [|i ts]; [done|]. apply Forall2_cons_inv_l in Hall as (v & ? & _ & _ & ->).
    apply Forall_cons in Hrange as [? _]. lia. }
  eexists. split.
  { cbn [_wrap_model call translate]. rewrite Hmap. cbn [mbind result_bind].
    rewrite Hr, Hn. destruct (Z.eqb_spec (Z.of_nat (length kw_betas)) 0) as [|_]; [lia|].
    cbn [mbind result_bind call]. done. }
  split.
  { apply Forall2_fmap_r. eapply Forall2_impl; [done|]. intros i v Hv. by exists v. }
  apply Forall_fmap. eapply Forall_impl; [done|]. intros v [Hv0 Hvn]. simpl.
  assert (0 < inject_Z (Z.of_nat (length kw_betas)))%Q as HnQ.
  { change 0%Q with (inject_Z 0). by rewrite <- Zlt_Qlt. }
  assert (0 <= inject_Z v)%Q as Hv0Q.
  { change 0%Q with (inject_Z 0). by rewrite <- Zle_Qle. }
  assert (inject_Z v < inject_Z (Z.of_nat (length kw_betas)))%Q as HvnQ.
  { by rewrite <- Zlt_Qlt. }
  set (a := inject_Z v) in *. set (b := inject_Z (Z.of_nat (length kw_betas))) in *.
  assert (a * (1000 / b) == (1000 * a) / b)%Q as -> by (field; qlra).
  split.
  - apply Qle_shift_div_l; [done|]. qlra.
  - apply Qlt_shift_div_r; [done|]. qlra.
Qed.
End adapter_more.

Section adapter_more_examples.
Import SpacedDiffusion WrappedModel.
Local Open Scope Z_scope.

Lemma wrapped_model_timesteps_witness :
  ∃ new_ts,
    call (_wrap_model (init [0; 2] [1 # 2; 1 # 2; 1 # 2]%Q false)
            (Raw (λ (x : unit) ts, Ok ts))) tt (IntTs [1; 0])
    = Ok (IntTs new_ts)
    ∧ Forall (λ v, v ∈ [0; 2] ∧ 0 ≤ v < 3) new_ts.
Proof.
  destruct (wrapped_model_timesteps [0; 2] [1 # 2; 1 # 2; 1 # 2]%Q
              (λ (x : unit) ts, Ok ts) tt [1; 0]) as (new_ts & Hcall & _ & Hin & _).
  - repeat constructor; vm_compute; congruence.
  - by exists new_ts.
Defined.

Lemma wrapped_model_index_error_witness :
  call (Wrapped (Raw (λ (x : unit) ts, Ok ts)) [0; 20; 40] false 100) tt (IntTs [1; 3])
  = Raise IndexError.
Proof.
  apply wrapped_model_index_error. apply Exists_cons_tl, Exists_cons_hd.
  right. simpl. lia.
Defined.

Lemma wrapped_model_negative_timesteps_witness :
  call (Wrapped (Raw (λ (x : unit) ts, Ok ts)) [0; 20; 40] false 100) tt (IntTs [-1])
  = call (Wrapped (Raw (λ (x : unit) ts, Ok ts)) [0; 20; 40] false 100) tt (IntTs [2]).
Proof.
  apply (wrapped_model_negative_timesteps (Raw (λ (x : unit) ts, Ok ts))
           [0; 20; 40] false 100 tt [-1]).
  repeat constructor; simpl; lia.
Defined.

Lemma wrapped_model_rescaled_witness :
  ∃ new_ts,
    call (_wrap_model (init [0; 2] [1 # 2; 1 # 2; 1 # 2]%Q true)
            (Raw (λ (x : unit) ts, Ok ts))) tt (IntTs [1; 0])
    = Ok (FloatTs new_ts)
    ∧ Forall (λ q, (0 <= q)%Q ∧ (q < 1000)%Q) new_ts.
Proof.
  destruct (wrapped_model_rescaled [0; 2] [1 # 2; 1 # 2; 1 # 2]%Q
              (λ (x : unit) ts, Ok ts) tt [1; 0]) as (new_ts & Hcall & _ & Hin).
  - discriminate.
  - repeat constructor; vm_compute; congruence.
  - by exists new_ts.
Defined.
End adapter_more_examples.

(** ** The two losses on tensors of one shape *)

Section losses_more.
Import Tensor.
Local Open Scope R_scope.

(** The weight the Poisson loss gives to an entry whose observation is
    [v]. *)
Local Abbreviation poisson_weight := (λ v : R, 1 / (2 * Rmax (Rabs v) (1 / 100))).

Lemma mse_same_shape (a b : tensor) :
  shape a = shape b → wf a → wf b →
  Loss.MSELoss_sum a b = Ok (sum_list (sq <$> zip_with Rminus (data a) (data b))).
Proof.
  intros Hs Wa Wb. unfold Loss.MSELoss_sum, Tensor.sub.
  by rewrite binop_same.
Qed.

Lemma poisson_same_shape (a b : tensor) :
  shape a = shape b → wf a → wf b →
  Loss.PoissonMseLoss_forward a b
  = Ok (sum_list (zip_with Rmult
                    (zip_with Rmult (poisson_weight <$> data b)
                       (zip_with Rminus (data a) (data b)))
                    (zip_with Rminus (data a) (data b)))).
Proof.
  intros Hs Wa Wb. unfold Loss.PoissonMseLoss_forward.
  rewrite decide_True by done. unfold Tensor.sub, Tensor.mul.
  rewrite (binop_same Rminus a b) by done. cbn [mbind result_bind].
  assert (length (zip_with Rminus (data a) (data b)) = numel (shape b)) as Hlen.
  { rewrite length_zip_with, Wa, Wb, Hs. lia. }
  rewrite binop_same.
  2:{ cbn [shape Tensor.map]. done. }
  2:{ unfold wf, Tensor.map. cbn [shape data]. by rewrite length_fmap. }
  2:{ unfold wf. cbn [shape data]. by rewrite Hs. }
  cbn [mbind result_bind].
  rewrite binop_same.
  - done.
  - cbn [shape Tensor.map]. done.
  - unfold wf, Tensor.map. cbn [shape data].
    rewrite length_zip_with, length_fmap, Hlen, Wb. lia.
  - unfold wf. cbn [shape data]. by rewrite Hs.
Qed.

Lemma zip_minus_zero (xs : list R) : ∀ ys,
  length xs = length ys →
  Forall (λ v, v = 0) (zip_with Rminus xs ys) ↔ xs = ys.
Proof.
  induction xs as [|x xs IH]; intros [|y ys] Hlen; simpl in Hlen; try lia.
  { split; [done|constructor]. }
  cbn [zip_with]. rewrite Forall_cons, IH by lia. split.
  - intros [Hxy ->]. f_equal. rlra.
  - intros [= -> ->]. split; [rlra|done].
Qed.

Lemma sum_sq_of_zero (d : list R) : Forall (λ v, v = 0) d → sum_list (sq <$> d) = 0.
Proof.
  induction 1 as [|v d -> _ IH]; [done|]. rewrite fmap_cons, sum_list_cons, IH.
  unfold sq. rlra.
Qed.

Lemma weighted_sq_bounds (lo hi : R) (d : list R) : ∀ W,
  Forall (λ w, lo <= w <= hi) W → length W = length d →
  lo * sum_list (sq <$> d) <= sum_list (zip_with Rmult (zip_with Rmult W d) d)
  <= hi * sum_list (sq <$> d).
Proof.
  induction d as [|v d IH]; intros [|w W] HW Hlen; simpl in Hlen; try lia.
  { cbn. rlra. }
  apply Forall_cons in HW as [Hw HW]. specialize (IH W HW ltac:(lia)).
  cbn [zip_with]. rewrite fmap_cons, !sum_list_cons. unfold sq at 1 3.
  pose proof (Rle_0_sqr v) as Hv. unfold Rsqr in Hv.
  assert (lo * (v * v) <= w * v * v <= hi * (v * v)) as Hstep.
  { rewrite Rmult_assoc. split; apply Rmult_le_compat_r; tauto. }
  rlra.
Qed.

Lemma poisson_weight_bounds (v M : R) :
  1 / 100 <= M → Rabs v <= M → 1 / (2 * M) <= poisson_weight v <= 50.
Proof.
  intros HM Hv. cbv beta. pose proof (Rmax_r (Rabs v) (1 / 100)) as Hr.
  assert (Rmax (Rabs v) (1 / 100) <= M) as Hl by (by apply Rmax_lub).
  set (m := Rmax (Rabs v) (1 / 100)) in *.
  assert (0 < m) by rlra. assert (0 < M) by rlra.
  unfold Rdiv. rewrite !Rmult_1_l. split.
  - apply Rinv_le_contravar; rlra.
  - replace 50 with (/ (2 * / 100)) by field. apply Rinv_le_contravar; rlra.
Qed.

(** X12.  On well-formed tensors of one shape either loss returns, and it
    returns zero exactly when the prediction equals the observation entry
    by entry. *)
Theorem loss_zero_iff (k : Loss.measurement_loss) (a b : tensor) :
  shape a = shape b → wf a → wf b →
  ∃ l, Loss.call k a b = Ok l ∧ (l = 0 ↔ data a = data b).
Proof.
  intros Hs Wa Wb.
  assert (length (data a) = length (data b)) as Hlen by (rewrite Wa, Wb; by rewrite Hs).
  destruct k; cbn [Loss.call].
  - rewrite mse_same_shape by done. eexists. split; [done|].
    rewrite <- zip_minus_zero by done. split.
    + intros Hz. apply sum_sq_zero. rlra.
    + apply sum_sq_of_zero.
  - rewrite poisson_same_shape by done. eexists. split; [done|].
    rewrite <- zip_minus_zero by done. split.
    + intros Hz. apply sum_sq_zero.
      assert (∃ M, 1 / 100 <= M ∧ Forall (λ v, Rabs v <= M) (data b)) as (M & HM & Hall).
      { clear. induction (data b) as [|v l (M & HM & Hall)].
        - exists (1 / 100). split; [rlra|constructor].
        - exists (Rmax M (Rabs v)). pose proof (Rmax_l M (Rabs v)). pose proof (Rmax_r M (Rabs v)).
          split; [rlra|]. constructor; [done|].
          eapply Forall_impl; [done|]. simpl. intros. rlra. }
      pose proof (weighted_sq_bounds (1 / (2 * M)) 50 (zip_with Rminus (data a) (data b))
                    (poisson_weight <$> data b)) as [Hb _].
      * apply Forall_fmap. eapply Forall_impl; [done|]. intros v Hv.
        by apply poisson_weight_bounds.
      * rewrite length_fmap, length_zip_with. lia.
      * rewrite Hz in Hb.
        assert (0 < 1 / (2 * M)) as Hpos by (apply Rdiv_lt_0_compat; rlra).
        pose proof (sum_sq_nonneg (zip_with Rminus (data a) (data b))) as Hnn.
        destruct (Rle_dec (sum_list (sq <$> zip_with Rminus (data a) (data b))) 0) as [|Hgt];
          [done|].
        assert (0 < 1 / (2 * M) * sum_list (sq <$> zip_with Rminus (data a) (data b)))
          by (apply Rmult_lt_0_compat; rlra).
        rlra.
    + intros Hz. by apply weighted_sq_zero.
Qed.

Lemma loss_zero_iff_witness :
  ∃ l, Loss.call Loss.PoissonMseLoss (pixel 3) (pixel 3) = Ok l ∧ (l = 0 ↔ [3] = [3]).
Proof. apply (loss_zero_iff Loss.PoissonMseLoss (pixel 3) (pixel 3)); reflexivity. Defined.

(** X13.  On well-formed tensors of one shape the Poisson loss is at most
    fifty times the Gaussian loss, and at least [1 / (2 M)] times it when no
    observed entry exceeds [M >= 0.01] in magnitude. *)
Theorem poisson_loss_bounds (a b : tensor) (M : R) :
  shape a = shape b → wf a → wf b →
  1 / 100 <= M → Forall (λ v, Rabs v <= M) (data b) →
  ∃ lp lg,
    Loss.call Loss.PoissonMseLoss a b = Ok lp
    ∧ Loss.call Loss.MSELoss a b = Ok lg
    ∧ 1 / (2 * M) * lg <= lp <= 50 * lg.
Proof.
  intros Hs Wa Wb HM Hall. cbn [Loss.call].
  rewrite poisson_same_shape, mse_same_shape by done.
  eexists _, _. split; [done|]. split; [done|].
  apply weighted_sq_bounds.
  - apply Forall_fmap. eapply Forall_impl; [done|]. intros v Hv.
    by apply poisson_weight_bounds.
  - rewrite length_fmap, length_zip_with, Wa, Wb, Hs. lia.
Qed.

Lemma poisson_loss_bounds_witness :
  ∃ lp lg,
    Loss.call Loss.PoissonMseLoss (pixel 3) (pixel 1) = Ok lp
    ∧ Loss.call Loss.MSELoss (pixel 3) (pixel 1) = Ok lg
    ∧ 1 / (2 * 1) * lg <= lp <= 50 * lg.
Proof.
  apply (poisson_loss_bounds (pixel 3) (pixel 1) 1); try reflexivity.
  - rlra.
  - apply Forall_singleton. rewrite Rabs_R1. apply Rle_refl.
Defined.
End losses_more.

(** ** The ancestral sampler: shapes and interrupted runs *)

Section ancestral_loop_more.
Import Tensor DiffusionPosteriorSampling.
Local Open Scope R_scope.
Context (p_mean_variance :
           WrappedModel.model tensor tensor → tensor → list Z → result moments).
Context (autograd_grad : tensor → list Z → tensor → result tensor).
Context (randn : nat → list nat → tensor).

Local Abbreviation step := (p_sample p_mean_variance autograd_grad randn).
Local Abbreviation steps := (sample_steps p_mean_variance autograd_grad randn).
Local Abbreviation progressive :=
  (p_sample_loop_progressive p_mean_variance autograd_grad randn).
Local Abbreviation loop := (p_sample_loop p_mean_variance autograd_grad randn).


Lemma indices_length (T : nat) :
  length (reverse (Py.range 0 (Z.of_nat T) 1)) = T.
Proof. by rewrite range_0_nat, length_reverse, length_fmap, length_seq. Qed.

(** X14.  On a non-empty schedule and a batch shape, [p_sample_loop]
    returns a well-formed tensor of the shape that was asked for, provided
    every step can be taken: on samples of that shape and at every timestep
    of the schedule, the moments of the wrapped denoiser and the gradient of
    the measurement loss come back in the sample's shape, the loss accepts
    the measurement of the clean-signal estimate, and the noise has the
    shape asked for. *)
Theorem p_sample_loop_shape (self : DiffusionPosteriorSampling.t)
    (model : WrappedModel.model tensor tensor) (B : nat) (rest : list nat) :
  num_timesteps self ≠ 0%nat →
  steps_return p_mean_variance autograd_grad randn self model (B :: rest) →
  ∃ x, loop self model (B :: rest) = Ok x ∧ shaped (B :: rest) x.
Proof.
  intros HT Hc. unfold p_sample_loop, p_sample_loop_progressive.
  pose proof (indices_length (num_timesteps self)) as Hidx.
  pose proof (indices_in_range (num_timesteps self)) as Hrange.
  rewrite <- range_0_nat in Hrange.
  destruct (reverse (Py.range 0 (Z.of_nat (num_timesteps self)) 1))
    as [|i0 indices] eqn:E; [simpl in Hidx; lia|].
  destruct (sample_steps_shaped p_mean_variance autograd_grad randn
              self model B rest (i0 :: indices) Hc Hrange
              (randn 0%nat (B :: rest)) 1%nat) as (records & -> & Hlen & Hall).
  { apply Hc. }
  destruct (last records) as [final|] eqn:Hlast.
  - exists (step_sample final). split; [done|].
    rewrite Forall_forall in Hall. apply Hall.
    rewrite last_lookup in Hlast. by eapply list_elem_of_lookup_2.
  - apply last_None in Hlast. subst records. done.
Qed.

End ancestral_loop_more.

Section ancestral_loop_more_examples.
Import Tensor DiffusionPosteriorSampling.
Local Open Scope R_scope.

(** The moments that call the wrapped denoiser fail at a timestep outside
    the schedule, and return at the two timesteps of the schedule. *)
Lemma called_steps_return :
  called_moments
    (WrappedModel._wrap_model (diffusion (identity_sampler Loss.MSELoss (pixel 0))) toy_model)
    (pixel 0) [2%Z] = Raise IndexError
  ∧ steps_return called_moments toy_grad toy_randn
      (identity_sampler Loss.MSELoss (pixel 0)) toy_model [1; 1; 1; 1]%nat.
Proof.
  split; [reflexivity|]. split; [|intros k; by split].
  intros x i [Hs Wx] Hi t.
  change (Z.of_nat (num_timesteps (identity_sampler Loss.MSELoss (pixel 0)))) with 2%Z in Hi.
  assert (called_moments
            (WrappedModel._wrap_model
               (diffusion (identity_sampler Loss.MSELoss (pixel 0))) toy_model) x t
          = Ok (mk_moments x x x)) as Hout.
  { subst t. assert (i = 0 ∨ i = 1)%Z as [-> | ->] by lia; reflexivity. }
  exists (mk_moments x x x). split; [done|]. split; [done|]. split; [done|].
  split; [|by exists x].
  exists x. cbn [pred_xstart measurement_model identity_sampler].
  unfold to_4d. rewrite Hs. cbn [measurement measurement_loss identity_sampler Loss.call].
  unfold Loss.MSELoss_sum, Tensor.sub.
  destruct (decide (length [1; 1; 1; 1]%nat ≠ 4%nat)) as [Hne|_]; [done|].
  destruct (decide (length (shape (pixel 0)) ≠ 4%nat)) as [Hne|_]; [done|].
  rewrite (binop_same Rminus x (pixel 0)) by done. by eexists.
Qed.

Lemma p_sample_loop_shape_witness :
  ∃ x, p_sample_loop called_moments toy_grad toy_randn
         (identity_sampler Loss.MSELoss (pixel 0)) toy_model [1; 1; 1; 1]%nat = Ok x
       ∧ shaped [1; 1; 1; 1]%nat x.
Proof.
  apply (p_sample_loop_shape called_moments toy_grad toy_randn
           (identity_sampler Loss.MSELoss (pixel 0)) toy_model 1 [1; 1; 1]%nat).
  - vm_compute. discriminate.
  - apply called_steps_return.
Defined.

End ancestral_loop_more_examples.

(** ** The multistep-solver sampler: orders and the net correction *)

Section multistep_update_more.
Import Tensor DPMDiffusionPosteriorSampling.
Local Open Scope R_scope.
Context {Solver ModelOutput : Type}.
Context (ddpm_model : tensor → list Z → result tensor).
Context (_predict_xstart_from_eps : tensor → list Z → tensor → result tensor).
Context (dpm_solver_first_update :
           Solver → tensor → tensor → tensor → ModelOutput → result tensor).
Context (multistep_dpm_solver_second_update multistep_dpm_solver_third_update :
           Solver → tensor → list ModelOutput → list tensor → tensor → string
           → result tensor).
Context (autograd_grad : tensor → tensor → tensor → result tensor).

Local Abbreviation update :=
  (multistep_dpm_solver_update ddpm_model _predict_xstart_from_eps
     dpm_solver_first_update multistep_dpm_solver_second_update
     multistep_dpm_solver_third_update autograd_grad).

Lemma sub_scaled (p g : tensor) (z : R) :
  shape g = shape p → wf p → wf g →
  Tensor.sub p (scale z g)
  = Ok (Tensor.mk (shape p) (zip_with (λ pv gv, pv - z * gv) (data p) (data g))).
Proof.
  intros Hs Wp Wg. unfold Tensor.sub.
  rewrite binop_same; [|done|done|by unfold wf, scale, map; simpl; rewrite length_fmap].
  do 2 f_equal. cbn [scale map data]. by rewrite zip_with_fmap_r.
Qed.

Lemma blend_scaled (p g : tensor) (z : R) :
  shape g = shape p → wf p → wf g →
  Tensor.add
    (scale (7 / 10)
       (Tensor.mk (shape p) (zip_with (λ pv gv, pv - z * gv) (data p) (data g))))
    (scale (3 / 10) p)
  = Ok (Tensor.mk (shape p)
          (zip_with (λ pv gv, pv - 7 / 10 * z * gv) (data p) (data g))).
Proof.
  intros Hs Wp Wg.
  assert (length (data p) = length (data g)) as Hlen by (rewrite Wp, Wg; by rewrite Hs).
  unfold Tensor.add. rewrite binop_same.
  - unfold scale, map. cbn [shape data]. do 2 f_equal. revert Hlen.
    generalize (data p) (data g). clear.
    induction l as [|pv l IH]; intros [|gv l0] Hlen; simpl in Hlen; try lia; [done|].
    cbn [zip_with]. rewrite !fmap_cons. cbn [zip_with]. f_equal; [rlra|]. apply IH. lia.
  - done.
  - unfold wf, scale, map. cbn [shape data].
    rewrite length_fmap, length_zip_with, <- Hlen, Wp. lia.
  - unfold wf, scale, map. cbn [shape data]. by rewrite length_fmap.
Qed.

(** X16.  When the solver's proposal, the measurement operator, the loss
    and the gradient return, the proposal and the gradient being
    well-formed tensors of one shape, the update returns
    [proposal - 0.7 * zeta * grad] entry by entry, where [zeta] is the step
    of the posterior gradient step: blending with the proposal shrinks the
    configured step by the factor 0.7. *)
Theorem multistep_update_net (self : DPMDiffusionPosteriorSampling.t Solver)
    (x_t : tensor) (model_prev_list : list ModelOutput) (t_prev_list : list tensor)
    (t : tensor) (order : Z) (solver_type : string)
    (t_last : tensor) (t_current : list Z) (eps x0_pred proposal y grad : tensor) (l : R) :
  last t_prev_list = Some t_last →
  long_view1 t_last = Ok t_current →
  get_model_output_eps ddpm_model x_t t_current = Ok eps →
  _predict_xstart_from_eps x_t t_current eps = Ok x0_pred →
  (order = 1%Z ∧ ∃ model_s, last model_prev_list = Some model_s
                   ∧ dpm_solver_first_update (solver self) x_t t_last t model_s
                     = Ok proposal)
  ∨ (order = 2%Z ∧ multistep_dpm_solver_second_update (solver self) x_t
                     model_prev_list t_prev_list t solver_type = Ok proposal)
  ∨ (order = 3%Z ∧ multistep_dpm_solver_third_update (solver self) x_t
                     model_prev_list t_prev_list t solver_type = Ok proposal) →
  measurement_model self x0_pred = Ok y →
  Loss.call (measurement_loss self) (DiffusionPosteriorSampling.to_4d y)
    (DiffusionPosteriorSampling.to_4d (measurement self)) = Ok l →
  autograd_grad x_t t x0_pred = Ok grad →
  shape grad = shape proposal → wf proposal → wf grad →
  ∃ residual,
    Tensor.sub (DiffusionPosteriorSampling.to_4d y) (measurement self) = Ok residual
    ∧ let zeta := if Rlt_dec 0 l then step_size self / norm (abs residual)
                   else step_size self in
      update self x_t model_prev_list t_prev_list t order solver_type
      = Ok (Tensor.mk (shape proposal)
              (zip_with (λ pv gv, pv - 7 / 10 * zeta * gv) (data proposal) (data grad))).
Proof.
  intros Ht Htc Heps Hx0 Hprop Hy Hl Hg Hs Wp Wg.
  destruct (loss_sign _ _ _ _ Hl) as (diff & Hdiff & _ & _).
  destruct (residual_of_diff _ _ _ Hdiff) as (residual & Hres & _).
  exists residual. split; [done|]. intros zeta.
  unfold multistep_dpm_solver_update, last_item.
  rewrite Ht. cbn [mbind result_bind]. rewrite Htc. cbn [mbind result_bind].
  rewrite Heps. cbn [mbind result_bind]. rewrite Hx0. cbn [mbind result_bind].
  match goal with
  | |- (?p ≫= _) = _ => assert (p = Ok proposal) as ->
  end.
  { destruct Hprop as [(-> & model_s & Hms & Hp)|[(-> & Hp)|(-> & Hp)]]; cbn.
    - by rewrite Hms.
    - done.
    - done. }
  cbn [mbind result_bind].
  assert (dps_update autograd_grad self x_t t x0_pred proposal
          = Ok (Tensor.mk (shape proposal)
                  (zip_with (λ pv gv, pv - zeta * gv) (data proposal) (data grad)))) as ->.
  { unfold dps_update. rewrite Hy. cbn [mbind result_bind]. rewrite Hl, Hg.
    cbn [mbind result_bind]. subst zeta.
    destruct (Rlt_dec 0 l) as [_|_]; [rewrite Hres|]; cbn [mbind result_bind];
      by rewrite sub_scaled. }
  cbn [mbind result_bind]. by rewrite blend_scaled.
Qed.

(** X17.  An order other than 1, 2 or 3 never produces a sample; once the
    history is non-empty and the model and the clean-signal prediction have
    returned, what the update raises is [ValueError]. *)
Theorem multistep_update_order (self : DPMDiffusionPosteriorSampling.t Solver)
    (x_t : tensor) (model_prev_list : list ModelOutput) (t_prev_list : list tensor)
    (t : tensor) (order : Z) (solver_type : string) :
  order ≠ 1%Z → order ≠ 2%Z → order ≠ 3%Z →
  (∃ e, update self x_t model_prev_list t_prev_list t order solver_type = Raise e)
  ∧ ∀ t_last t_current eps x0_pred,
      last t_prev_list = Some t_last →
      long_view1 t_last = Ok t_current →
      get_model_output_eps ddpm_model x_t t_current = Ok eps →
      _predict_xstart_from_eps x_t t_current eps = Ok x0_pred →
      update self x_t model_prev_list t_prev_list t order solver_type = Raise ValueError.
Proof.
  intros H1 H2 H3.
  assert (∀ t_last t_current eps x0_pred,
            last t_prev_list = Some t_last →
            long_view1 t_last = Ok t_current →
            get_model_output_eps ddpm_model x_t t_current = Ok eps →
            _predict_xstart_from_eps x_t t_current eps = Ok x0_pred →
            update self x_t model_prev_list t_prev_list t order solver_type
            = Raise ValueError) as Hfull.
  { intros t_last t_current eps x0_pred Ht Htc Heps Hx0.
    unfold multistep_dpm_solver_update, last_item.
    rewrite Ht. cbn [mbind result_bind]. rewrite Htc. cbn [mbind result_bind].
    rewrite Heps. cbn [mbind result_bind]. rewrite Hx0. cbn [mbind result_bind].
    destruct (Z.eqb_spec order 1) as [|_]; [done|].
    destruct (Z.eqb_spec order 2) as [|_]; [done|].
    destruct (Z.eqb_spec order 3) as [|_]; [done|]. done. }
  split; [|done].
  destruct (last t_prev_list) as [t_last|] eqn:Ht.
  2:{ exists IndexError. unfold multistep_dpm_solver_update, last_item. by rewrite Ht. }
  destruct (long_view1 t_last) as [t_current|e] eqn:Htc.
  2:{ exists e. unfold multistep_dpm_solver_update, last_item. rewrite Ht.
      cbn [mbind result_bind]. by rewrite Htc. }
  destruct (get_model_output_eps ddpm_model x_t t_current) as [eps|e] eqn:Heps.
  2:{ exists e. unfold multistep_dpm_solver_update, last_item. rewrite Ht.
      cbn [mbind result_bind]. rewrite Htc. cbn [mbind result_bind]. by rewrite Heps. }
  destruct (_predict_xstart_from_eps x_t t_current eps) as [x0_pred|e] eqn:Hx0.
  2:{ exists e. unfold multistep_dpm_solver_update, last_item. rewrite Ht.
      cbn [mbind result_bind]. rewrite Htc. cbn [mbind result_bind]. rewrite Heps.
      cbn [mbind result_bind]. by rewrite Hx0. }
  exists ValueError. by eapply Hfull.
Qed.
End multistep_update_more.

Section multistep_update_more_examples.
Import Tensor DPMDiffusionPosteriorSampling.
Local Open Scope R_scope.

Lemma multistep_update_net_witness :
  ∃ residual,
    Tensor.sub (pixel 2) (pixel 0) = Ok residual
    ∧ toy_update toy_solver (pixel 2) [pixel 1] [pixel 5] (pixel 4) 1 "dpmsolver"
      = Ok (Tensor.mk [1; 1; 1; 1]%nat
              [2 - 7 / 10
                   * (if Rlt_dec 0 ((2 - 0) * (2 - 0) + 0)
                      then 1 / norm (abs residual) else 1)
                   * 0]).
Proof.
  apply (multistep_update_net (Solver := unit) (ModelOutput := tensor)
           (λ x _, Ok x) (λ x _ _, Ok x) (λ _ x _ _ _, Ok x)
           (λ _ x _ _ _ _, Ok x) (λ _ x _ _ _ _, Ok x) (λ _ _ _, Ok (pixel 0))
           toy_solver (pixel 2) [pixel 1] [pixel 5] (pixel 4) 1 "dpmsolver"
           (pixel 5) [long 5] (pixel 2) (pixel 2) (pixel 2) (pixel 2) (pixel 0));
    try reflexivity.
  left. split; [done|]. by exists (pixel 1).
Defined.

Lemma multistep_update_order_witness :
  toy_update toy_solver (pixel 2) [pixel 1] [pixel 5] (pixel 4) 4 "dpmsolver"
  = Raise ValueError.
Proof.
  eapply (multistep_update_order (Solver := unit) (ModelOutput := tensor)
            (λ x _, Ok x) (λ x _ _, Ok x) (λ _ x _ _ _, Ok x)
            (λ _ x _ _ _ _, Ok x) (λ _ x _ _ _ _, Ok x) (λ _ _ _, Ok (pixel 0))
            toy_solver (pixel 2) [pixel 1] [pixel 5] (pixel 4) 4 "dpmsolver");
    try done; reflexivity.
Defined.
End multistep_update_more_examples.

(** ** Box inpainting: later calls *)

Section box_inpainting_more.
Import BoxInpainting.
Local Open Scope nat_scope.

Lemma zero_box_idemp bx shape d :
  zero_box bx shape (zero_box bx shape d) = zero_box bx shape d.
Proof.
  unfold zero_box. apply list_eq. intros k. rewrite !list_lookup_imap.
  destruct (d !! k) as [v|]; [|done]. simpl.
  destruct (in_box bx shape k); [|done]. f_equal. by rewrite Rmult_assoc, Rmult_0_l.
Qed.

Lemma slice_len_le lo n d : slice_len lo (lo + n) d ≤ n.
Proof. unfold slice_len. lia. Qed.

Lemma slice_len_full lo n d : slice_len lo (lo + n) d = n ↔ n = 0 ∨ lo + n ≤ d.
Proof. unfold slice_len. lia. Qed.

Context (randint : nat → nat → nat).

Lemma box_chosen self v self' :
  box randint self v = Ok self' →
  ∃ bx, box_values self' = Some bx ∧ ∀ v', box randint self' v' = Ok self'.
Proof.
  unfold box. destruct (box_values self) as [bx|] eqn:Hb.
  - intros [= <-]. exists bx. split; [done|]. intros v'. by rewrite Hb.
  - destruct (vshape v) as [|? [|? [|h [|w [|]]]]]; try done.
    intros [= <-]. eexists. split; [done|]. done.
Qed.

(** X18.  A call that returned can be repeated on the same tensor: the box
    is not drawn again, the entries already zeroed stay zero, and the store,
    the operator and the returned view come out as after the first call. *)
Theorem box_inpainting_repeat (self self' : t) (σ σ' : gmap nat (list R))
    (v out : tensor_view) :
  call randint self σ v = (σ', self', Ok out) →
  call randint self' σ' v = (σ', self', Ok out).
Proof.
  unfold call.
  set (v4 := if decide (length (vshape v) = 3) then view (storage v) (1 :: vshape v) else v).
  destruct (box randint self v4) as [self1|] eqn:Hbox; [|done].
  destruct (box_chosen _ _ _ Hbox) as (bx & Hbx & Hagain).
  rewrite Hbx. destruct (vshape v4) as [|b [|c dims]] eqn:Hv4; try done.
  destruct dims as [|h [|w rest]]; try done.
  destruct (decide (Tensor.broadcast_shapes _ _ = Some _)) as [Hfit|]; [|done].
  destruct (σ !! storage v4) as [d|] eqn:Hd; [|done].
  intros [= <- <- <-]. rewrite Hagain, Hbx.
  rewrite decide_True by done. rewrite lookup_insert_eq.
  by rewrite insert_insert_eq, zero_box_idemp.
Qed.

Lemma call_box_inside (bx : coords) (σ : gmap nat (list R)) (v : tensor_view)
    (d : list R) (b c h w : nat) :
  box_h bx = 128 → box_w bx = 128 →
  vshape v = [b; c; h; w] → σ !! storage v = Some d →
  x1 bx + 128 ≤ h → x2 bx + 128 ≤ w →
  ∃ out, call randint (mk (Some bx)) σ v
         = (<[storage v := zero_box bx [b; c; h; w] d]> σ, mk (Some bx), Ok out)
         ∧ storage out = storage v.
Proof.
  intros Hbh Hbw Hv Hd Hh Hw. unfold call. rewrite Hv. cbn [length].
  destruct (decide (4 = 3)) as [|_]; [done|].
  cbn [box box_values]. rewrite Hv, Hbh, Hbw.
  replace (slice_len (x1 bx) (x1 bx + 128) h) with 128
    by (symmetry; apply slice_len_full; by right).
  replace (slice_len (x2 bx) (x2 bx + 128) w) with 128
    by (symmetry; apply slice_len_full; by right).
  rewrite decide_True by apply broadcast_shapes_same. rewrite Hd.
  eexists. split; [done|]. by destruct (decide _).
Qed.

(** X19.  An operator whose 128x128 box is chosen accepts a 4-D image
    exactly when the box lies inside it: then the call returns and zeroes
    the box in place; otherwise it raises [RuntimeError] and leaves the
    store as it was.  The operator is unchanged either way. *)
Theorem box_inpainting_fit (bx : coords) (σ : gmap nat (list R)) (v : tensor_view)
    (d : list R) (b c h w : nat) :
  box_h bx = 128 → box_w bx = 128 →
  vshape v = [b; c; h; w] → σ !! storage v = Some d →
  (x1 bx + 128 ≤ h ∧ x2 bx + 128 ≤ w →
   ∃ out, call randint (mk (Some bx)) σ v
          = (<[storage v := zero_box bx [b; c; h; w] d]> σ, mk (Some bx), Ok out)
          ∧ storage out = storage v)
  ∧ (h < x1 bx + 128 ∨ w < x2 bx + 128 →
     call randint (mk (Some bx)) σ v = (σ, mk (Some bx), Raise RuntimeError)).
Proof.
  intros Hbh Hbw Hv Hd. split.
  { intros [Hh Hw]. by apply call_box_inside. }
  unfold call. rewrite Hv. cbn [length].
  destruct (decide (4 = 3)) as [|_]; [done|].
  cbn [box box_values]. rewrite Hv, Hbh, Hbw.
  intros Hsmall. rewrite decide_False; [done|]. apply slice_mismatch.
  pose proof (slice_len_full (x1 bx) 128 h). pose proof (slice_len_full (x2 bx) 128 w).
  destruct Hsmall; [left|right]; intros E; lia.
Qed.

Lemma call_after_box self σ v self1 :
  box randint self
    (if decide (length (vshape v) = 3) then view (storage v) (1 :: vshape v) else v)
  = Ok self1 →
  call randint self σ v = call randint self1 σ v.
Proof.
  intros Hbox. destruct (box_chosen _ _ _ Hbox) as (bx & Hbx & Hagain).
  unfold call. by rewrite Hbox, Hagain.
Qed.

Lemma small_box_rejects bx (σ : gmap nat (list R)) v :
  box_h bx < 128 ∨ box_w bx < 128 →
  length (vshape v) = 3 ∨ length (vshape v) = 4 →
  call randint (mk (Some bx)) σ v = (σ, mk (Some bx), Raise RuntimeError).
Proof.
  intros Hbox Hrank.
  assert (∀ b2 c2 h2 w2,
            Tensor.broadcast_shapes
              [b2; c2; slice_len (x1 bx) (x1 bx + box_h bx) h2;
               slice_len (x2 bx) (x2 bx + box_w bx) w2] [b2; c2; 128; 128]
            ≠ Some [b2; c2; slice_len (x1 bx) (x1 bx + box_h bx) h2;
                    slice_len (x2 bx) (x2 bx + box_w bx) w2]) as Hmismatch.
  { intros b2 c2 h2 w2. apply slice_mismatch.
    pose proof (slice_len_le (x1 bx) (box_h bx) h2).
    pose proof (slice_len_le (x2 bx) (box_w bx) w2).
    destruct Hbox as [Hlt|Hlt]; [left|right]; intros E; rewrite E in *; lia. }
  unfold call. destruct (decide (length (vshape v) = 3)) as [H3|H3].
  - destruct (vshape v) as [|c2 [|h2 [|w2 [|]]]] eqn:Hv; try done.
    cbn [box box_values vshape storage]. by rewrite decide_False.
  - destruct Hrank as [|H4]; [done|].
    destruct (vshape v) as [|b2 [|c2 [|h2 [|w2 [|]]]]] eqn:Hv; try done.
    cbn [box box_values]. by rewrite decide_False.
Qed.

(** X20.  A first call on a 4-D image with a dimension below 128 leaves
    the operator with a box smaller than the mask: from then on every call
    on a 3-D or 4-D tensor raises as well and writes nothing, whatever the
    size of the image. *)
Theorem box_inpainting_small_first (σ : gmap nat (list R)) (v : tensor_view)
    (b c h w : nat) :
  vshape v = [b; c; h; w] → h < 128 ∨ w < 128 →
  ∃ self',
    call randint fresh σ v = (σ, self', Raise RuntimeError)
    ∧ ∀ (σ2 : gmap nat (list R)) v2,
        length (vshape v2) = 3 ∨ length (vshape v2) = 4 →
        call randint self' σ2 v2 = (σ2, self', Raise RuntimeError).
Proof.
  intros Hv Hsmall.
  set (max_x := if 128 <=? h then h - 128 else 0).
  set (max_y := if 128 <=? w then w - 128 else 0).
  set (bx := mk_coords (randint 0 (Nat.max 1 max_x)) (randint 1 (Nat.max 1 max_y))
               (Nat.min 128 h) (Nat.min 128 w)).
  assert (box_h bx < 128 ∨ box_w bx < 128) as Hbox.
  { subst bx. cbn [box_h box_w].
    destruct Hsmall; [left|right]; by apply Nat.min_lt_iff; right. }
  exists (mk (Some bx)). split; [|intros σ2 v2; by apply small_box_rejects].
  rewrite (call_after_box fresh σ v (mk (Some bx))).
  - apply small_box_rejects; [done|]. right. by rewrite Hv.
  - rewrite Hv. cbn [length]. destruct (decide (4 = 3)) as [|_]; [done|].
    unfold box. cbn [box_values fresh]. by rewrite Hv.
Qed.
End box_inpainting_more.

Section box_inpainting_more_examples.
Import BoxInpainting.
Local Open Scope nat_scope.

Lemma box_inpainting_repeat_witness :
  ∃ σ' out,
    call (λ _ _, 0) (mk (Some (mk_coords 0 0 128 128))) σ' (view 0 [1; 3; 128; 128])
    = (σ', mk (Some (mk_coords 0 0 128 128)), Ok out)
    ∧ storage out = 0.
Proof.
  destruct (call_box_inside (λ _ _, 0) (mk_coords 0 0 128 128)
              (ones_store [1; 3; 128; 128]) (view 0 [1; 3; 128; 128])
              (replicate (Tensor.numel [1; 3; 128; 128]) 1%R) 1 3 128 128)
    as (out & Hcall & Hout);
    [reflexivity|reflexivity|reflexivity|apply lookup_singleton_eq
    |apply Nat.le_refl|apply Nat.le_refl|].
  eexists _, out.
  exact (conj (box_inpainting_repeat (λ _ _, 0) _ _ _ _ _ _ Hcall) Hout).
Defined.

Lemma box_inpainting_fit_witness :
  call (λ _ _, 0) (mk (Some (mk_coords 100 0 128 128)))
    (ones_store [1; 3; 128; 128]) (view 0 [1; 3; 128; 128])
  = (ones_store [1; 3; 128; 128], mk (Some (mk_coords 100 0 128 128)),
     Raise RuntimeError).
Proof.
  destruct (box_inpainting_fit (λ _ _, 0) (mk_coords 100 0 128 128)
              (ones_store [1; 3; 128; 128]) (view 0 [1; 3; 128; 128])
              (replicate (Tensor.numel [1; 3; 128; 128]) 1%R) 1 3 128 128)
    as [_ Hsmall];
    [reflexivity|reflexivity|reflexivity|apply lookup_singleton_eq|].
  apply Hsmall. left. cbn [x1]. lia.
Defined.

Lemma box_inpainting_small_first_witness :
  ∃ self',
    call (λ _ _, 0) fresh (ones_store [1; 3; 64; 64]) (view 0 [1; 3; 64; 64])
    = (ones_store [1; 3; 64; 64], self', Raise RuntimeError)
    ∧ call (λ _ _, 0) self' (ones_store [1; 3; 256; 256]) (view 0 [1; 3; 256; 256])
      = (ones_store [1; 3; 256; 256], self', Raise RuntimeError).
Proof.
  destruct (box_inpainting_small_first (λ _ _, 0) (ones_store [1; 3; 64; 64])
              (view 0 [1; 3; 64; 64]) 1 3 64 64) as (self' & Hfirst & Hlater).
  - reflexivity.
  - left. lia.
  - exists self'. split; [exact Hfirst|]. apply Hlater. right. reflexivity.
Defined.
End box_inpainting_more_examples.

(** ** Respacing followed by the derived schedule *)

Section respacing_pipeline.
Import Respace SpacedDiffusion.
Local Open Scope Z_scope.

Lemma sorted_lt_ext (l1 : list Z) : ∀ l2,
  StronglySorted Z.lt l1 → StronglySorted Z.lt l2 →
  (∀ x, x ∈ l1 ↔ x ∈ l2) → l1 = l2.
Proof.
  induction l1 as [|x l1 IH]; intros [|y l2] H1 H2 Hext.
  - done.
  - pose proof (proj2 (Hext y) ltac:(left)) as Hy. by apply elem_of_nil in Hy.
  - pose proof (proj1 (Hext x) ltac:(left)) as Hx. by apply elem_of_nil in Hx.
  - apply StronglySorted_inv in H1 as [H1 Hx]. apply StronglySorted_inv in H2 as [H2 Hy].
    rewrite Forall_forall in Hx, Hy.
    assert (x = y) as ->.
    { pose proof (proj1 (Hext x) ltac:(left)) as Hxy.
      pose proof (proj2 (Hext y) ltac:(left)) as Hyx.
      apply elem_of_cons in Hxy as [|Hxy]; [done|].
      apply elem_of_cons in Hyx as [|Hyx]; [done|].
      specialize (Hx _ Hyx). specialize (Hy _ Hxy). lia. }
    f_equal. apply IH; [done|done|]. intros z. split; intros Hz.
    + pose proof (proj1 (Hext z) ltac:(by right)) as Hz'.
      apply elem_of_cons in Hz' as [->|]; [|done]. specialize (Hx _ Hz). lia.
    + pose proof (proj2 (Hext z) ltac:(by right)) as Hz'.
      apply elem_of_cons in Hz' as [->|]; [|done]. specialize (Hy _ Hz). lia.
Qed.

Lemma range_sorted T s : 0 < s → StronglySorted Z.lt (Py.range 0 T s).
Proof.
  intros Hs. unfold Py.range. generalize (Z.to_nat (Py.range_len 0 T s)). intros n.
  generalize 0%nat. induction n as [|n IH]; intros k; [constructor|].
  cbn [seq fmap list_fmap]. constructor; [apply IH|].
  apply Forall_fmap, Forall_forall. intros j Hj. apply elem_of_seq in Hj. simpl. nia.
Qed.

(** X21.  A fixed-stride request followed by the construction of the
    spaced process: for a schedule of [T] increments and a request that is
    met with count [N], the schedule handed to the base constructor has
    exactly [N] increments and [timestep_map] is [range(0, T, i)] for a
    stride [i] in [1, T): spaced step [k] is original timestep [k * i]. *)
Theorem ddim_spaced_process (kw_betas : list Q) (spec : string) (N : Z) (S : gset Z)
    (rescale : bool) :
  let T := Z.of_nat (length kw_betas) in
  String.prefix "ddim" spec = true →
  Py.int (Py.drop_string 4 spec) = Ok N →
  space_timesteps T (SpecStr spec) = Ok S →
  let self := init (elements S) kw_betas rescale in
  ∃ i, 1 ≤ i < T
       ∧ timestep_map self = Py.range 0 T i
       ∧ Z.of_nat (length (betas self)) = N.
Proof.
  intros T Hpre Hint. unfold space_timesteps. rewrite Hpre, Hint. cbn [mbind result_bind].
  intros HS. apply ddim_search_inv in HS as (i & Hi & HN & ->).
  set (self := init _ kw_betas rescale).
  apply elem_of_range_1 in Hi. exists i. split; [done|].
  assert (timestep_map self = Py.range 0 T i) as Htm.
  { subst self. unfold init, respace. rewrite respace_loop_retained. cbn [app timestep_map].
    apply sorted_lt_ext; [apply retained_from_sorted|apply range_sorted; lia|].
    intros x. rewrite retained_from_elem, length_alphas_cumprod.
    rewrite elem_of_list_to_set, elem_of_elements, elem_of_list_to_set.
    split; [tauto|]. intros Hx. split; [done|].
    apply elem_of_range_0 in Hx as (k & ? & -> & ?); [|lia]. fold T. nia. }
  split; [done|].
  assert (length (betas self) = length (timestep_map self)) as Hlen.
  { subst self. unfold init, respace. rewrite respace_loop_retained.
    cbn [app betas timestep_map]. by rewrite new_betas_of_length, !length_fmap. }
  by rewrite Hlen, Htm, range_len_length.
Qed.

Lemma ddim_spaced_process_witness :
  ∃ i, 1 ≤ i < 4
       ∧ timestep_map (init (elements (list_to_set (Py.range 0 4 2) : gset Z))
                         [1 # 2; 1 # 2; 1 # 2; 1 # 2]%Q false)
         = Py.range 0 4 i
       ∧ Z.of_nat (length
                     (betas (init (elements (list_to_set (Py.range 0 4 2) : gset Z))
                               [1 # 2; 1 # 2; 1 # 2; 1 # 2]%Q false))) = 2.
Proof.
  apply (ddim_spaced_process [1 # 2; 1 # 2; 1 # 2; 1 # 2]%Q "ddim2" 2);
    [reflexivity|reflexivity|]. vm_compute. reflexivity.
Defined.
End respacing_pipeline.

(** ** ImageNet denormalisation *)

Section denormalize_more.
Import Tensor Denormalize.
Local Open Scope R_scope.

Lemma broadcast_rev_ones_r rest : ∀ x y,
  broadcast_rev (rest ++ [x]) (replicate (length rest) 1%nat ++ [y])
  = (λ s, rest ++ s) <$> broadcast_rev [x] [y].
Proof.
  induction rest as [|r rest IH]; intros x y; cbn [length replicate app].
  { by destruct (broadcast_rev [x] [y]). }
  change (broadcast_rev (r :: rest ++ [x]) (1%nat :: replicate (length rest) 1%nat ++ [y]))
    with (if (r =? 1)%nat
          then cons r <$> broadcast_rev (rest ++ [x]) (replicate (length rest) 1%nat ++ [y])
          else if (r =? 1)%nat
               then cons 1%nat <$> broadcast_rev (rest ++ [x])
                                     (replicate (length rest) 1%nat ++ [y])
               else if (1 =? 1)%nat
                    then cons r <$> broadcast_rev (rest ++ [x])
                                      (replicate (length rest) 1%nat ++ [y])
                    else None).
  rewrite IH. destruct (broadcast_rev [x] [y]); by destruct (r =? 1)%nat.
Qed.

Lemma broadcast_shapes_channels c (rest : list nat) (y : nat) :
  broadcast_shapes (c :: rest) (y :: replicate (length rest) 1%nat)
  = (λ s, rev s ++ rest) <$> broadcast_rev [c] [y].
Proof.
  unfold broadcast_shapes. cbn [rev]. rewrite replicate_rev.
  replace (length rest) with (length (rev rest)) by apply length_rev.
  rewrite broadcast_rev_ones_r. destruct (broadcast_rev [c] [y]) as [s|]; [|done].
  cbn [fmap option_fmap option_map]. by rewrite rev_app_distr, rev_involutive.
Qed.

Lemma binop_channels f B rest (m : list R) (E : tensor) :
  shape E = B :: rest → wf E →
  binop f E (Tensor.mk (B :: replicate (length rest) 1%nat) m)
  = Ok (Tensor.mk (B :: rest)
          (zip_with f (data E)
             (expand (B :: replicate (length rest) 1%nat) (B :: rest) m))).
Proof.
  intros HE WE. unfold binop. cbn [shape data].
  rewrite HE, broadcast_shapes_channels. cbn [broadcast_rev]. rewrite Nat.eqb_refl.
  cbn [fmap option_fmap option_map rev app].
  by rewrite (expand_same _ (data E)) by (by rewrite <- HE).
Qed.

(** X22.  On a 3-D image [denormalize_imagenet] works channel by channel:
    with three channels every entry [v] of channel [c] becomes
    [v * std[c] + mean[c]] and the shape is kept; a single-channel image
    comes back with three channels; any other number of channels raises
    [RuntimeError]. *)
Theorem denormalize_channels (t : tensor) (c h w : nat) :
  shape t = [c; h; w] → wf t →
  (c = 3%nat →
   ∃ r, denormalize_imagenet t = Ok r ∧ shape r = [3; h; w]%nat ∧ wf r
        ∧ ∀ (ch p : nat) v,
            (ch < 3)%nat → (p < h * w)%nat →
            data t !! (ch * (h * w) + p)%nat = Some v →
            data r !! (ch * (h * w) + p)%nat
            = Some (v * nth ch (data std) 0 + nth ch (data mean) 0))
  ∧ (c = 1%nat → ∃ r, denormalize_imagenet t = Ok r ∧ shape r = [3; h; w]%nat)
  ∧ (c ≠ 1%nat → c ≠ 3%nat → denormalize_imagenet t = Raise RuntimeError).
Proof.
  intros Ht Wt. unfold denormalize_imagenet, Tensor.mul, Tensor.add, std, mean.
  split; [|split].
  - intros ->.
    rewrite (binop_channels Rmult 3 [h; w] _ t Ht Wt). cbn [mbind result_bind].
    match goal with |- context [binop Rplus ?s _] => remember s as scaled eqn:Hscaled end.
    assert (shape scaled = [3; h; w]%nat) as Hs by (by subst scaled).
    assert (wf scaled) as Ws.
    { subst scaled. unfold wf. cbn [shape data].
      rewrite length_zip_with, length_expand, Wt, Ht. lia. }
    rewrite (binop_channels Rplus 3 [h; w] _ scaled Hs Ws).
    eexists. split; [done|]. split; [done|]. split.
    { unfold wf. cbn [shape data]. rewrite length_zip_with, length_expand, Ws, Hs. lia. }
    intros ch p v Hch Hp Hv. cbn [data].
    assert (numel [h; w] = (h * w)%nat) as Hn by (cbn; lia).
    assert (ch * (h * w) + p < 3 * numel [h; w])%nat as Hk by (rewrite Hn; nia).
    assert ((ch * (h * w) + p) / numel [h; w] = ch)%nat as Hdiv.
    { rewrite Hn, Nat.div_add_l by lia. rewrite Nat.div_small by done. lia. }
    rewrite lookup_zip_with.
    rewrite (expand_mask 3 [h; w] _ _ Hk), Hdiv. subst scaled. cbn [data].
    rewrite lookup_zip_with, Hv.
    rewrite (expand_mask 3 [h; w] _ _ Hk), Hdiv. done.
  - intros ->. unfold binop. cbn [shape data]. rewrite Ht.
    assert (broadcast_shapes [1; h; w]%nat [3; 1; 1]%nat = Some [3; h; w]%nat) as E1
      by exact (broadcast_shapes_channels 1 [h; w] 3).
    assert (broadcast_shapes [3; h; w]%nat [3; 1; 1]%nat = Some [3; h; w]%nat) as E3
      by exact (broadcast_shapes_channels 3 [h; w] 3).
    rewrite E1. cbn [mbind result_bind shape]. rewrite E3. by eexists.
  - intros H1 H3. unfold binop. cbn [shape data]. rewrite Ht.
    pose proof (broadcast_shapes_channels c [h; w] 3) as E.
    cbn [length replicate broadcast_rev] in E. rewrite E.
    destruct (Nat.eqb_spec c 3) as [|_]; [done|].
    destruct (Nat.eqb_spec c 1) as [|_]; [done|]. done.
Qed.

Lemma denormalize_channels_witness :
  ∃ r, denormalize_imagenet (Tensor.mk [3; 1; 1]%nat [1; 1; 1]) = Ok r
       ∧ shape r = [3; 1; 1]%nat.
Proof.
  destruct (denormalize_channels (Tensor.mk [3; 1; 1]%nat [1; 1; 1]) 3 1 1)
    as [Hrgb _]; [reflexivity|reflexivity|].
  destruct (Hrgb eq_refl) as (r & Hr & Hs & _). by exists r.
Defined.
End denormalize_more.

(** ** The noise process *)

Section noise_process_more.
Import Tensor NoiseProcess.
Local Open Scope R_scope.

Lemma foldr_Rmin_spec v l :
  foldr Rmin v l ∈ v :: l ∧ Forall (λ u, foldr Rmin v l <= u) (v :: l).
Proof.
  induction l as [|a l [IHin IHle]]; cbn [foldr].
  { split; [left|]. constructor; [apply Rle_refl|constructor]. }
  apply Forall_cons in IHle as [Hv Hl].
  pose proof (Rmin_l a (foldr Rmin v l)) as Ha.
  pose proof (Rmin_r a (foldr Rmin v l)) as Hm. split.
  - apply Rmin_case; [right; left|].
    apply elem_of_cons in IHin as [->|]; [left|right; by right].
  - constructor; [rlra|]. constructor; [done|].
    eapply Forall_impl; [done|]. simpl. intros. rlra.
Qed.

Lemma foldr_Rmax_spec v l :
  foldr Rmax v l ∈ v :: l ∧ Forall (λ u, u <= foldr Rmax v l) (v :: l).
Proof.
  induction l as [|a l [IHin IHle]]; cbn [foldr].
  { split; [left|]. constructor; [apply Rle_refl|constructor]. }
  apply Forall_cons in IHle as [Hv Hl].
  pose proof (Rmax_l a (foldr Rmax v l)) as Ha.
  pose proof (Rmax_r a (foldr Rmax v l)) as Hm. split.
  - apply Rmax_case; [right; left|].
    apply elem_of_cons in IHin as [->|]; [left|right; by right].
  - constructor; [rlra|]. constructor; [done|].
    eapply Forall_impl; [done|]. simpl. intros. rlra.
Qed.

(** X23.  The rates handed to [torch.poisson], for a tensor with minimum
    [lo] and a positive maximum [hi]: every rate lies between [0] and
    [(hi - lo) / hi], both of which are attained; so the rates are at most
    one exactly when the tensor has no negative entry. *)
Theorem poisson_rates_range (x : tensor) (lo hi : R) :
  tensor_min x = Ok lo → tensor_max x = Ok hi → 0 < hi →
  ∃ rates,
    poisson_rates x = Ok rates
    ∧ shape rates = shape x
    ∧ Forall (λ r, 0 <= r <= (hi - lo) / hi) (data rates)
    ∧ 0 ∈ data rates ∧ (hi - lo) / hi ∈ data rates
    ∧ ((hi - lo) / hi <= 1 ↔ 0 <= lo).
Proof.
  intros Hlo Hhi Hpos. unfold poisson_rates. rewrite Hlo, Hhi. cbn [mbind result_bind].
  eexists. split; [done|]. split; [done|].
  unfold tensor_min in Hlo. unfold tensor_max in Hhi.
  destruct (data x) as [|v l] eqn:Hd; [done|].
  injection Hlo as <-. injection Hhi as <-.
  destruct (foldr_Rmin_spec v l) as [Hmin_in Hmin]. destruct (foldr_Rmax_spec v l) as [Hmax_in Hmax].
  set (lo := foldr Rmin v l) in *. set (hi := foldr Rmax v l) in *.
  cbn [Tensor.map data]. rewrite Hd.
  assert (0 < / hi) as Hinv by (by apply Rinv_0_lt_compat).
  split; [|split; [|split]].
  - apply Forall_fmap, Forall_forall. intros u Hu. simpl.
    rewrite Forall_forall in Hmin, Hmax. specialize (Hmin u Hu). specialize (Hmax u Hu).
    unfold Rdiv. split.
    + apply Rmult_le_pos; rlra.
    + apply Rmult_le_compat_r; rlra.
  - apply list_elem_of_fmap. exists lo. split; [|done]. unfold Rdiv. rlra.
  - apply list_elem_of_fmap. by exists hi.
  - unfold Rdiv. split.
    + intros Hle. apply (Rmult_le_compat_r hi) in Hle; [|rlra].
      rewrite Rmult_assoc, Rinv_l in Hle by rlra. rlra.
    + intros Hle. apply (Rmult_le_reg_r hi); [done|].
      rewrite Rmult_assoc, Rinv_l by rlra. rlra.
Qed.

Lemma poisson_rates_range_witness :
  ∃ rates,
    poisson_rates (Tensor.mk [2]%nat [-1; 1]) = Ok rates
    ∧ Forall (λ r, 0 <= r <= (Rmax 1 (-1) - Rmin 1 (-1)) / Rmax 1 (-1)) (data rates).
Proof.
  destruct (poisson_rates_range (Tensor.mk [2]%nat [-1; 1]) (Rmin 1 (-1)) (Rmax 1 (-1)))
    as (rates & Hr & _ & Hall & _); [reflexivity|reflexivity| |by exists rates].
  pose proof (Rmax_l 1 (-1)). rlra.
Defined.

(** X24.  [NoiseProcess.__init__] raises [ValueError] exactly on a noise
    model other than the two known ones, and on a process it has
    constructed [noiser] never falls off the end: it returns a tensor or
    raises. *)
Theorem noise_process_known (noise_model : string) (sigma : R) :
  (__init__ noise_model sigma = Raise ValueError
   ↔ noise_model ≠ "gaussian" ∧ noise_model ≠ "poisson")
  ∧ ∀ self randn_like poisson x,
      __init__ noise_model sigma = Ok self →
      noiser randn_like poisson self x ≠ Ok None.
Proof.
  unfold __init__.
  destruct (String.eqb_spec noise_model "gaussian") as [->|Hg];
    [|destruct (String.eqb_spec noise_model "poisson") as [->|Hp]]; cbn [orb].
  - split; [split; [done|tauto]|]. intros self randn_like poisson x [= <-].
    unfold noiser. cbn [NoiseProcess.noise_model String.eqb Ascii.eqb].
    simpl. by destruct (Tensor.add _ _).
  - split; [split; [done|tauto]|]. intros self randn_like poisson x [= <-].
    unfold noiser. simpl. destruct (poisson_rates x) as [rates|]; [|done].
    cbn [mbind result_bind]. by destruct (torch_poisson poisson rates).
  - split; [by split|]. done.
Qed.

(** On a tensor whose entries are all negative the Poisson rates are
    negative, and [torch.poisson] refuses them. *)
Example noiser_negative_rates (randn_like poisson : tensor → tensor) :
  noiser randn_like poisson (NoiseProcess.mk "poisson" 0) (Tensor.mk [2]%nat [-2; -1])
  = Raise RuntimeError.
Proof.
  unfold noiser, poisson_rates, tensor_min, tensor_max.
  cbn [NoiseProcess.noise_model data foldr mbind result_bind Tensor.map].
  change (String.eqb "poisson" "gaussian") with false.
  change (String.eqb "poisson" "poisson") with true. cbv iota.
  unfold torch_poisson. cbn [data fmap list_fmap].
  destruct (Exists_dec _ _) as [_|Hno]; [done|].
  exfalso. apply Hno. apply Exists_cons_tl, Exists_cons_hd.
  rewrite Rmin_right, Rmax_left by rlra. rlra.
Qed.

Lemma noise_process_known_witness :
  noiser (λ x, x) (λ x, x) (NoiseProcess.mk "gaussian" 0) (pixel 1) ≠ Ok None.
Proof.
  destruct (noise_process_known "gaussian" 0) as [_ H].
  apply (H (NoiseProcess.mk "gaussian" 0)). reflexivity.
Defined.
End noise_process_more.

(** ** The Gaussian blur kernel *)

Section gaussian_kernel_more.
Import Tensor GaussianBlur.
Local Open Scope R_scope.







End gaussian_kernel_more.

(** ** Grayscale conversion *)

Section grayscale_more.
Import Tensor Grayscale.
Local Open Scope R_scope.

Lemma broadcast_shapes_weights b h w :
  broadcast_shapes [b; 3; h; w]%nat [1; 3; 1; 1]%nat = Some [b; 3; h; w]%nat.
Proof. by destruct w as [|[|w]], h as [|[|h]], b as [|[|b]]. Qed.

Lemma expand_weights_lookup (ws : list R) (b h w k : nat) :
  (k < b * (3 * (h * w)))%nat →
  expand [1; 3; 1; 1]%nat [b; 3; h; w]%nat ws !! k
  = Some (nth ((k / (h * w)) mod 3) ws 0).
Proof.
  intros Hk. unfold expand. rewrite list_lookup_fmap, lookup_seq_lt.
  2:{ cbn [numel foldr]. lia. }
  cbn [fmap option_fmap option_map rev app src_index_rev]. do 2 f_equal.
  change (0 + k)%nat with k. change (1 =? 1)%nat with true. change (3 =? 1)%nat with false. cbv iota.
  rewrite Nat.Div0.div_div, (Nat.mul_comm w h). lia.
Qed.

Lemma mul_weights (t : tensor) (b h w : nat) :
  shape t = [b; 3; h; w]%nat → wf t →
  Tensor.mul t weights
  = Ok (Tensor.mk [b; 3; h; w]%nat
          (zip_with Rmult (data t)
             (expand [1; 3; 1; 1]%nat [b; 3; h; w]%nat (data weights)))).
Proof.
  intros Ht Wt. unfold Tensor.mul, binop. rewrite Ht. cbn [shape weights].
  rewrite broadcast_shapes_weights. by rewrite expand_same by (by rewrite <- Ht).
Qed.

(** Position [(n * 3 + c) * hw + p] of the weighted tensor. *)
Lemma weighted_entry (d ws : list R) (b h w n c p : nat) :
  length d = (b * (3 * (h * w)))%nat →
  (n < b)%nat → (c < 3)%nat → (p < h * w)%nat →
  nth ((n * 3 + c) * (h * w) + p)
    (zip_with Rmult d (expand [1; 3; 1; 1]%nat [b; 3; h; w]%nat ws)) 0
  = nth ((n * 3 + c) * (h * w) + p) d 0 * nth c ws 0.
Proof.
  intros Hd Hn Hc Hp.
  assert ((n * 3 + c) * (h * w) + p < b * (3 * (h * w)))%nat as Hk by nia.
  rewrite !nth_lookup, lookup_zip_with, (expand_weights_lookup ws b h w _ Hk).
  destruct (lookup_lt_is_Some_2 d ((n * 3 + c) * (h * w) + p)) as [v ->]; [lia|].
  cbn [mbind option_bind fmap option_fmap option_map default].
  rewrite Nat.div_add_l by lia. rewrite (Nat.div_small p) by done.
  rewrite Nat.add_0_r, Nat.add_comm, Nat.Div0.mod_add, Nat.mod_small by done.
  unfold Datatypes.id. by rewrite (nth_lookup ws).
Qed.

(** The entries of the converted batch: the luminance of each pixel,
    written to its three channels. *)
Lemma call_rgb (t : tensor) (b h w : nat) :
  shape t = [b; 3; h; w]%nat → wf t →
  call t
  = Ok (Tensor.mk (if decide (b = 1%nat) then [3; h; w]%nat else [b; 3; h; w]%nat)
          ((λ k : nat, luminance (data t) (h * w) (k / (3 * (h * w))) (k mod (h * w)))
             <$> seq 0 (b * (3 * (h * w))))).
Proof.
  intros Ht Wt. unfold call. rewrite Ht. cbn [length].
  destruct (decide (4 = 3)%nat) as [|_]; [done|]. rewrite Ht.
  destruct (decide (3 = 3)%nat) as [_|]; [|done].
  rewrite (mul_weights t b h w Ht Wt). cbn [mbind result_bind].
  unfold sum_dim1. cbn [shape data mbind result_bind].
  unfold repeat_channels. cbn [shape data mbind result_bind].
  assert (numel [h; w] = (h * w)%nat) as -> by (cbn; lia).
  rewrite !Nat.mul_1_l.
  assert (length (data t) = (b * (3 * (h * w)))%nat) as Hd.
  { rewrite Wt, Ht. cbn. lia. }
  set (W := zip_with Rmult (data t) _).
  assert (∀ shape', Tensor.mk shape'
            ((λ k : nat,
                nth (k / (3 * (h * w)) * (h * w) + k mod (h * w))
                  ((λ k0 : nat,
                      sum_list
                        ((λ c : nat,
                            nth ((k0 / (h * w) * 3 + c) * (h * w) + k0 mod (h * w)) W 0)
                           <$> seq 0 3)) <$> seq 0 (b * (h * w))) 0)
               <$> seq 0 (b * (3 * (h * w))))
          = Tensor.mk shape'
              ((λ k : nat, luminance (data t) (h * w) (k / (3 * (h * w))) (k mod (h * w)))
                 <$> seq 0 (b * (3 * (h * w))))) as Hdata.
  { intros shape'. f_equal. apply list_fmap_ext. intros k ? Hk.
    apply lookup_seq in Hk as [-> Hk]. change (0 + k)%nat with k.
    assert (0 < h * w)%nat as Hhw by nia.
    set (n := (k / (3 * (h * w)))%nat). set (p := (k mod (h * w))%nat).
    assert (n < b)%nat as Hn.
    { subst n. apply Nat.Div0.div_lt_upper_bound. lia. }
    assert (p < h * w)%nat as Hp by (subst p; apply Nat.mod_upper_bound; lia).
    rewrite nth_lookup, list_lookup_fmap, lookup_seq_lt by nia.
    cbn [fmap option_fmap option_map default plus].
    rewrite Nat.div_add_l by lia. rewrite (Nat.div_small p) by done.
    rewrite Nat.add_0_r, (Nat.add_comm (n * (h * w)) p), Nat.Div0.mod_add,
      (Nat.mod_small p) by done.
    cbn [seq fmap list_fmap]. rewrite !sum_list_cons.
    subst W.
    rewrite (weighted_entry _ _ b h w n 0 p), (weighted_entry _ _ b h w n 1 p),
      (weighted_entry _ _ b h w n 2 p) by (done || lia).
    unfold luminance. cbn [weights data nth]. rewrite Nat.add_0_r.
    change (sum_list []) with 0. unfold Datatypes.id. rlra. }
  destruct b as [|[|b]]; cbn [shape data]; by rewrite Hdata.
Qed.

Lemma call_rgb_3d (t : tensor) (h w : nat) :
  shape t = [3; h; w]%nat → call t = call (unsqueeze0 t).
Proof. intros Ht. unfold call, unsqueeze0. by rewrite Ht. Qed.

(** X26.  On a batch of [b] RGB images, or one 3-D RGB image, the
    conversion writes to each of the three channels of every pixel its
    luminance [0.2989 R + 0.5870 G + 0.1140 B].  The shape [b, 3, h, w] is
    kept for [b] other than 1; one image comes back 3-D, [3, h, w], whether
    it went in 3-D or as a 4-D batch of one, which the final [squeeze(0)]
    therefore does not keep. *)
Theorem grayscale_rgb (t : tensor) (b h w : nat) :
  shape t = [b; 3; h; w]%nat ∨ (b = 1%nat ∧ shape t = [3; h; w]%nat) → wf t →
  ∃ g, call t = Ok g
       ∧ (b ≠ 1%nat → shape g = [b; 3; h; w]%nat)
       ∧ (b = 1%nat → shape g = [3; h; w]%nat)
       ∧ wf g
       ∧ ∀ n c p : nat, (n < b)%nat → (c < 3)%nat → (p < h * w)%nat →
           data g !! ((n * 3 + c) * (h * w) + p)%nat
           = Some (luminance (data t) (h * w) n p).
Proof.
  intros Hshape Wt.
  assert (∃ t4, call t = call t4 ∧ shape t4 = [b; 3; h; w]%nat ∧ wf t4
                ∧ data t4 = data t) as (t4 & -> & Ht4 & Wt4 & <-).
  { destruct Hshape as [Ht|[-> Ht]]; [by exists t|].
    exists (unsqueeze0 t). split; [exact (call_rgb_3d t h w Ht)|].
    unfold unsqueeze0, wf in *. cbn [shape data]. rewrite Ht in *. split; [done|].
    split; [|done]. rewrite Wt. cbn. lia. }
  rewrite (call_rgb t4 b h w Ht4 Wt4). eexists. split; [done|]. cbn [shape data].
  split; [intros; by rewrite decide_False|]. split; [intros; by rewrite decide_True|].
  split.
  { unfold wf. cbn [shape data]. rewrite length_fmap, length_seq.
    destruct (decide (b = 1%nat)) as [->|]; cbn; lia. }
  intros n c p Hn Hc Hp.
  assert (0 < h * w)%nat as Hhw by lia.
  rewrite list_lookup_fmap, lookup_seq_lt by nia.
  cbn [fmap option_fmap option_map plus]. f_equal. f_equal.
  - replace ((n * 3 + c) * (h * w) + p)%nat with ((c * (h * w) + p) + n * (3 * (h * w)))%nat
      by lia.
    rewrite Nat.div_add by lia. rewrite Nat.div_small by nia. done.
  - rewrite Nat.add_comm, Nat.Div0.mod_add. by apply Nat.mod_small.
Qed.

Lemma grayscale_rgb_witness :
  ∃ g, call (Tensor.mk [1; 3; 1; 1]%nat [1; 1; 1]) = Ok g
       ∧ shape g = [3; 1; 1]%nat
       ∧ data g !! 2%nat = Some (luminance [1; 1; 1] 1 0 0).
Proof.
  destruct (grayscale_rgb (Tensor.mk [1; 3; 1; 1]%nat [1; 1; 1]) 1 1 1)
    as (g & Hg & _ & Hshape & _ & Hentries); [by left|reflexivity|].
  exists g. split; [done|]. split; [by apply Hshape|].
  apply (Hentries 0%nat 2%nat 0%nat); lia.
Defined.

(** X27.  The conversion is not idempotent: the weights add up to 0.9999,
    so converting an image that was already converted multiplies every
    entry by 0.9999 and keeps the shape. *)
Theorem grayscale_twice (t : tensor) (b h w : nat) :
  shape t = [b; 3; h; w]%nat ∨ (b = 1%nat ∧ shape t = [3; h; w]%nat) → wf t →
  ∃ g g2, call t = Ok g ∧ call g = Ok g2
          ∧ shape g2 = shape g
          ∧ data g2 = (λ v, v * (9999 / 10000)) <$> data g.
Proof.
  intros Hshape Wt.
  assert (∃ t4, call t = call t4 ∧ shape t4 = [b; 3; h; w]%nat ∧ wf t4)
    as (t4 & -> & Ht4 & Wt4).
  { destruct Hshape as [Ht|[-> Ht]]; [by exists t|].
    exists (unsqueeze0 t). split; [exact (call_rgb_3d t h w Ht)|].
    unfold unsqueeze0, wf in *. cbn [shape data]. rewrite Ht in *. split; [done|].
    rewrite Wt. cbn. lia. }
  rewrite (call_rgb t4 b h w Ht4 Wt4).
  set (gd := (λ k : nat, luminance (data t4) (h * w) (k / (3 * (h * w))) (k mod (h * w)))
               <$> seq 0 (b * (3 * (h * w)))).
  set (g := Tensor.mk (if decide (b = 1%nat) then [3; h; w]%nat else [b; 3; h; w]%nat) gd).
  assert (length gd = (b * (3 * (h * w)))%nat) as Hgd
    by (subst gd; by rewrite length_fmap, length_seq).
  assert (∃ g4, call g = call g4 ∧ shape g4 = [b; 3; h; w]%nat ∧ wf g4 ∧ data g4 = gd)
    as (g4 & Hcall & Hg4 & Wg4 & Hdata).
  { subst g. destruct (decide (b = 1%nat)) as [->|].
    - exists (unsqueeze0 (Tensor.mk [3; h; w]%nat gd)).
      split; [by apply (call_rgb_3d _ h w)|]. split; [done|]. split; [|done].
      unfold wf. cbn [unsqueeze0 shape data]. rewrite Hgd. cbn. lia.
    - eexists. split; [done|]. split; [done|]. split; [|done].
      unfold wf. cbn [shape data]. rewrite Hgd. cbn. lia. }
  exists g. eexists. split; [done|]. rewrite Hcall, (call_rgb g4 b h w Hg4 Wg4).
  split; [done|]. split; [done|]. cbn [data]. rewrite Hdata. subst g. cbn [data].
  subst gd. rewrite <- list_fmap_compose. apply list_fmap_ext. intros k ? Hk.
  apply lookup_seq in Hk as [-> Hk]. change (0 + k)%nat with k.
  assert (0 < h * w)%nat as Hhw by nia.
  set (n := (k / (3 * (h * w)))%nat). set (p := (k mod (h * w))%nat).
  assert (n < b)%nat as Hn by (subst n; apply Nat.Div0.div_lt_upper_bound; lia).
  assert (p < h * w)%nat as Hp by (subst p; apply Nat.mod_upper_bound; lia).
  assert (∀ c : nat, (c < 3)%nat →
            nth ((n * 3 + c) * (h * w) + p)
              ((λ k : nat,
                  luminance (data t4) (h * w) (k / (3 * (h * w))) (k mod (h * w)))
                 <$> seq 0 (b * (3 * (h * w)))) 0
            = luminance (data t4) (h * w) n p) as Hentry.
  { intros c Hc. rewrite nth_lookup, list_lookup_fmap, lookup_seq_lt by nia.
    cbn [fmap option_fmap option_map default plus]. unfold Datatypes.id. f_equal.
    - replace ((n * 3 + c) * (h * w) + p)%nat
        with ((c * (h * w) + p) + n * (3 * (h * w)))%nat by lia.
      rewrite Nat.div_add by lia. rewrite Nat.div_small by nia. done.
    - rewrite Nat.add_comm, Nat.Div0.mod_add. by apply Nat.mod_small. }
  cbn [compose]. unfold luminance at 1.
  replace (n * 3 * (h * w) + p)%nat with ((n * 3 + 0) * (h * w) + p)%nat by lia.
  rewrite !Hentry by lia. fold n p. rlra.
Qed.

Lemma grayscale_twice_witness :
  ∃ g g2, call (Tensor.mk [3; 1; 1]%nat [1; 1; 1]) = Ok g ∧ call g = Ok g2
          ∧ data g2 = (λ v, v * (9999 / 10000)) <$> data g.
Proof.
  destruct (grayscale_twice (Tensor.mk [3; 1; 1]%nat [1; 1; 1]) 1 1 1)
    as (g & g2 & Hg & Hg2 & _ & Hd); [by right|reflexivity|].
  by exists g, g2.
Defined.
End grayscale_more.
